(** * Unity function indexer (unity_indexer.go): shallow embedding and properties

    The development follows the Go source top to bottom:
    - Go strings are byte sequences ([list ascii]); the parts of the Go
      standard library the program calls ([unicode/utf8], [unicode],
      [strings], [regexp], [sort]) are modelled on those bytes;
    - [ParseFile], [cleanXMLTags], [extractKeywords], [splitCamelCase],
      [ScanUnityProject], [GenerateUnityMarkdown] and [GenerateJSON] are
      translated function by function;
    - the file system is an explicit [World]; printing and file writing are
      explicit outputs. *)

From Stdlib Require Import ZArith List Ascii String DecimalString Lia Bool.
From stdpp Require Import base list strings gmap sorting.

Set Warnings "-register-all,-clear-no-such-hyp".

Local Open Scope Z_scope.

(** ** Go strings *)

(** A Go [string] is an immutable sequence of bytes. *)
Abbreviation gostring := (list ascii).

(** A string literal of the source, as its UTF-8 bytes. *)
Definition bytes (s : string) : gostring := list_ascii_of_string s.

(** The numeric value of a byte, [0 <= byte_val c < 256]. *)
Definition byte_val (c : ascii) : Z := Z.of_N (N_of_ascii c).

(** Go's conversion [byte(x)]: truncation to the low eight bits. *)
Definition byte_of (x : Z) : ascii := ascii_of_N (Z.to_N (x mod 256)).

Definition byte_eqb (a b : ascii) : bool := Ascii.eqb a b.

(** Go's [==] on strings. *)
Definition gostring_eqb (a b : gostring) : bool := bool_decide (a = b).

(** ** Package unicode/utf8 *)

Module utf8.

Definition RuneError : Z := 0xFFFD.
Definition RuneSelf : Z := 0x80.
Definition MaxRune : Z := 0x10FFFF.
Definition UTFMax : Z := 4.
Definition surrogateMin : Z := 0xD800.
Definition surrogateMax : Z := 0xDFFF.

Definition t1 : Z := 0x00.
Definition tx : Z := 0x80.
Definition t2 : Z := 0xC0.
Definition t3 : Z := 0xE0.
Definition t4 : Z := 0xF0.
Definition t5 : Z := 0xF8.

Definition maskx : Z := 0x3F.
Definition mask2 : Z := 0x1F.
Definition mask3 : Z := 0x0F.
Definition mask4 : Z := 0x07.

Definition rune1Max : Z := 0x7F.
Definition rune2Max : Z := 0x7FF.
Definition rune3Max : Z := 0xFFFF.

Definition locb : Z := 0x80.
Definition hicb : Z := 0xBF.

(** Information about the first byte of an encoding: the table [first]. *)
Definition xx : Z := 0xF1.
Definition as_ : Z := 0xF0.
Definition s1 : Z := 0x02.
Definition s2 : Z := 0x13.
Definition s3 : Z := 0x03.
Definition s4 : Z := 0x23.
Definition s5 : Z := 0x34.
Definition s6 : Z := 0x04.
Definition s7 : Z := 0x44.

Definition first (b : Z) : Z :=
  if b <? 0x80 then as_
  else if b <? 0xC2 then xx
  else if b <? 0xE0 then s1
  else if b =? 0xE0 then s2
  else if b <? 0xED then s3
  else if b =? 0xED then s4
  else if b <? 0xF0 then s3
  else if b =? 0xF0 then s5
  else if b <? 0xF4 then s6
  else if b =? 0xF4 then s7
  else xx.

(** The table [acceptRanges]: bounds on the second byte. *)
Definition acceptRanges (i : Z) : Z * Z :=
  if i =? 0 then (locb, hicb)
  else if i =? 1 then (0xA0, hicb)
  else if i =? 2 then (locb, 0x9F)
  else if i =? 3 then (0x90, hicb)
  else if i =? 4 then (locb, 0x8F)
  else (0, 0).

(** [utf8.DecodeRuneInString]: the first rune of [s] and its width in
    bytes; [(RuneError, 0)] on the empty string and [(RuneError, 1)] on an
    invalid encoding. *)
Definition DecodeRuneInString (s : gostring) : Z * nat :=
  match s with
  | [] => (RuneError, 0%nat)
  | c0 :: r0 =>
    let b0 := byte_val c0 in
    let x := first b0 in
    if as_ <=? x then
      (* mask := rune(x) << 31 >> 31: all ones exactly when x is odd (xx) *)
      ((if Z.odd x then RuneError else b0), 1%nat)
    else
      let sz := Z.land x 7 in
      let accept := acceptRanges (Z.shiftr x 4) in
      if Z.of_nat (length s) <? sz then (RuneError, 1%nat) else
      match r0 with
      | [] => (RuneError, 1%nat)
      | c1 :: r1 =>
        let b1 := byte_val c1 in
        if (b1 <? fst accept) || (snd accept <? b1) then (RuneError, 1%nat) else
        if sz <=? 2 then
          (Z.lor (Z.shiftl (Z.land b0 mask2) 6) (Z.land b1 maskx), 2%nat)
        else
        match r1 with
        | [] => (RuneError, 1%nat)
        | c2 :: r2 =>
          let b2 := byte_val c2 in
          if (b2 <? locb) || (hicb <? b2) then (RuneError, 1%nat) else
          if sz <=? 3 then
            (Z.lor (Z.lor (Z.shiftl (Z.land b0 mask3) 12)
                          (Z.shiftl (Z.land b1 maskx) 6))
                   (Z.land b2 maskx), 3%nat)
          else
          match r2 with
          | [] => (RuneError, 1%nat)
          | c3 :: _ =>
            let b3 := byte_val c3 in
            if (b3 <? locb) || (hicb <? b3) then (RuneError, 1%nat) else
            (Z.lor (Z.lor (Z.lor (Z.shiftl (Z.land b0 mask4) 18)
                                 (Z.shiftl (Z.land b1 maskx) 12))
                          (Z.shiftl (Z.land b2 maskx) 6))
                   (Z.land b3 maskx), 4%nat)
          end
        end
      end
  end.

(** [utf8.RuneStart]: the byte is not a continuation byte. *)
Definition RuneStart (b : Z) : bool := negb (Z.land b 0xC0 =? 0x80).

(** The backward scan of [DecodeLastRuneInString]:
    [for start--; start >= lim; start-- { if RuneStart(s[start]) { break } }],
    entered after the first decrement; it runs at most [UTFMax] times. *)
Fixpoint scan_back (n : nat) (s : gostring) (start lim : Z) : Z :=
  match n with
  | O => start
  | S n' =>
    if start <? lim then start
    else if RuneStart (byte_val (nth (Z.to_nat start) s zero)) then start
    else scan_back n' s (start - 1) lim
  end.

(** [utf8.DecodeLastRuneInString]. *)
Definition DecodeLastRuneInString (s : gostring) : Z * nat :=
  let end_ := Z.of_nat (length s) in
  if end_ =? 0 then (RuneError, 0%nat) else
  let start := end_ - 1 in
  let r := byte_val (nth (Z.to_nat start) s zero) in
  if r <? RuneSelf then (r, 1%nat) else
  let lim := Z.max 0 (end_ - UTFMax) in
  let start := scan_back 4 s (start - 1) lim in
  let start := Z.max 0 start in
  let '(r, size) := DecodeRuneInString (drop (Z.to_nat start) s) in
  if negb (start + Z.of_nat size =? end_) then (RuneError, 1%nat)
  else (r, size).

(** [utf8.AppendRune] on an empty buffer: the UTF-8 encoding of [r]; a
    surrogate or out-of-range rune is encoded as [RuneError]. The rune is
    an [int32] read as [uint32], so a negative one is out of range. *)
Definition EncodeRune (r : Z) : gostring :=
  if (0 <=? r) && (r <=? rune1Max) then [byte_of r]
  else if (0 <=? r) && (r <=? rune2Max) then
    [byte_of (Z.lor t2 (Z.shiftr r 6));
     byte_of (Z.lor tx (Z.land r maskx))]
  else
    let r3 :=
      if (r <? 0) || (MaxRune <? r) || ((surrogateMin <=? r) && (r <=? surrogateMax))
      then Some RuneError
      else if r <=? rune3Max then Some r else None in
    match r3 with
    | Some r =>
      [byte_of (Z.lor t3 (Z.shiftr r 12));
       byte_of (Z.lor tx (Z.land (Z.shiftr r 6) maskx));
       byte_of (Z.lor tx (Z.land r maskx))]
    | None =>
      [byte_of (Z.lor t4 (Z.shiftr r 18));
       byte_of (Z.lor tx (Z.land (Z.shiftr r 12) maskx));
       byte_of (Z.lor tx (Z.land (Z.shiftr r 6) maskx));
       byte_of (Z.lor tx (Z.land r maskx))]
    end.

(** [utf8.RuneLen]: the number of bytes of the encoding of [r], [-1] if
    [r] cannot be encoded. *)
Definition RuneLen (r : Z) : Z :=
  if r <? 0 then -1
  else if r <=? rune1Max then 1
  else if r <=? rune2Max then 2
  else if (surrogateMin <=? r) && (r <=? surrogateMax) then -1
  else if r <=? rune3Max then 3
  else if r <=? MaxRune then 4
  else -1.

(** The pairs [(i, r)] a [for i, r := range s] loop yields: the byte
    offset of each rune and the rune. An invalid byte yields [RuneError]
    and the loop advances by one byte. [fuel] bounds the number of runes;
    every rune is at least one byte wide, so [length s] is enough. *)
Fixpoint range_from (fuel : nat) (i : nat) (s : gostring) : list (nat * Z) :=
  match fuel with
  | O => []
  | S n =>
    match s with
    | [] => []
    | _ :: _ =>
      let '(r, w) := DecodeRuneInString s in
      (i, r) :: range_from n (i + w)%nat (drop w s)
    end
  end.

Definition range (s : gostring) : list (nat * Z) :=
  range_from (length s) 0%nat s.

End utf8.

(** ** Package unicode *)

Module unicode.

Definition MaxASCII : Z := 0x7F.
Definition MaxLatin1 : Z := 0xFF.

(** [unicode.IsSpace]: the Latin-1 spaces, then the rest of the
    [White_Space] property table. *)
Definition IsSpace (r : Z) : bool :=
  if (0 <=? r) && (r <=? MaxLatin1) then
    (r =? 0x09) || (r =? 0x0A) || (r =? 0x0B) || (r =? 0x0C) || (r =? 0x0D)
    || (r =? 0x20) || (r =? 0x85) || (r =? 0xA0)
  else
    (r =? 0x1680) || ((0x2000 <=? r) && (r <=? 0x200A))
    || (r =? 0x2028) || (r =? 0x2029) || (r =? 0x202F) || (r =? 0x205F)
    || (r =? 0x3000).

(** [unicode.ToLower]. Above [MaxASCII] Go looks the rune up in the
    [CaseRanges] table of the package; that table is data of the Go
    distribution, taken here as the parameter [caseLower]. *)
Definition ToLower (caseLower : Z -> Z) (r : Z) : Z :=
  if r <=? MaxASCII then
    if (65 <=? r) && (r <=? 90) then r + (97 - 65) else r
  else caseLower r.

End unicode.

(** ** Package strings *)

Module strings.

Fixpoint HasPrefix (s prefix : gostring) {struct prefix} : bool :=
  match prefix, s with
  | [], _ => true
  | p :: prefix', c :: s' => byte_eqb c p && HasPrefix s' prefix'
  | _ :: _, [] => false
  end.

Definition HasSuffix (s suffix : gostring) : bool :=
  (length suffix <=? length s)%nat
  && gostring_eqb (drop (length s - length suffix)%nat s) suffix.

Definition TrimPrefix (s prefix : gostring) : gostring :=
  if HasPrefix s prefix then drop (length prefix) s else s.

Fixpoint Contains (s substr : gostring) : bool :=
  HasPrefix s substr ||
  match s with
  | [] => false
  | _ :: s' => Contains s' substr
  end.

(** [strings.Split(s, sep)] for a separator of one byte, the only kind
    the program passes ("\n" and the path separator). [cur] holds the
    bytes of the piece being read. *)
Fixpoint Split_from (cur : gostring) (s : gostring) (sep : ascii) : list gostring :=
  match s with
  | [] => [cur]
  | c :: s' =>
    if byte_eqb c sep then cur :: Split_from [] s' sep
    else Split_from (cur ++ [c]) s' sep
  end.

Definition Split (s : gostring) (sep : ascii) : list gostring :=
  Split_from [] s sep.

Fixpoint Join (elems : list gostring) (sep : gostring) : gostring :=
  match elems with
  | [] => []
  | [e] => e
  | e :: rest => e ++ sep ++ Join rest sep
  end.

(** [strings.ReplaceAll(s, old, new)] for [old] of one byte. *)
Definition ReplaceAll (s : gostring) (old : ascii) (new : gostring) : gostring :=
  flat_map (fun c => if byte_eqb c old then new else [c]) s.

(** [indexFunc]: the offset of the first rune [r] with [f r = truth]. *)
Definition indexFunc (s : gostring) (f : Z -> bool) (truth : bool) : option nat :=
  fst <$> List.find (fun ir => Bool.eqb (f (snd ir)) truth) (utf8.range s).

(** [lastIndexFunc]:
    [for i := len(s); i > 0; { r, size := DecodeLastRuneInString(s[0:i]);
       i -= size; if f(r) == truth { return i } }; return -1]. *)
Fixpoint lastIndexFunc_from (fuel : nat) (s : gostring) (f : Z -> bool)
    (truth : bool) (i : nat) : option nat :=
  match fuel with
  | O => None
  | S n =>
    if (i =? 0)%nat then None else
    let '(r, size) := utf8.DecodeLastRuneInString (take i s) in
    let i := (i - size)%nat in
    if Bool.eqb (f r) truth then Some i
    else lastIndexFunc_from n s f truth i
  end.

Definition lastIndexFunc (s : gostring) (f : Z -> bool) (truth : bool) : option nat :=
  lastIndexFunc_from (length s) s f truth (length s).

Definition TrimLeftFunc (s : gostring) (f : Z -> bool) : gostring :=
  match indexFunc s f false with
  | None => []
  | Some i => drop i s
  end.

Definition TrimRightFunc (s : gostring) (f : Z -> bool) : gostring :=
  match lastIndexFunc s f false with
  | Some i =>
    if utf8.RuneSelf <=? byte_val (nth i s zero) then
      let '(_, wid) := utf8.DecodeRuneInString (drop i s) in
      take (i + wid)%nat s
    else take (i + 1)%nat s
  | None => take 0%nat s
  end.

Definition TrimFunc (s : gostring) (f : Z -> bool) : gostring :=
  TrimRightFunc (TrimLeftFunc s f) f.

(** [strings.TrimSpace]: leading and trailing white space, as defined by
    Unicode, removed. Go runs a byte loop over leading and trailing ASCII
    first and falls back to [TrimFunc]/[TrimRightFunc] with
    [unicode.IsSpace] at the first non-ASCII byte; both give the slice
    that [TrimFunc] gives. *)
Definition TrimSpace (s : gostring) : gostring :=
  TrimFunc s unicode.IsSpace.

(** [strings.FieldsFunc]: the loop over [for end, rune := range s] keeps
    [start] (negative when outside a field) and the spans found. *)
Definition FieldsFunc_step (f : Z -> bool) (st : option nat * list (nat * nat))
    (er : nat * Z) : option nat * list (nat * nat) :=
  let '(start, spans) := st in
  let '(end_, rune) := er in
  if f rune then
    match start with
    | Some b => (None, spans ++ [(b, end_)])
    | None => (start, spans)
    end
  else
    match start with
    | None => (Some end_, spans)
    | Some _ => (start, spans)
    end.

Definition FieldsFunc (s : gostring) (f : Z -> bool) : list gostring :=
  let '(start, spans) := fold_left (FieldsFunc_step f) (utf8.range s) (None, []) in
  let spans :=
    match start with
    | Some b => spans ++ [(b, length s)]
    | None => spans
    end in
  map (fun sp => take (snd sp - fst sp)%nat (drop (fst sp) s)) spans.

(** [strings.Fields]: split around runs of Unicode white space. (The
    ASCII-only fast path of Go computes what [FieldsFunc] computes.) *)
Definition Fields (s : gostring) : list gostring :=
  FieldsFunc s unicode.IsSpace.

(** [strings.Map]. The first loop looks for the first rune that the
    mapping changes (an invalid byte always counts as changed); without
    one the input is returned as it is. From there on every rune is
    mapped and encoded again; a negative result drops the rune. *)
Definition Map_changed (mapping : Z -> Z) (s : gostring) (ic : nat * Z) : bool :=
  let '(i, c) := ic in
  let r := mapping c in
  if (r =? c) && negb (c =? utf8.RuneError) then false
  else if c =? utf8.RuneError then
    let '(c', width) := utf8.DecodeRuneInString (drop i s) in
    negb (negb (width =? 1)%nat && (r =? c'))
  else true.

Definition Map_rest (mapping : Z -> Z) (s : gostring) : gostring :=
  flat_map (fun ic =>
    let r := mapping (snd ic) in
    if 0 <=? r then
      if r <? utf8.RuneSelf then [byte_of r] else utf8.EncodeRune r
    else []) (utf8.range s).

Definition Map (mapping : Z -> Z) (s : gostring) : gostring :=
  match List.find (Map_changed mapping s) (utf8.range s) with
  | None => s
  | Some (i, c) =>
    let r := mapping c in
    let width :=
      if c =? utf8.RuneError then snd (utf8.DecodeRuneInString (drop i s))
      else Z.to_nat (utf8.RuneLen c) in
    take i s ++ (if 0 <=? r then utf8.EncodeRune r else [])
      ++ Map_rest mapping (drop (i + width)%nat s)
  end.

(** [strings.ToLower]: a byte loop for ASCII-only strings, [Map] with
    [unicode.ToLower] otherwise. *)
Definition ToLower (caseLower : Z -> Z) (s : gostring) : gostring :=
  let isASCII := forallb (fun c => byte_val c <? utf8.RuneSelf) s in
  let hasUpper := existsb (fun c => (65 <=? byte_val c) && (byte_val c <=? 90)) s in
  if isASCII then
    if negb hasUpper then s
    else map (fun c =>
           if (65 <=? byte_val c) && (byte_val c <=? 90)
           then byte_of (byte_val c + (97 - 65)) else c) s
  else Map (unicode.ToLower caseLower) s.

End strings.

(** ** Package regexp *)

Module regexp.

(** The syntax tree of the regular expressions the program compiles.
    [Group i] is the capturing group number [i]; [BeginLine] is [^] under
    the flag [(?m)]. Character classes are predicates on a byte: every
    class of the program is a set of ASCII characters or the complement of
    one, and the literal that follows a complemented class is ASCII, so
    matching byte by byte consumes what Go's rune by rune matching
    consumes. *)
Inductive Regexp : Type :=
| Empty
| Char (c : ascii)
| Class (p : ascii -> bool)
| Cat (a b : Regexp)
| Alt (a b : Regexp)
| Star (a : Regexp)
| Group (i : nat) (a : Regexp)
| BeginLine.

Definition Plus (a : Regexp) : Regexp := Cat a (Star a).
Definition Quest (a : Regexp) : Regexp := Alt a Empty.
Definition Seq (l : list Regexp) : Regexp := fold_right Cat Empty l.
Definition Alts (l : list Regexp) : Regexp :=
  match l with
  | [] => Empty
  | a :: l' => fold_left Alt l' a
  end.
Definition Lit (s : string) : Regexp := Seq (map Char (bytes s)).

Definition newline : ascii := "010"%char.

(** Perl classes, as Go defines them: [\s] is [[\t\n\f\r ]], [\w] is
    [[0-9A-Za-z_]]. *)
Definition perl_s (c : ascii) : bool :=
  let b := byte_val c in
  (b =? 9) || (b =? 10) || (b =? 12) || (b =? 13) || (b =? 32).
Definition perl_w (c : ascii) : bool :=
  let b := byte_val c in
  ((48 <=? b) && (b <=? 57)) || ((65 <=? b) && (b <=? 90))
  || ((97 <=? b) && (b <=? 122)) || (b =? 95).
Definition one_of (s : string) (c : ascii) : bool :=
  existsb (byte_eqb c) (bytes s).
Definition none_of (l : gostring) (c : ascii) : bool :=
  negb (existsb (byte_eqb c) l).

(** Submatches recorded so far, the latest first. *)
Definition captures : Type := list (nat * gostring).

Fixpoint capture (i : nat) (cs : captures) : gostring :=
  match cs with
  | [] => []
  | (j, s) :: cs' => if (i =? j)%nat then s else capture i cs'
  end.

(** The backtracking matcher, in continuation-passing style: alternatives
    are tried left to right and repetition is greedy, which is the
    leftmost-first match Go returns. [bol] tells whether the position is
    at the beginning of a line. An iteration of [Star] that consumes
    nothing is not taken (no starred expression of the program can match
    the empty string). *)
Fixpoint run {R : Type} (re : Regexp) (bol : bool) (s : gostring)
    (cs : captures) (k : bool -> gostring -> captures -> option R) : option R :=
  match re with
  | Empty => k bol s cs
  | Char c =>
    match s with
    | x :: s' => if byte_eqb x c then k (byte_eqb x newline) s' cs else None
    | [] => None
    end
  | Class p =>
    match s with
    | x :: s' => if p x then k (byte_eqb x newline) s' cs else None
    | [] => None
    end
  | Cat a b => run a bol s cs (fun bol' s' cs' => run b bol' s' cs' k)
  | Alt a b =>
    match run a bol s cs k with
    | Some r => Some r
    | None => run b bol s cs k
    end
  | Star a =>
    (fix loop (fuel : nat) (bol : bool) (s : gostring) (cs : captures) : option R :=
       match fuel with
       | O => k bol s cs
       | S n =>
         match run a bol s cs (fun bol' s' cs' =>
                 if (length s' <? length s)%nat then loop n bol' s' cs' else None) with
         | Some r => Some r
         | None => k bol s cs
         end
       end) (length s) bol s cs
  | Group i a =>
    run a bol s cs (fun bol' s' cs' =>
      k bol' s' ((i, take (length s - length s')%nat s) :: cs'))
  | BeginLine => if bol then k bol s cs else None
  end.

(** A match found by an unanchored search: the text before it, the text
    of the match, its submatches, and what follows it. *)
Record Match : Type := mkMatch {
  m_before : gostring;
  m_text : gostring;
  m_caps : captures;
  m_after : gostring;
  m_bol : bool
}.

Definition match_at (re : Regexp) (bol : bool) (before s : gostring) : option Match :=
  run re bol s [] (fun bol' s' cs =>
    Some (mkMatch before (take (length s - length s')%nat s) cs s' bol')).

(** The leftmost match: start positions are tried from left to right. *)
Fixpoint search (re : Regexp) (bol : bool) (before s : gostring) : option Match :=
  match match_at re bol before s with
  | Some m => Some m
  | None =>
    match s with
    | [] => None
    | c :: s' => search re (byte_eqb c newline) (before ++ [c]) s'
    end
  end.

Fixpoint NumSubexp (re : Regexp) : nat :=
  match re with
  | Cat a b | Alt a b => Nat.max (NumSubexp a) (NumSubexp b)
  | Star a => NumSubexp a
  | Group i a => Nat.max i (NumSubexp a)
  | _ => 0%nat
  end.

(** [Regexp.FindStringSubmatch]: [None] is Go's [nil]; otherwise the
    text of the match followed by the text of each group (empty for a
    group that took no part in the match). *)
Definition FindStringSubmatch (re : Regexp) (s : gostring) : option (list gostring) :=
  match search re true [] s with
  | Some m =>
    Some (m_text m :: map (fun i => capture i (m_caps m)) (seq 1 (NumSubexp re)))
  | None => None
  end.

(** Template expansion of [ReplaceAllString]: [$name] with [name] the
    longest run of letters, digits and underscores; a number names a
    group, any other name an (absent) named group; a [$] without a name is
    copied. The braced form and [$$] do not occur in the program. *)
Definition is_digit (c : ascii) : bool := (48 <=? byte_val c) && (byte_val c <=? 57).

Definition group_number (name : gostring) : option nat :=
  if forallb is_digit name then
    Some (fold_left (fun n c => (10 * n + Z.to_nat (byte_val c - 48))%nat) name 0%nat)
  else None.

Fixpoint span_name (s : gostring) : gostring * gostring :=
  match s with
  | c :: s' =>
    if perl_w c then let '(n, r) := span_name s' in (c :: n, r) else ([], s)
  | [] => ([], [])
  end.

Fixpoint expand (fuel : nat) (template : gostring) (m : Match) : gostring :=
  match fuel with
  | O => []
  | S n =>
    match template with
    | [] => []
    | c :: t =>
      if byte_eqb c "$"%char then
        match span_name t with
        | ([], _) => c :: expand n t m
        | (name, rest) =>
          match group_number name with
          | Some 0%nat => m_text m ++ expand n rest m
          | Some i => capture i (m_caps m) ++ expand n rest m
          | None => expand n rest m
          end
        end
      else c :: expand n t m
    end
  end.

(** [Regexp.ReplaceAllString]: the matches are found from left to
    right, each search starting where the previous match ended. The
    expressions it is called with never match the empty string. *)
Fixpoint replace_from (fuel : nat) (re : Regexp) (bol : bool) (src repl : gostring) : gostring :=
  match fuel with
  | O => src
  | S n =>
    match search re bol [] src with
    | None => src
    | Some m =>
      m_before m ++ expand (S (length repl)) repl m
        ++ (if (length (m_after m) <? length src)%nat
            then replace_from n re (m_bol m) (m_after m) repl
            else m_after m)
    end
  end.

Definition ReplaceAllString (re : Regexp) (src repl : gostring) : gostring :=
  replace_from (S (length src)) re true src repl.

End regexp.

(** ** The operating system, as the program sees it *)

(** An error value returned by package [os]: what [os.IsNotExist] says of
    it and the text [%v] prints. *)
Record oserror : Type := mkOsError {
  err_IsNotExist : bool;
  err_Error : gostring
}.

(** Go's [error] values of the program: an error of the operating system,
    or one made by [fmt.Errorf]. *)
Inductive error : Type :=
| OsError (e : oserror)
| Errorf (msg : gostring).

(** [err.Error()], the text [%v] prints for an error. *)
Definition error_Error (e : error) : gostring :=
  match e with
  | OsError e => err_Error e
  | Errorf msg => msg
  end.

(** [os.IsNotExist]; [None] is the [nil] error. *)
Definition os_IsNotExist (err : option error) : bool :=
  match err with
  | Some (OsError e) => err_IsNotExist e
  | _ => false
  end.

(** What [filepath.Walk] finds below a path: an entry [Lstat] fails on, an
    entry that is not a directory, a directory that cannot be read, or a
    directory with its entries in the order [readDirNames] returns them. *)
Inductive fsnode : Type :=
| LstatFails (e : oserror)
| NotDir
| DirUnreadable (e : oserror)
| Dir (entries : list (gostring * fsnode)).

Record World : Type := mkWorld {
  (** [os.Stat(path)]: its error result. *)
  os_Stat : gostring -> option error;
  (** [os.ReadFile(path)]. *)
  os_ReadFile : gostring -> gostring * option error;
  (** The tree [filepath.Walk(path, ...)] traverses. *)
  os_Tree : gostring -> fsnode;
  (** [os.WriteFile(name, data, 0644)]: its error result. *)
  os_WriteFile : gostring -> gostring -> option error
}.

(** ** Packages fmt and sort *)

Definition dquote : ascii := Eval cbv in ascii_of_nat 34.
Definition backslash : ascii := Eval cbv in ascii_of_nat 92.

(** A string literal of the source with its escapes: a backslash followed
    by [n] is a line feed, and a backslash followed by [q] stands for the
    escaped double quote of the Go source. *)
Fixpoint unescape (s : gostring) : gostring :=
  match s with
  | c :: rest =>
    if byte_eqb c backslash then
      match rest with
      | e :: rest' =>
        (if byte_eqb e "n"%char then regexp.newline
         else if byte_eqb e "q"%char then dquote
         else e) :: unescape rest'
      | [] => [c]
      end
    else c :: unescape rest
  | [] => []
  end.

Definition gs (s : string) : gostring := unescape (bytes s).

Module fmt.

(** The operands the program formats. *)
Inductive arg : Type :=
| Str (s : gostring)
| Int (n : nat)
| Err (e : error).

Definition itoa (n : nat) : gostring :=
  bytes (DecimalString.NilZero.string_of_uint (Nat.to_uint n)).

Definition format_arg (a : arg) : gostring :=
  match a with
  | Str s => s
  | Int n => itoa n
  | Err e => error_Error e
  end.

(** [fmt.Sprintf] for the verbs the program uses, [%s], [%d] and [%v], each
    given an operand of its type: a verb is replaced by its operand. A
    verb without operand prints as Go prints it. *)
Fixpoint Sprintf (format : gostring) (args : list arg) : gostring :=
  match format with
  | c :: rest =>
    if byte_eqb c "%"%char then
      match rest with
      | v :: rest' =>
        match args with
        | a :: args' => format_arg a ++ Sprintf rest' args'
        | [] => bytes "%!" ++ [v] ++ bytes "(MISSING)" ++ Sprintf rest' []
        end
      | [] => bytes "%!(NOVERB)"
      end
    else c :: Sprintf rest args
  | [] => []
  end.

End fmt.

Module sort.

(** Go's [<] on strings: the bytewise lexicographic order. *)
Fixpoint string_ltb (a b : gostring) : bool :=
  match a, b with
  | [], [] => false
  | [], _ :: _ => true
  | _ :: _, [] => false
  | x :: a', y :: b' =>
    (byte_val x <? byte_val y)
    || ((byte_val x =? byte_val y) && string_ltb a' b')
  end.

Definition string_lt (a b : gostring) : Prop := string_ltb a b = true.
Definition string_le (a b : gostring) : Prop := string_ltb b a = false.

#[global] Instance string_le_dec : RelDecision string_le.
Proof. intros a b. unfold string_le. apply _. Defined.

(** [sort.Strings]: the strings in increasing order. *)
Definition Strings (l : list gostring) : list gostring :=
  merge_sort string_le l.

End sort.

(** ** unity_indexer.go *)

(** [FunctionInfo]. *)
Record FunctionInfo : Type := mkFunctionInfo {
  FileName : gostring;
  FilePath : gostring;
  RelativePath : gostring;
  Namespace : gostring;
  ClassName : gostring;
  FuncName : gostring;
  Comments : list gostring;
  Signature : gostring;
  IsUnityEvent : bool;
  IsCoroutine : bool;
  Attributes : list gostring;
  Keywords : list gostring
}.

(** [UnityParser]. *)
Record UnityParser : Type := mkUnityParser {
  xmlCommentRegex : regexp.Regexp;
  singleCommentRegex : regexp.Regexp;
  functionRegex : regexp.Regexp;
  namespaceRegex : regexp.Regexp;
  classRegex : regexp.Regexp;
  attributeRegex : regexp.Regexp;
  unityEvents : gmap gostring bool
}.

Section Patterns.
Import regexp.

Definition any_but_newline : Regexp := Class (none_of [newline]).
Definition s_ : Regexp := Class perl_s.
Definition w_ : Regexp := Class perl_w.

(** The pattern [/// \s* (.+)] (here and below the parts of a pattern are
    set apart by spaces that are not part of it). *)
Definition xmlComment_re : Regexp :=
  Seq [Lit "///"; Star s_; Group 1 (Plus any_but_newline)].

(** The pattern [// \s* (.+)]. *)
Definition singleComment_re : Regexp :=
  Seq [Lit "//"; Star s_; Group 1 (Plus any_but_newline)].

(** The pattern
    [(?m)^ \s* (?: \[ [\w\s,()=.]+ \] \s* )*
     (public|private|protected|internal|static|\s)+
     ([\w<>\[\]]+) \s+ (\w+) \s* \( ([^)]* ) \)]. *)
Definition function_re : Regexp :=
  Seq [BeginLine; Star s_;
       Star (Seq [Char "["; Plus (Class (fun c => perl_w c || perl_s c || one_of ",()=." c));
                  Char "]"; Star s_]);
       Plus (Group 1 (Alts [Lit "public"; Lit "private"; Lit "protected";
                            Lit "internal"; Lit "static"; s_]));
       Group 2 (Plus (Class (fun c => perl_w c || one_of "<>[]" c)));
       Plus s_;
       Group 3 (Plus w_);
       Star s_;
       Char "(";
       Group 4 (Star (Class (none_of (bytes ")"))));
       Char ")"].

(** The pattern [namespace \s+ ([\w.]+)]. *)
Definition namespace_re : Regexp :=
  Seq [Lit "namespace"; Plus s_; Group 1 (Plus (Class (fun c => perl_w c || one_of "." c)))].

(** The pattern
    [(?:public|private|internal)? \s* (?:sealed|abstract)? \s*
     (?:partial)? \s* class \s+ (\w+)]. *)
Definition class_re : Regexp :=
  Seq [Quest (Alts [Lit "public"; Lit "private"; Lit "internal"]); Star s_;
       Quest (Alts [Lit "sealed"; Lit "abstract"]); Star s_;
       Quest (Lit "partial"); Star s_;
       Lit "class"; Plus s_; Group 1 (Plus w_)].

(** The pattern [\[ (\w+) (?: \( [^)]* \) )? \]]. *)
Definition attribute_re : Regexp :=
  Seq [Char "["; Group 1 (Plus w_);
       Quest (Seq [Char "("; Star (Class (none_of (bytes ")"))); Char ")"]);
       Char "]"].

(** The patterns of [cleanXMLTags]: "<summary>", "</summary>", the
    [param] element with a quoted, non-empty [name] attribute (any bytes
    but the quote) and a captured body without [<], and the [returns]
    element with a captured body without [<]. *)
Definition summaryOpen_re : Regexp := Lit "<summary>".
Definition summaryClose_re : Regexp := Lit "</summary>".
Definition param_re : Regexp :=
  Seq [Lit "<param name="; Char dquote; Plus (Class (none_of [dquote])); Char dquote;
       Lit ">"; Group 1 (Star (Class (none_of (bytes "<")))); Lit "</param>"].
Definition returns_re : Regexp :=
  Seq [Lit "<returns>"; Group 1 (Star (Class (none_of (bytes "<")))); Lit "</returns>"].

End Patterns.

(** The keys of the map literal [unityEvents]; each is mapped to [true]. *)
Definition unityEventNames : list gostring :=
  map bytes
    ["Awake"; "Start"; "Update"; "FixedUpdate";
     "LateUpdate"; "OnEnable"; "OnDisable"; "OnDestroy";
     "OnCollisionEnter"; "OnCollisionExit"; "OnCollisionStay";
     "OnTriggerEnter"; "OnTriggerExit"; "OnTriggerStay";
     "OnMouseDown"; "OnMouseUp"; "OnMouseEnter"; "OnMouseExit";
     "OnGUI"; "OnApplicationQuit"; "OnApplicationPause";
     "OnBecameVisible"; "OnBecameInvisible"]%string.

(** [NewUnityParser]. *)
Definition NewUnityParser : UnityParser :=
  let unityEvents : gmap gostring bool :=
    list_to_map (map (fun name => (name, true)) unityEventNames) in
  {| xmlCommentRegex := xmlComment_re;
     singleCommentRegex := singleComment_re;
     functionRegex := function_re;
     namespaceRegex := namespace_re;
     classRegex := class_re;
     attributeRegex := attribute_re;
     unityEvents := unityEvents |}.

(** Reading a Go [map[string]bool]: a missing key reads as [false]. *)
Definition map_get (m : gmap gostring bool) (k : gostring) : bool :=
  default false (m !! k).

(** [match[i]] on the result of [FindStringSubmatch]. *)
Definition submatch (m : list gostring) (i : nat) : gostring := nth i m [].

(** [cleanXMLTags]. *)
Definition cleanXMLTags (s : gostring) : gostring :=
  let s := regexp.ReplaceAllString summaryOpen_re s (bytes "") in
  let s := regexp.ReplaceAllString summaryClose_re s (bytes "") in
  let s := regexp.ReplaceAllString param_re s (bytes "参数: $1") in
  let s := regexp.ReplaceAllString returns_re s (bytes "返回: $1") in
  strings.TrimSpace s.

Section Indexer.

(** Data and functions of the Go distribution the program depends on and
    this development does not model: the lower-case table of package
    [unicode] for the runes above [MaxASCII], and the path functions of
    [path/filepath] ([Rel] with its error result dropped, as the program
    drops it). *)
Variable caseLower : Z -> Z.
Variable filepath_Join : gostring -> gostring -> gostring.
Variable filepath_Rel : gostring -> gostring -> gostring.
Variable filepath_Base : gostring -> gostring.

(** [splitCamelCase]: the loop body over [for i, r := range s], on the
    state [(words, currentWord)]. *)
Definition splitCamelCase_step (st : list gostring * gostring) (ir : nat * Z)
    : list gostring * gostring :=
  let '(words, currentWord) := st in
  let '(i, r) := ir in
  let '(words, currentWord) :=
    if (0 <? i)%nat && (65 <=? r) && (r <=? 90) then
      if (0 <? length currentWord)%nat
      then (words ++ [strings.ToLower caseLower currentWord], [])
      else (words, currentWord)
    else (words, currentWord) in
  (words, currentWord ++ utf8.EncodeRune r).

Definition splitCamelCase (s : gostring) : list gostring :=
  let '(words, currentWord) := fold_left splitCamelCase_step (utf8.range s) ([], []) in
  if (0 <? length currentWord)%nat
  then words ++ [strings.ToLower caseLower currentWord]
  else words.

(** The de-duplication loop of [extractKeywords], on the state
    [(keywordMap, uniqueKeywords)]. *)
Definition unique_step (st : gmap gostring bool * list gostring) (kw : gostring)
    : gmap gostring bool * list gostring :=
  let '(keywordMap, uniqueKeywords) := st in
  if negb (map_get keywordMap kw) && negb (gostring_eqb kw [])
  then (<[kw := true]> keywordMap, uniqueKeywords ++ [kw])
  else (keywordMap, uniqueKeywords).

(** [extractKeywords]. *)
Definition extractKeywords (funcName : gostring) (comments : list gostring)
    : list gostring :=
  let keywords : list gostring := [] in
  let funcWords := splitCamelCase funcName in
  let keywords := keywords ++ funcWords in
  let commentText := strings.Join comments (bytes " ") in
  let words := strings.Fields commentText in
  let keywords :=
    fold_left (fun keywords word =>
      if (1 <? length word)%nat
      then keywords ++ [strings.ToLower caseLower word]
      else keywords) words keywords in
  snd (fold_left unique_step keywords (∅, [])).

(** The state of the line loop of [ParseFile]. *)
Record ParseState : Type := mkParseState {
  functions : list FunctionInfo;
  currentComments : list gostring;
  currentAttributes : list gostring
}.

(** What [ParseFile] fixes before the loop. *)
Record FileContext : Type := mkFileContext {
  ctx_filePath : gostring;
  ctx_relativePath : gostring;
  ctx_currentNamespace : gostring;
  ctx_currentClass : gostring
}.

(** One iteration of [for i := 0; i < len(lines); i++]. *)
Definition ParseFile_line (p : UnityParser) (ctx : FileContext)
    (st : ParseState) (line : gostring) : ParseState :=
  let trimmed := strings.TrimSpace line in
  if strings.HasPrefix trimmed (bytes "[") && strings.HasSuffix trimmed (bytes "]") then
    match regexp.FindStringSubmatch (attributeRegex p) trimmed with
    | Some match_ =>
      mkParseState (functions st) (currentComments st)
                   (currentAttributes st ++ [submatch match_ 1])
    | None => st
    end
  else if strings.HasPrefix trimmed (bytes "///") then
    let comment := strings.TrimPrefix trimmed (bytes "///") in
    let comment := strings.TrimSpace comment in
    let comment := cleanXMLTags comment in
    if negb (gostring_eqb comment [])
    then mkParseState (functions st) (currentComments st ++ [comment])
                      (currentAttributes st)
    else st
  else if strings.HasPrefix trimmed (bytes "//") then
    let comment := strings.TrimPrefix trimmed (bytes "//") in
    let comment := strings.TrimSpace comment in
    if negb (gostring_eqb comment []) && negb (strings.HasPrefix comment (bytes "/"))
    then mkParseState (functions st) (currentComments st ++ [comment])
                      (currentAttributes st)
    else st
  else
    match regexp.FindStringSubmatch (functionRegex p) line with
    | Some match_ =>
      let funcName := submatch match_ 3 in
      let returnType := submatch match_ 2 in
      let isCoroutine := strings.Contains returnType (bytes "IEnumerator") in
      let isUnityEvent := map_get (unityEvents p) funcName in
      let keywords := extractKeywords funcName (currentComments st) in
      let funcInfo :=
        {| FileName := filepath_Base (ctx_filePath ctx);
           FilePath := ctx_filePath ctx;
           RelativePath := ctx_relativePath ctx;
           Namespace := ctx_currentNamespace ctx;
           ClassName := ctx_currentClass ctx;
           FuncName := funcName;
           Signature := strings.TrimSpace line;
           Comments := currentComments st;
           Attributes := currentAttributes st;
           IsUnityEvent := isUnityEvent;
           IsCoroutine := isCoroutine;
           Keywords := keywords |} in
      mkParseState (functions st ++ [funcInfo]) [] []
    | None =>
      if negb (gostring_eqb trimmed []) && negb (strings.HasPrefix trimmed (bytes "//"))
         && negb (strings.HasPrefix trimmed (bytes "["))
      then
        if negb (strings.Contains trimmed (bytes "{"))
           && negb (strings.Contains trimmed (bytes "}"))
        then mkParseState (functions st) [] []
        else st
      else st
    end.

Definition ParseFile_lines (p : UnityParser) (ctx : FileContext)
    (lines : list gostring) : ParseState :=
  fold_left (ParseFile_line p ctx) lines (mkParseState [] [] []).

(** [ParseFile]. *)
Definition ParseFile (w : World) (p : UnityParser) (filePath rootPath : gostring)
    : list FunctionInfo * option error :=
  let '(content, err) := os_ReadFile w filePath in
  match err with
  | Some e => ([], Some e)
  | None =>
    let lines := strings.Split content regexp.newline in
    let relativePath := filepath_Rel rootPath filePath in
    let fullContent := content in
    let currentNamespace :=
      match regexp.FindStringSubmatch (namespaceRegex p) fullContent with
      | Some match_ => submatch match_ 1
      | None => []
      end in
    let currentClass :=
      match regexp.FindStringSubmatch (classRegex p) fullContent with
      | Some match_ => submatch match_ 1
      | None => []
      end in
    let ctx := mkFileContext filePath relativePath currentNamespace currentClass in
    (functions (ParseFile_lines p ctx lines), None)
  end.

(** *** Output of the program

    What the program prints and writes, in order. *)
Inductive event : Type :=
| Print (text : gostring)
| WriteFile (name data : gostring).

(** [filepath.Walk]. [walkFn] gets the path, the [FileInfo] ([None] when
    [Lstat] failed) and the error, and the state the closure of the
    program updates; it returns the new state and its error result. The
    errors [SkipDir] and [SkipAll] are not modelled: the function the
    program passes never returns them. *)
Record FileInfo : Type := mkFileInfo { IsDir : bool }.

Definition WalkFunc (St : Type) : Type :=
  gostring -> option FileInfo -> option error -> St -> St * option error.

(** The loop [for _, name := range names] of [walk], over the entries of
    a directory; [walk_child] is [walk] itself. *)
Definition walk_entries {St : Type}
    (walk_child : gostring -> fsnode -> St -> St * option error)
    (path : gostring) : list (gostring * fsnode) -> St -> St * option error :=
  fix loop (es : list (gostring * fsnode)) (st : St) : St * option error :=
    match es with
    | [] => (st, None)
    | (name, child) :: es' =>
      let filename := filepath_Join path name in
      let '(st, err) := walk_child filename child st in
      match err with
      | Some e => (st, Some e)
      | None => loop es' st
      end
    end.

Fixpoint walk {St : Type} (walkFn : WalkFunc St) (path : gostring)
    (node : fsnode) (st : St) : St * option error :=
  match node with
  | LstatFails e => walkFn path None (Some (OsError e)) st
  | NotDir => walkFn path (Some (mkFileInfo false)) None st
  | DirUnreadable e => walkFn path (Some (mkFileInfo true)) (Some (OsError e)) st
  | Dir entries =>
    let '(st, err1) := walkFn path (Some (mkFileInfo true)) None st in
    match err1 with
    | Some e => (st, Some e)
    | None => walk_entries (walk walkFn) path entries st
    end
  end.

Definition filepath_Walk {St : Type} (w : World) (root : gostring)
    (walkFn : WalkFunc St) (st : St) : St * option error :=
  walk walkFn root (os_Tree w root) st.

(** The error [ScanUnityProject] makes when the project has no [Assets]
    directory. *)
Definition NotAProjectRoot : error :=
  Errorf (bytes "未找到Assets目录，请确认这是Unity项目根目录").

(** The line printed for a file that could not be parsed. *)
Definition parse_warning (path : gostring) (err : error) : gostring :=
  fmt.Sprintf (gs "⚠️  解析失败 %s: %v\n") [fmt.Str path; fmt.Err err].

(** The state the walk function of [ScanUnityProject] updates: the
    captured [allFunctions] and what has been printed. *)
Definition ScanState : Type := list FunctionInfo * list event.

(** The function literal [ScanUnityProject] passes to [filepath.Walk]. *)
Definition ScanUnityProject_walkFn (w : World) (p : UnityParser)
    (projectPath : gostring) : WalkFunc ScanState :=
  fun path info err st =>
    let '(allFunctions, out) := st in
    match err with
    | Some e => (st, Some e)
    | None =>
      (* [info] is not nil when [err] is nil *)
      let isDir := match info with Some i => IsDir i | None => false end in
      if negb isDir && strings.HasSuffix path (bytes ".cs") then
        let '(functions, err) := ParseFile w p path projectPath in
        match err with
        | Some e =>
          ((allFunctions, out ++ [Print (parse_warning path e)]), None)
        | None => ((allFunctions ++ functions, out), None)
        end
      else (st, None)
    end.

(** [ScanUnityProject]: the two results, and what was printed. *)
Definition ScanUnityProject (w : World) (p : UnityParser) (projectPath : gostring)
    : (list FunctionInfo * option error) * list event :=
  let allFunctions : list FunctionInfo := [] in
  let assetsPath := filepath_Join projectPath (bytes "Assets") in
  if os_IsNotExist (os_Stat w assetsPath) then
    (([], Some NotAProjectRoot), [])
  else
    let '((allFunctions, out), err) :=
      filepath_Walk w assetsPath (ScanUnityProject_walkFn w p projectPath)
                    (allFunctions, []) in
    ((allFunctions, err), out).

End Indexer.

(** [filepath.Separator] on the Unix systems. *)
Definition filepath_Separator : ascii := "/"%char.

Section Renderer.

Variable caseLower : Z -> Z.

(** [sb.WriteString(s)] on a [strings.Builder] holding [sb]. *)
Definition WriteString (sb s : gostring) : gostring := sb ++ s.

(** Reading and appending to a [map[string][]FunctionInfo]: a missing key
    reads as the nil slice. *)
Definition map_slice (m : gmap gostring (list FunctionInfo)) (k : gostring)
    : list FunctionInfo :=
  default [] (m !! k).

Definition map_append (m : gmap gostring (list FunctionInfo)) (k : gostring)
    (fn : FunctionInfo) : gmap gostring (list FunctionInfo) :=
  <[k := map_slice m k ++ [fn]]> m.

(** The keys a [for k := range m] loop visits. Go leaves their order
    open; the program sorts them before use. *)
Definition map_keys (m : gmap gostring (list FunctionInfo)) : list gostring :=
  (map_to_list m).*1.

(** The category of a record: the first segment of its relative path. *)
Definition category_of (fn : FunctionInfo) : gostring :=
  let parts := strings.Split (RelativePath fn) filepath_Separator in
  let category := (gs "其他") in
  if (1 <? length parts)%nat then nth 0 parts [] else category.

Definition build_categoryMap (functions : list FunctionInfo)
    : gmap gostring (list FunctionInfo) :=
  fold_left (fun categoryMap fn => map_append categoryMap (category_of fn) fn)
            functions ∅.

(** The class under which a record is listed. *)
Definition className_of (fn : FunctionInfo) : gostring :=
  let className := ClassName fn in
  if gostring_eqb className [] then (gs "全局函数") else className.

Definition build_classMap (fns : list FunctionInfo)
    : gmap gostring (list FunctionInfo) :=
  fold_left (fun classMap fn => map_append classMap (className_of fn) fn) fns ∅.

(** The body of [for _, fn := range classFns]. *)
Definition write_function (sb : gostring) (fn : FunctionInfo) : gostring :=
  let markers : list gostring := [] in
  let markers := if IsUnityEvent fn then markers ++ [(gs "🎯Unity事件")] else markers in
  let markers := if IsCoroutine fn then markers ++ [(gs "⏱️协程")] else markers in
  let markerStr :=
    if (0 <? length markers)%nat then (gs " ") ++ strings.Join markers (gs " ") else [] in
  let sb := WriteString sb (fmt.Sprintf (gs "#### `%s`%s\n\n") [fmt.Str (FuncName fn); fmt.Str markerStr]) in
  let sb :=
    if (0 <? length (Attributes fn))%nat then
      let sb := WriteString sb (gs "**特性**: ") in
      let sb :=
        fold_left (fun sb ia =>
          let '(i, attr) := ia in
          let sb := if (0 <? i)%nat then WriteString sb (gs ", ") else sb in
          WriteString sb (fmt.Sprintf (gs "`[%s]`") [fmt.Str attr]))
          (zip (seq 0 (length (Attributes fn))) (Attributes fn)) sb in
      WriteString sb (gs "\n\n")
    else sb in
  let sb := WriteString sb (gs "```csharp\n") in
  let sb := WriteString sb (Signature fn) in
  let sb := WriteString sb (gs "\n```\n\n") in
  let sb :=
    if (0 <? length (Comments fn))%nat then
      let sb := WriteString sb (gs "**📝 说明**:\n") in
      let sb :=
        fold_left (fun sb comment =>
          if negb (gostring_eqb (strings.TrimSpace comment) [])
          then WriteString sb (fmt.Sprintf (gs "> %s\n") [fmt.Str comment])
          else sb) (Comments fn) sb in
      WriteString sb (gs "\n")
    else sb in
  let sb :=
    if (0 <? length (Keywords fn))%nat then
      let sb := WriteString sb (gs "**🔑 关键词**: ") in
      let displayKeywords := Keywords fn in
      let displayKeywords :=
        if (8 <? length displayKeywords)%nat then take 8 displayKeywords
        else displayKeywords in
      let sb := WriteString sb ((gs "`") ++ strings.Join displayKeywords (gs "` `") ++ (gs "`")) in
      WriteString sb (gs "\n\n")
    else sb in
  WriteString sb (gs "---\n\n").

(** The heading of a class: its name, and the file of its first record. *)
Definition write_class_heading (sb : gostring) (className : gostring)
    (classFns : list FunctionInfo) : gostring :=
  let sb := WriteString sb (fmt.Sprintf (gs "### 🔸 类: `%s`\n\n") [fmt.Str className]) in
  match classFns with
  | fn0 :: _ => WriteString sb (fmt.Sprintf (gs "📄 文件: `%s`\n\n") [fmt.Str (RelativePath fn0)])
  | [] => sb
  end.

(** The body of [for _, className := range classNames]. *)
Definition write_class (classMap : gmap gostring (list FunctionInfo))
    (sb : gostring) (className : gostring) : gostring :=
  let classFns := map_slice classMap className in
  let sb := write_class_heading sb className classFns in
  fold_left write_function classFns sb.

(** The heading of a category: its name and the number of its records. *)
Definition write_category_heading (sb : gostring) (category : gostring)
    (fns : list FunctionInfo) : gostring :=
  let sb := WriteString sb (fmt.Sprintf (gs "## 📁 %s\n\n") [fmt.Str category]) in
  WriteString sb (fmt.Sprintf (gs "> 包含 %d 个函数\n\n") [fmt.Int (length fns)]).

(** The body of [for _, category := range categories] (the second loop). *)
Definition write_category (categoryMap : gmap gostring (list FunctionInfo))
    (sb : gostring) (category : gostring) : gostring :=
  let fns := map_slice categoryMap category in
  let sb := write_category_heading sb category fns in
  let classMap := build_classMap fns in
  let classNames := sort.Strings (map_keys classMap) in
  fold_left (write_class classMap) classNames sb.

(** The navigation entry of a category (the first loop over [categories]). *)
Definition write_nav (categoryMap : gmap gostring (list FunctionInfo))
    (sb : gostring) (cat : gostring) : gostring :=
  let anchor := strings.ToLower caseLower (strings.ReplaceAll cat " "%char (gs "-")) in
  WriteString sb (fmt.Sprintf (gs "- [📁 %s (%d)](#%s)\n")
    [fmt.Str cat; fmt.Int (length (map_slice categoryMap cat)); fmt.Str anchor]).

Definition write_header (sb : gostring) (functions : list FunctionInfo) : gostring :=
  let sb := WriteString sb (gs "# Unity 项目函数索引\n\n") in
  let sb := WriteString sb (gs "> 🤖 本文档由AI索引工具自动生成，用于快速定位功能函数\n\n") in
  let sb := WriteString sb (fmt.Sprintf (gs "**📊 统计信息**:\n") []) in
  let sb := WriteString sb (fmt.Sprintf (gs "- 总函数数: %d\n") [fmt.Int (length functions)]) in
  let '(unityEventCount, coroutineCount) :=
    fold_left (fun counts fn =>
      let '(unityEventCount, coroutineCount) := counts in
      let unityEventCount := if IsUnityEvent fn then S unityEventCount else unityEventCount in
      let coroutineCount := if IsCoroutine fn then S coroutineCount else coroutineCount in
      (unityEventCount, coroutineCount)) functions (O, O) in
  let sb := WriteString sb (fmt.Sprintf (gs "- Unity生命周期函数: %d\n") [fmt.Int unityEventCount]) in
  let sb := WriteString sb (fmt.Sprintf (gs "- 协程函数: %d\n\n") [fmt.Int coroutineCount]) in
  let sb := WriteString sb (gs "---\n\n") in
  WriteString sb (gs "## 🔍 快速导航\n\n").

Definition write_footer (sb : gostring) : gostring :=
  let sb := WriteString sb (gs "## 💡 使用提示\n\n") in
  let sb := WriteString sb (gs "本文档支持以下搜索方式：\n\n") in
  let sb := WriteString sb (gs "1. **按功能搜索**: 使用关键词如 \q移动\q、\q攻击\q、\qUI\q 等\n") in
  let sb := WriteString sb (gs "2. **按类型搜索**: 搜索 \qUnity事件\q、\q协程\q 等标记\n") in
  let sb := WriteString sb (gs "3. **按文件路径搜索**: 使用目录名定位\n") in
  let sb := WriteString sb (gs "4. **按类名/函数名搜索**: 直接搜索代码标识符\n\n") in
  WriteString sb (gs "> 💡 提示: 使用 Ctrl+F 在文档中搜索，或将此文档提供给AI助手进行智能查询\n").

(** The text [GenerateUnityMarkdown] builds in [sb]. *)
Definition markdown_text (functions : list FunctionInfo) : gostring :=
  let sb : gostring := [] in
  let sb := write_header sb functions in
  let categoryMap := build_categoryMap functions in
  let categories := sort.Strings (map_keys categoryMap) in
  let sb := fold_left (write_nav categoryMap) categories sb in
  let sb := WriteString sb (gs "\n---\n\n") in
  let sb := fold_left (write_category categoryMap) categories sb in
  write_footer sb.

(** [GenerateUnityMarkdown]: its error result and what it writes. A
    failed [os.WriteFile] leaves no event. *)
Definition GenerateUnityMarkdown (w : World) (functions : list FunctionInfo)
    (outputPath : gostring) : option error * list event :=
  let data := markdown_text functions in
  match os_WriteFile w outputPath data with
  | Some e => (Some e, [])
  | None => (None, [WriteFile outputPath data])
  end.

(** The local type [SimpleFuncInfo] of [GenerateJSON]. *)
Record SimpleFuncInfo : Type := mkSimpleFuncInfo {
  json_Class : gostring;
  json_Function : gostring;
  json_File : gostring;
  json_Comments : list gostring;
  json_Keywords : list gostring;
  json_IsUnity : bool
}.

(** [GenerateJSON]: the list [simplified] is built and dropped. *)
Definition GenerateJSON (functions : list FunctionInfo) (outputPath : gostring)
    : option error * list event :=
  let simplified : list SimpleFuncInfo :=
    fold_left (fun simplified fn =>
      simplified ++ [mkSimpleFuncInfo (ClassName fn) (FuncName fn) (RelativePath fn)
                                      (Comments fn) (Keywords fn) (IsUnityEvent fn)])
      functions [] in
  (None, []).

End Renderer.

(** [fmt.Println] of one string: the string and a line feed. *)
Definition Println (s : gostring) : event := Print (s ++ [regexp.newline]).

Section Program.
Variable caseLower : Z -> Z.
Variable filepath_Join : gostring -> gostring -> gostring.
Variable filepath_Rel : gostring -> gostring -> gostring.
Variable filepath_Base : gostring -> gostring.

(** [main], given [os.Args]: what it prints and writes, and the exit
    status of the program ([os.Exit(1)], or 0 when [main] returns). *)
Definition main (w : World) (os_Args : list gostring) : list event * Z :=
  if (length os_Args <? 2)%nat then
    ([Println (gs "使用方法: go run main.go <Unity项目路径> [输出文件名]");
      Println (gs "示例: go run main.go ./MyUnityProject")], 1)
  else
    let projectPath := nth 1 os_Args [] in
    let outputFile := (gs "unity-functions-index.md") in
    let outputFile := if (3 <=? length os_Args)%nat then nth 2 os_Args [] else outputFile in
    let out := [Println (gs "🚀 开始扫描Unity项目...");
                Print (fmt.Sprintf (gs "📂 项目路径: %s\n") [fmt.Str projectPath])] in
    let parser := NewUnityParser in
    let '((functions, err), printed) :=
      ScanUnityProject caseLower filepath_Join filepath_Rel filepath_Base
        w parser projectPath in
    let out := out ++ printed in
    match err with
    | Some e => (out ++ [Print (fmt.Sprintf (gs "❌ 扫描失败: %v\n") [fmt.Err e])], 1)
    | None =>
      let out := out ++ [Print (fmt.Sprintf (gs "✅ 找到 %d 个函数\n") [fmt.Int (length functions)])] in
      let out := out ++ [Println (gs "📝 正在生成Markdown索引...")] in
      let '(err, written) := GenerateUnityMarkdown caseLower w functions outputFile in
      let out := out ++ written in
      match err with
      | Some e => (out ++ [Print (fmt.Sprintf (gs "❌ 生成失败: %v\n") [fmt.Err e])], 1)
      | None =>
        (out ++ [Print (fmt.Sprintf (gs "✅ 索引文档已生成: %s\n") [fmt.Str outputFile]);
                 Println (gs "\n💡 您现在可以:");
                 Println (gs "   1. 直接在编辑器中搜索关键词");
                 Println (gs "   2. 将文档提供给AI助手进行智能查询");
                 Println (gs "   3. 使用 Ctrl+F 快速定位函数")], 0)
      end
    end.

End Program.

(** * Properties *)

(** ** Strings *)

Lemma byte_eqb_eq (a b : ascii) : byte_eqb a b = true <-> a = b.
Proof. unfold byte_eqb. apply Ascii.eqb_eq. Qed.

Lemma byte_eqb_refl (a : ascii) : byte_eqb a a = true.
Proof. by apply byte_eqb_eq. Qed.

Lemma gostring_eqb_eq (a b : gostring) : gostring_eqb a b = true <-> a = b.
Proof. unfold gostring_eqb. apply bool_decide_eq_true. Qed.

Lemma gostring_eqb_nil (a : gostring) : gostring_eqb a [] = false <-> a <> [].
Proof. unfold gostring_eqb. apply bool_decide_eq_false. Qed.

Lemma HasPrefix_spec (s p : gostring) :
  strings.HasPrefix s p = true <-> exists t, s = p ++ t.
Proof.
  revert s. induction p as [|c p IH]; intros s; simpl.
  - split; [intros _; by exists s | intros _; reflexivity].
  - destruct s as [|x s]; simpl.
    + split; [done | intros [t Ht]; discriminate].
    + rewrite andb_true_iff, byte_eqb_eq, IH. split.
      * intros [-> [t ->]]. by exists t.
      * intros [t Ht]. injection Ht as -> ->. split; [done | by exists t].
Qed.

Lemma Contains_spec (s sub : gostring) :
  strings.Contains s sub = true <-> exists a b, s = a ++ sub ++ b.
Proof.
  induction s as [|x s IH]; simpl.
  - rewrite orb_false_r, HasPrefix_spec. split.
    + intros [t Ht]. by exists [], t.
    + intros [a [b Hab]]. destruct a; [by exists b|discriminate].
  - rewrite orb_true_iff, HasPrefix_spec, IH. split.
    + intros [[t Ht] | [a [b Hab]]].
      * by exists [], t.
      * exists (x :: a), b. by rewrite Hab.
    + intros [[|y a] [b Hab]].
      * left. by exists b.
      * right. injection Hab as -> ->. by exists a, b.
Qed.

Lemma Contains_byte (s : gostring) (c : ascii) :
  strings.Contains s [c] = true <-> c ∈ s.
Proof.
  rewrite Contains_spec. split.
  - intros [a [b ->]]. set_solver.
  - intros [a [b ->]]%list_elem_of_split. by exists a, b.
Qed.

(** ** GenerateJSON *)

(** C10: for every list of records and every output path, [GenerateJSON]
    returns the nil error and neither prints nor writes anything: the JSON
    export is a stub. *)
Theorem GenerateJSON_is_stub (functions : list FunctionInfo) (outputPath : gostring) :
  GenerateJSON functions outputPath = (None, []).
Proof. reflexivity. Qed.

(** ** extractKeywords *)

(** The first occurrences of the non-empty strings of [l] that are not in
    [seen], in the order of [l]. *)
Fixpoint first_occurrences (seen l : list gostring) : list gostring :=
  match l with
  | [] => []
  | k :: l' =>
    if bool_decide (k ∈ seen) || gostring_eqb k []
    then first_occurrences seen l'
    else k :: first_occurrences (k :: seen) l'
  end.

Lemma map_get_insert (m : gmap gostring bool) (k k' : gostring) :
  map_get (<[k := true]> m) k' = true <-> k' = k \/ map_get m k' = true.
Proof.
  unfold map_get. destruct (decide (k' = k)) as [->|Hne].
  - rewrite lookup_insert_eq. simpl. tauto.
  - rewrite lookup_insert_ne by done. split; [tauto|]. intros [?|?]; done.
Qed.

Lemma unique_step_fold (l : list gostring) (m : gmap gostring bool)
    (u seen : list gostring) :
  (∀ k, map_get m k = true ↔ k ∈ seen) →
  snd (fold_left unique_step l (m, u)) = u ++ first_occurrences seen l.
Proof.
  revert m u seen. induction l as [|k l IH]; intros m u seen Hm; simpl.
  - by rewrite app_nil_r.
  - destruct (bool_decide (k ∈ seen)) eqn:Hk.
    + apply bool_decide_eq_true in Hk. apply Hm in Hk. rewrite Hk. simpl.
      by apply IH.
    + apply bool_decide_eq_false in Hk.
      assert (map_get m k = false) as ->.
      { destruct (map_get m k) eqn:E; [|done]. apply Hm in E. done. }
      simpl. destruct (gostring_eqb k []); simpl.
      * by apply IH.
      * rewrite (IH _ _ (k :: seen)).
        -- by rewrite <- app_assoc.
        -- intros k'. rewrite map_get_insert, Hm. set_solver.
Qed.

Lemma first_occurrences_elem (seen l : list gostring) (k : gostring) :
  k ∈ first_occurrences seen l ↔ k ∈ l ∧ (k ∉ seen) ∧ k ≠ [].
Proof.
  revert seen. induction l as [|x l IH]; intros seen; simpl.
  - set_solver.
  - destruct (bool_decide (x ∈ seen)) eqn:Hx; simpl.
    + apply bool_decide_eq_true in Hx. rewrite IH. set_solver.
    + apply bool_decide_eq_false in Hx.
      destruct (gostring_eqb x []) eqn:Hn.
      * apply gostring_eqb_eq in Hn. rewrite IH. set_solver.
      * apply gostring_eqb_nil in Hn. rewrite elem_of_cons, IH.
        destruct (decide (k = x)); set_solver.
Qed.

Lemma first_occurrences_NoDup (seen l : list gostring) :
  NoDup (first_occurrences seen l).
Proof.
  revert seen. induction l as [|x l IH]; intros seen; simpl.
  - constructor.
  - destruct (bool_decide (x ∈ seen) || gostring_eqb x []); [apply IH|].
    constructor; [|apply IH]. rewrite first_occurrences_elem. set_solver.
Qed.

Lemma first_occurrences_sublist (seen l : list gostring) :
  sublist (first_occurrences seen l) l.
Proof.
  revert seen. induction l as [|x l IH]; intros seen; simpl.
  - constructor.
  - destruct (bool_decide (x ∈ seen) || gostring_eqb x []).
    + by apply sublist_cons.
    + by apply sublist_skip.
Qed.

Section Keywords.
Variable caseLower : Z -> Z.

(** The candidate keywords, before de-duplication: the words of the
    function name, then the lower-cased comment tokens longer than one
    byte. *)
Definition keyword_candidates (funcName : gostring) (comments : list gostring)
    : list gostring :=
  splitCamelCase caseLower funcName
  ++ map (strings.ToLower caseLower)
       (List.filter (fun word => (1 <? length word)%nat)
          (strings.Fields (strings.Join comments (bytes " ")))).

Lemma comment_words_fold (words keywords : list gostring) :
  fold_left (fun keywords word =>
      if (1 <? length word)%nat
      then keywords ++ [strings.ToLower caseLower word]
      else keywords) words keywords
  = keywords ++ map (strings.ToLower caseLower)
                  (List.filter (fun word => (1 <? length word)%nat) words).
Proof.
  revert keywords. induction words as [|w ws IH]; intros keywords; simpl.
  - by rewrite app_nil_r.
  - rewrite IH. destruct (1 <? length w)%nat; simpl; [|done].
    by rewrite <- app_assoc.
Qed.

Lemma extractKeywords_first_occurrences (funcName : gostring)
    (comments : list gostring) :
  extractKeywords caseLower funcName comments
  = first_occurrences [] (keyword_candidates funcName comments).
Proof.
  unfold extractKeywords, keyword_candidates.
  rewrite comment_words_fold. simpl.
  rewrite (unique_step_fold _ _ _ []); [done|].
  intros k. unfold map_get. rewrite lookup_empty. simpl. set_solver.
Qed.
End Keywords.

(** ** ParseFile: the line loop *)

Section LineLoop.
Variable caseLower : Z -> Z.
Variable filepath_Rel : gostring -> gostring -> gostring.
Variable filepath_Base : gostring -> gostring.

(** The tests of the loop body, in the order it makes them. *)
Definition is_annotation_line (line : gostring) : bool :=
  let trimmed := strings.TrimSpace line in
  strings.HasPrefix trimmed (bytes "[") && strings.HasSuffix trimmed (bytes "]").

Definition is_comment_line (line : gostring) : bool :=
  strings.HasPrefix (strings.TrimSpace line) (bytes "//").

Definition matches_declaration (p : UnityParser) (line : gostring) : bool :=
  bool_decide (is_Some (regexp.FindStringSubmatch (functionRegex p) line)).

(** The lines the loop reaches the declaration pattern with, and the
    pattern matches. *)
Definition emits_record (p : UnityParser) (line : gostring) : bool :=
  negb (is_annotation_line line) && negb (is_comment_line line)
  && matches_declaration p line.

Lemma HasPrefix_slashes (s : gostring) :
  strings.HasPrefix s (bytes "///") = true -> strings.HasPrefix s (bytes "//") = true.
Proof.
  rewrite !HasPrefix_spec. intros [t ->]. by exists ("/"%char :: t).
Qed.

Lemma ParseFile_line_functions (p : UnityParser) (ctx : FileContext)
    (st : ParseState) (line : gostring) :
  exists fn,
    functions (ParseFile_line caseLower filepath_Base p ctx st line)
    = functions st ++ (if emits_record p line then [fn] else [])
    ∧ (emits_record p line = true ->
        exists match_,
          regexp.FindStringSubmatch (functionRegex p) line = Some match_
          ∧ FuncName fn = submatch match_ 3
          ∧ IsUnityEvent fn = map_get (unityEvents p) (submatch match_ 3)
          ∧ IsCoroutine fn = strings.Contains (submatch match_ 2) (bytes "IEnumerator")
          ∧ Comments fn = currentComments st
          ∧ Attributes fn = currentAttributes st
          ∧ Keywords fn = extractKeywords caseLower (FuncName fn) (currentComments st)).
Proof.
  unfold ParseFile_line, emits_record, is_annotation_line, is_comment_line,
    matches_declaration.
  set (trimmed := strings.TrimSpace line).
  set (dummy := mkFunctionInfo [] [] [] [] [] [] [] [] false false [] []).
  destruct (strings.HasPrefix trimmed (bytes "[") && strings.HasSuffix trimmed (bytes "]")) eqn:Ha.
  { exists dummy. cbn [negb andb]. split; [|done].
    destruct (regexp.FindStringSubmatch (attributeRegex p) trimmed); cbn [functions];
      by rewrite app_nil_r. }
  destruct (strings.HasPrefix trimmed (bytes "///")) eqn:H3.
  { apply HasPrefix_slashes in H3. rewrite H3. exists dummy. cbn [negb andb].
    split; [|done].
    match goal with |- context [if ?b then _ else _] => destruct b end; cbn [functions];
      by rewrite app_nil_r. }
  destruct (strings.HasPrefix trimmed (bytes "//")) eqn:H2.
  { exists dummy. cbn [negb andb]. split; [|done].
    match goal with |- context [if ?b then _ else _] => destruct b end; cbn [functions];
      by rewrite app_nil_r. }
  cbn [negb andb].
  destruct (regexp.FindStringSubmatch (functionRegex p) line) as [match_|] eqn:Hm.
  - eexists. rewrite bool_decide_eq_true_2 by eauto. cbn [functions].
    split; [reflexivity|].
    intros _. exists match_. cbn. done.
  - exists dummy. rewrite bool_decide_eq_false_2 by (by intros [? ?]).
    split; [|done].
    repeat match goal with |- context [if ?b then _ else _] => destruct b end;
      cbn [functions]; by rewrite app_nil_r.
Qed.

Lemma ParseFile_lines_count_from (p : UnityParser) (ctx : FileContext)
    (lines : list gostring) (st : ParseState) :
  length (functions (fold_left (ParseFile_line caseLower filepath_Base p ctx) lines st))
  = (length (functions st) + length (List.filter (emits_record p) lines))%nat.
Proof.
  revert st. induction lines as [|line lines IH]; intros st; simpl.
  - lia.
  - rewrite IH.
    destruct (ParseFile_line_functions p ctx st line) as [fn [-> _]].
    rewrite length_app. destruct (emits_record p line); simpl; lia.
Qed.

(** The records the loop emits correspond, one to one and in order, to
    the lines it takes for a declaration; each record has the name and
    the two flags computed from the submatches of its own line. *)
Lemma ParseFile_lines_classified_from (p : UnityParser) (ctx : FileContext)
    (lines : list gostring) :
  ∀ st : ParseState,
  ∃ new,
    functions (fold_left (ParseFile_line caseLower filepath_Base p ctx) lines st)
    = functions st ++ new
    ∧ Forall2 (λ r line,
        ∃ match_,
          regexp.FindStringSubmatch (functionRegex p) line = Some match_
          ∧ FuncName r = submatch match_ 3
          ∧ IsUnityEvent r = map_get (unityEvents p) (submatch match_ 3)
          ∧ IsCoroutine r = strings.Contains (submatch match_ 2) (bytes "IEnumerator"))
        new (List.filter (emits_record p) lines).
Proof.
  induction lines as [|line lines IH]; intros st; cbn [fold_left List.filter].
  - exists []. by rewrite app_nil_r.
  - destruct (IH (ParseFile_line caseLower filepath_Base p ctx st line))
      as (new & Hnew & Hall).
    destruct (ParseFile_line_functions p ctx st line) as [fn [Hf Hfn]].
    rewrite Hnew, Hf. destruct (emits_record p line).
    + exists (fn :: new). split; [by rewrite <- app_assoc|].
      constructor; [|done].
      destruct Hfn as (m & Hm & Hn & He & Hc & _); [done|]. by exists m.
    + exists new. by rewrite app_nil_r.
Qed.
End LineLoop.

Lemma list_to_map_true (l : list gostring) (k : gostring) :
  map_get (list_to_map (map (fun name => (name, true)) l)) k = true ↔ k ∈ l.
Proof.
  unfold map_get. induction l as [|n l IH].
  - simpl. rewrite lookup_empty. simpl. set_solver.
  - cbn [map list_to_map foldr curry fst snd]. destruct (decide (k = n)) as [->|Hne].
    + rewrite lookup_insert_eq. simpl. set_solver.
    + rewrite lookup_insert_ne by done. rewrite IH. set_solver.
Qed.

Lemma unityEvents_spec (k : gostring) :
  map_get (unityEvents NewUnityParser) k = true ↔ k ∈ unityEventNames.
Proof. apply list_to_map_true. Qed.

(** ** A small world to evaluate the program on *)

(** A lower-case table without entries: every rune above [MaxASCII] is its
    own lower case. *)
Definition demo_caseLower (r : Z) : Z := r.

(** The path functions on clean relative Unix paths. *)
Definition demo_Join (dir name : gostring) : gostring := dir ++ bytes "/" ++ name.
Definition demo_Rel (basepath targpath : gostring) : gostring :=
  strings.TrimPrefix targpath (basepath ++ bytes "/").
Definition demo_Base (path : gostring) : gostring :=
  List.last (strings.Split path "/"%char) [].

Definition demo_ENOENT : oserror :=
  mkOsError true (bytes "no such file or directory").
Definition demo_EACCES : oserror :=
  mkOsError false (bytes "permission denied").

Fixpoint demo_lookup {A : Type} (l : list (string * A)) (path : gostring) : option A :=
  match l with
  | [] => None
  | (name, a) :: l' =>
    if gostring_eqb (bytes name) path then Some a else demo_lookup l' path
  end.

(** A world with the given files ([None] for a file that cannot be read),
    where [Walk] finds [tree] below every path and every path but those of
    [missing] exists. *)
Definition demo_world (files : list (string * option string)) (tree : fsnode)
    (missing : list string) : World :=
  {| os_Stat := fun path =>
       if bool_decide (path ∈ map bytes missing) then Some (OsError demo_ENOENT) else None;
     os_ReadFile := fun path =>
       match demo_lookup files path with
       | Some (Some content) => (bytes content, None)
       | Some None => ([], Some (OsError demo_EACCES))
       | None => ([], Some (OsError demo_ENOENT))
       end;
     os_Tree := fun _ => tree;
     os_WriteFile := fun _ _ => None |}.

Definition demo_ParseFile (w : World) (filePath rootPath : gostring)
    : list FunctionInfo * option error :=
  ParseFile demo_caseLower demo_Rel demo_Base w NewUnityParser filePath rootPath.

(** ** ParseFile *)

Section ParseFileFacts.
Variable caseLower : Z -> Z.
Variable filepath_Rel : gostring -> gostring -> gostring.
Variable filepath_Base : gostring -> gostring.

Local Abbreviation ParseFile := (ParseFile caseLower filepath_Rel filepath_Base).

(** The lines of a file, as [ParseFile] splits its content. *)
Definition file_lines (w : World) (filePath : gostring) : list gostring :=
  strings.Split (os_ReadFile w filePath).1 regexp.newline.

Lemma ParseFile_read_error (w : World) (p : UnityParser) (filePath rootPath : gostring) :
  (ParseFile w p filePath rootPath).2 = (os_ReadFile w filePath).2
  ∧ ((os_ReadFile w filePath).2 ≠ None → (ParseFile w p filePath rootPath).1 = []).
Proof.
  unfold ParseFile.
  destruct (os_ReadFile w filePath) as [content [e|]]; simpl; done.
Qed.

(** C3 (amended): the number of records [ParseFile] returns for a file it
    can read is the number of lines that match the declaration pattern
    and are neither annotation lines (trimmed text from an opening to a
    closing bracket) nor comment lines, which the loop consumes before it
    tries the pattern; for a file it cannot read there is no record. *)
Theorem ParseFile_record_count (w : World) (p : UnityParser)
    (filePath rootPath : gostring) :
  length (ParseFile w p filePath rootPath).1
  = match (os_ReadFile w filePath).2 with
    | None => length (List.filter (emits_record p) (file_lines w filePath))
    | Some _ => 0%nat
    end.
Proof.
  unfold ParseFile, file_lines.
  destruct (os_ReadFile w filePath) as [content [e|]]; [done|].
  cbn [fst snd]. unfold ParseFile_lines. by rewrite ParseFile_lines_count_from.
Qed.

(** C4: the records [ParseFile] returns for a file correspond, one to
    one and in order, to the lines of the file that the loop takes for a
    declaration; for each record, with the submatches of the declaration
    pattern on its own line, the name is the third submatch,
    [IsUnityEvent] is true exactly when that name is one of the names of
    [unityEvents], and [IsCoroutine] is true exactly when the second
    submatch, the return type, contains [IEnumerator]. "Update" is one of
    the names and "Attack" is not. *)
Theorem ParseFile_classification (w : World) (filePath rootPath : gostring) :
  Forall2 (λ r line,
      ∃ match_,
        regexp.FindStringSubmatch function_re line = Some match_
        ∧ FuncName r = submatch match_ 3
        ∧ (IsUnityEvent r = true ↔ submatch match_ 3 ∈ unityEventNames)
        ∧ (IsCoroutine r = true ↔
           ∃ a b, submatch match_ 2 = a ++ bytes "IEnumerator" ++ b))
    (ParseFile w NewUnityParser filePath rootPath).1
    (match (os_ReadFile w filePath).2 with
     | None => List.filter (emits_record NewUnityParser) (file_lines w filePath)
     | Some _ => []
     end)
  ∧ bytes "Update" ∈ unityEventNames
  ∧ bytes "Attack" ∉ unityEventNames.
Proof.
  split; [|split; [|]].
  - unfold ParseFile, file_lines.
    destruct (os_ReadFile w filePath) as [content [e|]]; cbn [fst snd].
    { constructor. }
    unfold ParseFile_lines.
    match goal with
    | |- context [fold_left (ParseFile_line _ _ ?p ?ctx) ?lines ?st] =>
      destruct (ParseFile_lines_classified_from caseLower filepath_Base p ctx lines st)
        as (new & -> & Hall)
    end.
    cbn [functions app]. eapply Forall2_impl; [exact Hall|].
    intros r line (m & Hm & Hn & He & Hc). exists m.
    split; [exact Hm|]. split; [exact Hn|]. split.
    + rewrite He. apply unityEvents_spec.
    + rewrite Hc. apply Contains_spec.
  - apply list_elem_of_In. vm_compute. tauto.
  - rewrite list_elem_of_In. vm_compute. intros H.
    repeat (destruct H as [H|H]; [discriminate H|]). done.
Qed.
End ParseFileFacts.

(** A line that is both: an attribute, a declaration and a trailing comment
    that ends with a bracket. *)
Definition demo_annotated_declaration : World :=
  demo_world
    [("p/Assets/a.cs", Some "[Obsolete] public void Old() { } // see [Doc]")]
    NotDir [].

(** C3 (as stated) fails: the one line of this file matches the declaration
    pattern, and [ParseFile] returns no record, because the loop takes a line
    from [[] to []] for an annotation line before it tries the pattern. *)
Lemma ParseFile_record_count_counterexample :
  length (demo_ParseFile demo_annotated_declaration (bytes "p/Assets/a.cs") (bytes "p")).1
  ≠ length (List.filter (matches_declaration NewUnityParser)
              (file_lines demo_annotated_declaration (bytes "p/Assets/a.cs"))).
Proof. vm_compute. discriminate. Qed.

Definition demo_update_attack : World :=
  demo_world
    [("p/Assets/b.cs", Some "  void Update() { }
  IEnumerator Attack() { }")]
    NotDir [].

Lemma ParseFile_classification_witness :
  Forall2 (λ r line,
      ∃ match_,
        regexp.FindStringSubmatch function_re line = Some match_
        ∧ FuncName r = submatch match_ 3
        ∧ (IsUnityEvent r = true ↔ submatch match_ 3 ∈ unityEventNames)
        ∧ (IsCoroutine r = true ↔
           ∃ a b, submatch match_ 2 = a ++ bytes "IEnumerator" ++ b))
    (demo_ParseFile demo_update_attack (bytes "p/Assets/b.cs") (bytes "p")).1
    (match (os_ReadFile demo_update_attack (bytes "p/Assets/b.cs")).2 with
     | None => List.filter (emits_record NewUnityParser)
                 (file_lines demo_update_attack (bytes "p/Assets/b.cs"))
     | Some _ => []
     end)
  ∧ bytes "Update" ∈ unityEventNames
  ∧ bytes "Attack" ∉ unityEventNames.
Proof.
  apply (ParseFile_classification demo_caseLower demo_Rel demo_Base
           demo_update_attack (bytes "p/Assets/b.cs") (bytes "p")).
Defined.

(** The two records of that file, with their flags. *)
Example ParseFile_classification_demo :
  map (λ r, (FuncName r, IsUnityEvent r, IsCoroutine r))
    (demo_ParseFile demo_update_attack (bytes "p/Assets/b.cs") (bytes "p")).1
  = [(bytes "Update", true, false); (bytes "Attack", false, true)].
Proof. vm_compute. reflexivity. Qed.

(** ** ScanUnityProject *)

(** Induction on a directory tree, with the hypothesis for every entry of a
    directory. *)
Lemma fsnode_tree_ind (P : fsnode → Prop) :
  (∀ e, P (LstatFails e)) →
  P NotDir →
  (∀ e, P (DirUnreadable e)) →
  (∀ entries, Forall (λ ne, P ne.2) entries → P (Dir entries)) →
  ∀ node, P node.
Proof.
  intros HL HN HU HD. fix IH 1. intros [e| |e|entries]; [apply HL|apply HN|apply HU|].
  apply HD. induction entries as [|[name child] entries IHe]; constructor.
  - apply IH.
  - apply IHe.
Qed.

(** The first error a traversal meets, in the order of [walk]: an entry
    [Lstat] fails on, or a directory that cannot be read. *)
Definition first_error (f : fsnode → option oserror)
    : list (gostring * fsnode) → option oserror :=
  fix loop (es : list (gostring * fsnode)) : option oserror :=
    match es with
    | [] => None
    | (_, child) :: es' =>
      match f child with
      | Some e => Some e
      | None => loop es'
      end
    end.

Fixpoint traversal_error (node : fsnode) : option oserror :=
  match node with
  | LstatFails e => Some e
  | NotDir => None
  | DirUnreadable e => Some e
  | Dir entries => first_error traversal_error entries
  end.

Section Scan.
Variable caseLower : Z → Z.
Variable filepath_Join : gostring → gostring → gostring.
Variable filepath_Rel : gostring → gostring → gostring.
Variable filepath_Base : gostring → gostring.

Local Abbreviation ParseFile := (ParseFile caseLower filepath_Rel filepath_Base).
Local Abbreviation walkFn :=
  (ScanUnityProject_walkFn caseLower filepath_Rel filepath_Base).
Local Abbreviation ScanUnityProject :=
  (ScanUnityProject caseLower filepath_Join filepath_Rel filepath_Base).

(** The paths of the entries below [path] that are not directories, in the
    order [walk] visits them. *)
Fixpoint tree_files (path : gostring) (node : fsnode) : list gostring :=
  match node with
  | NotDir => [path]
  | Dir entries =>
    flat_map (λ ne, tree_files (filepath_Join path ne.1) ne.2) entries
  | _ => []
  end.

Definition is_source_file (path : gostring) : bool :=
  strings.HasSuffix path (bytes ".cs").

(** What one source file adds to the scan: its records, and a warning if it
    could not be parsed. *)
Definition file_records (w : World) (p : UnityParser) (projectPath path : gostring)
    : list FunctionInfo :=
  (ParseFile w p path projectPath).1.

Definition file_warning (w : World) (path : gostring) : list event :=
  match (os_ReadFile w path).2 with
  | Some e => [Print (parse_warning path e)]
  | None => []
  end.

Lemma walkFn_file (w : World) (p : UnityParser) (projectPath path : gostring)
    (st : ScanState) :
  walkFn w p projectPath path (Some (mkFileInfo false)) None st
  = ((st.1 ++ flat_map (file_records w p projectPath)
                (List.filter is_source_file [path]),
      st.2 ++ flat_map (file_warning w)
                (List.filter is_source_file [path])), None).
Proof.
  destruct st as [fns out]. unfold ScanUnityProject_walkFn, file_records, file_warning.
  cbn [IsDir negb andb List.filter fst snd]. fold (is_source_file path).
  destruct (is_source_file path); cbn [flat_map].
  - pose proof (ParseFile_read_error caseLower filepath_Rel filepath_Base
                  w p path projectPath) as [H1 H2].
    destruct (ParseFile w p path projectPath) as [functions [e|]] eqn:E;
      cbn [fst snd] in *; rewrite <- H1, ?app_nil_r; [|done].
    rewrite H2 by (by rewrite <- H1). by rewrite app_nil_r.
  - by rewrite !app_nil_r.
Qed.

Lemma walk_scan (w : World) (p : UnityParser) (projectPath : gostring)
    (node : fsnode) :
  ∀ (path : gostring) (st : ScanState),
    match traversal_error node with
    | None =>
      walk filepath_Join (walkFn w p projectPath) path node st
      = ((st.1 ++ flat_map (file_records w p projectPath)
                    (List.filter is_source_file (tree_files path node)),
          st.2 ++ flat_map (file_warning w)
                    (List.filter is_source_file (tree_files path node))), None)
    | Some e =>
      (walk filepath_Join (walkFn w p projectPath) path node st).2 = Some (OsError e)
    end.
Proof.
  induction node as [e| |e|entries IH] using fsnode_tree_ind; intros path st.
  - destruct st. reflexivity.
  - cbn [traversal_error walk tree_files]. apply walkFn_file.
  - destruct st. reflexivity.
  - cbn [traversal_error walk tree_files].
    replace (walkFn w p projectPath path (Some (mkFileInfo true)) None st)
      with (st, @None error) by (by destruct st).
    revert st. induction entries as [|[name child] entries IHe]; intros st.
    + cbn. destruct st. by rewrite !app_nil_r.
    + apply Forall_cons in IH as [IHc IHr]. specialize (IHe IHr).
      cbn [first_error walk_entries flat_map fst snd]. cbn [snd] in IHc.
      specialize (IHc (filepath_Join path name) st).
      destruct (traversal_error child) as [e|].
      * destruct (walk filepath_Join (walkFn w p projectPath)
                    (filepath_Join path name) child st) as [st' err].
        cbn [snd] in IHc. by subst err.
      * rewrite IHc. specialize (IHe
          (st.1 ++ flat_map (file_records w p projectPath)
                     (List.filter is_source_file (tree_files (filepath_Join path name) child)),
           st.2 ++ flat_map (file_warning w)
                     (List.filter is_source_file (tree_files (filepath_Join path name) child)))).
        destruct (first_error traversal_error entries) as [e|]; [done|].
        rewrite IHe. cbn [fst snd].
        by rewrite !List.filter_app, !List.flat_map_app, !app_assoc.
Qed.


(** C7 (amended): [ScanUnityProject] returns the error
    [NotAProjectRoot] exactly when [os.Stat] on the [Assets] entry below
    the project path fails with an error that [os.IsNotExist] accepts,
    and it then returns no record and prints nothing. That there is no
    [Assets] directory is not enough: when [os.Stat] succeeds or fails
    otherwise, the scan walks the entry; if the entry is not a directory
    (and its path does not end in [.cs]) the scan succeeds with no
    record, and if [Lstat] fails on it the scan returns that error. *)
Theorem ScanUnityProject_not_a_project_root (w : World) (p : UnityParser)
    (projectPath : gostring) :
  ((ScanUnityProject w p projectPath).1.2 = Some NotAProjectRoot
   ↔ os_IsNotExist (os_Stat w (filepath_Join projectPath (bytes "Assets"))) = true)
  ∧ ((ScanUnityProject w p projectPath).1.2 = Some NotAProjectRoot
     → (ScanUnityProject w p projectPath).1.1 = []
       ∧ (ScanUnityProject w p projectPath).2 = [])
  ∧ (os_IsNotExist (os_Stat w (filepath_Join projectPath (bytes "Assets"))) = false
     → match os_Tree w (filepath_Join projectPath (bytes "Assets")) with
       | NotDir =>
         is_source_file (filepath_Join projectPath (bytes "Assets")) = false
         → ScanUnityProject w p projectPath = (([], None), [])
       | LstatFails e =>
         ScanUnityProject w p projectPath = (([], Some (OsError e)), [])
       | DirUnreadable e =>
         ScanUnityProject w p projectPath = (([], Some (OsError e)), [])
       | Dir _ => (ScanUnityProject w p projectPath).1.2 ≠ Some NotAProjectRoot
       end).
Proof.
  unfold ScanUnityProject, filepath_Walk.
  set (assetsPath := filepath_Join projectPath (bytes "Assets")).
  destruct (os_IsNotExist (os_Stat w assetsPath)) eqn:Hstat; [done|].
  pose proof (walk_scan w p projectPath (os_Tree w assetsPath) assetsPath ([], [])) as H.
  split; [|split].
  - destruct (walk filepath_Join (walkFn w p projectPath) assetsPath
                (os_Tree w assetsPath) ([], [])) as [[fns out] err].
    cbn [fst snd]. destruct (traversal_error (os_Tree w assetsPath)).
    + cbn [snd] in H. subst err. split; discriminate.
    + injection H as _ _ ->. split; discriminate.
  - destruct (walk filepath_Join (walkFn w p projectPath) assetsPath
                (os_Tree w assetsPath) ([], [])) as [[fns out] err].
    cbn [fst snd]. destruct (traversal_error (os_Tree w assetsPath)).
    + cbn [snd] in H. subst err. discriminate.
    + injection H as _ _ ->. discriminate.
  - intros _. destruct (os_Tree w assetsPath) as [e| |e|entries].
    + reflexivity.
    + intros Hsrc. cbn [walk]. unfold ScanUnityProject_walkFn.
      cbn [IsDir negb andb]. unfold is_source_file in Hsrc. by rewrite Hsrc.
    + reflexivity.
    + destruct (walk filepath_Join (walkFn w p projectPath) assetsPath
                  (Dir entries) ([], [])) as [[fns out] err].
      cbn [fst snd]. destruct (traversal_error (Dir entries)).
      * cbn [snd] in H. subst err. discriminate.
      * injection H as _ _ ->. discriminate.
Qed.


End Scan.


Definition demo_Scan (w : World) (projectPath : gostring)
    : (list FunctionInfo * option error) * list event :=
  ScanUnityProject demo_caseLower demo_Join demo_Rel demo_Base w NewUnityParser projectPath.


(** Scenario D: a project path without [Assets]. *)
Example ScanUnityProject_no_assets :
  demo_Scan (demo_world [] (LstatFails demo_ENOENT) ["q/Assets"%string]) (bytes "q")
  = (([], Some NotAProjectRoot), []).
Proof. vm_compute. reflexivity. Qed.

(** Whether the entry at the root of a tree is a directory. *)
Definition is_directory (node : fsnode) : bool :=
  match node with
  | Dir _ | DirUnreadable _ => true
  | LstatFails _ | NotDir => false
  end.

Definition demo_ENOTDIR : oserror :=
  mkOsError false (bytes "not a directory").

(** A project path below which [Assets] is a regular file; and a project
    path that is itself a regular file, so that [os.Stat] and [Lstat] of
    [Assets] below it fail with "not a directory". *)
Definition demo_assets_is_file : World := demo_world [] NotDir [].

Definition demo_root_is_file : World :=
  {| os_Stat := λ _, Some (OsError demo_ENOTDIR);
     os_ReadFile := λ _, ([], Some (OsError demo_ENOTDIR));
     os_Tree := λ _, LstatFails demo_ENOTDIR;
     os_WriteFile := λ _ _, None |}.

(** C7 (as stated) fails: in both worlds there is no [Assets] directory
    below the project path, and the scan does not fail with
    [NotAProjectRoot]: in the first it succeeds, with no record, and in
    the second it returns the error of the operating system. *)
Lemma ScanUnityProject_not_a_project_root_counterexample :
  (is_directory (os_Tree demo_assets_is_file (demo_Join (bytes "q") (bytes "Assets")))
   = false
   ∧ demo_Scan demo_assets_is_file (bytes "q") = (([], None), []))
  ∧ (is_directory (os_Tree demo_root_is_file (demo_Join (bytes "q") (bytes "Assets")))
     = false
     ∧ demo_Scan demo_root_is_file (bytes "q") = (([], Some (OsError demo_ENOTDIR)), [])
     ∧ Some (OsError demo_ENOTDIR) ≠ Some NotAProjectRoot).
Proof. vm_compute. repeat split; try reflexivity. discriminate. Qed.

(** A directory that cannot be read aborts the scan; the records found
    before it are still returned. *)
Example ScanUnityProject_unreadable_directory :
  let w := demo_world [("p/Assets/a.cs", Some "  public void Start() { }")]
             (Dir [(bytes "a.cs", NotDir); (bytes "sub", DirUnreadable demo_EACCES);
                   (bytes "z.cs", NotDir)]) [] in
  map FuncName (demo_Scan w (bytes "p")).1.1 = [bytes "Start"]
  ∧ (demo_Scan w (bytes "p")).1.2 = Some (OsError demo_EACCES).
Proof. vm_compute. split; reflexivity. Qed.

(** ** UTF-8 decoding and white space *)

Lemma byte_val_range (c : ascii) : 0 ≤ byte_val c < 256.
Proof.
  unfold byte_val. pose proof (N_ascii_bounded c) as H. lia.
Qed.

(** Convert the boolean tests of a hypothesis or of the goal to
    propositions. *)
Ltac zbool :=
  repeat match goal with
  | H : (_ || _) = false |- _ => apply orb_false_iff in H as [? ?]
  | H : (_ || _) = true |- _ => apply orb_true_iff in H
  | H : (_ && _) = true |- _ => apply andb_true_iff in H as [? ?]
  | H : (_ && _) = false |- _ => apply andb_false_iff in H
  | H : negb _ = true |- _ => apply negb_true_iff in H
  | H : negb _ = false |- _ => apply negb_false_iff in H
  | H : (_ <? _) = true |- _ => apply Z.ltb_lt in H
  | H : (_ <? _) = false |- _ => apply Z.ltb_ge in H
  | H : (_ <=? _) = true |- _ => apply Z.leb_le in H
  | H : (_ <=? _) = false |- _ => apply Z.leb_gt in H
  | H : (_ =? _) = true |- _ => apply Z.eqb_eq in H
  | H : (_ =? _) = false |- _ => apply Z.eqb_neq in H
  end.

(** The bytes white space is made of: an ASCII space character, or a byte
    of a multi-byte encoding. *)
Definition ascii_space (c : ascii) : bool :=
  let b := byte_val c in
  (b =? 9) || (b =? 10) || (b =? 11) || (b =? 12) || (b =? 13) || (b =? 32).

Definition space_byte (c : ascii) : Prop :=
  ascii_space c = true ∨ 0x80 ≤ byte_val c.

Lemma first_multibyte (b : Z) :
  0 ≤ b < 256 → (utf8.as_ <=? utf8.first b) = false →
  0xC2 ≤ b ∧ 2 ≤ Z.land (utf8.first b) 7 ≤ 4
  ∧ 0x80 ≤ (utf8.acceptRanges (Z.shiftr (utf8.first b) 4)).1.
Proof.
  intros Hb. unfold utf8.first.
  repeat case_match; zbool; intros Hfirst; vm_compute in Hfirst; try discriminate Hfirst;
    clear Hfirst;
    (split; [lia|]); vm_compute; repeat split; discriminate.
Qed.

Lemma first_ascii (b : Z) :
  0 ≤ b < 256 → (utf8.as_ <=? utf8.first b) = true →
  Z.odd (utf8.first b) = false → b < 0x80.
Proof.
  intros Hb. unfold utf8.first.
  repeat case_match; zbool; intros Hx Hy; vm_compute in Hx, Hy;
    try discriminate; lia.
Qed.

(** The results of [DecodeRuneInString]: nothing to decode, one byte (an
    ASCII byte decoded as itself, or an invalid byte), or a multi-byte
    encoding, all of whose bytes are above the ASCII range. *)
Lemma DecodeRuneInString_cases (s : gostring) (r : Z) (w : nat) :
  utf8.DecodeRuneInString s = (r, w) →
  (s = [] ∧ w = 0%nat)
  ∨ (w = 1%nat ∧ ∃ c t, s = c :: t
       ∧ ((byte_val c < 0x80 ∧ r = byte_val c) ∨ r = utf8.RuneError))
  ∨ ((2 ≤ w ≤ 4)%nat ∧ (w ≤ length s)%nat
     ∧ Forall (λ c, 0x80 ≤ byte_val c) (take w s)).
Proof.
  destruct s as [|c0 s]; [intros [= <- <-]; by left|].
  intros Hdec. right. revert Hdec. unfold utf8.DecodeRuneInString.
  pose proof (byte_val_range c0) as Hc0.
  destruct (utf8.as_ <=? utf8.first (byte_val c0)) eqn:Has.
  { intros [= <- <-]. left. split; [done|]. exists c0, s. split; [done|].
    destruct (Z.odd (utf8.first (byte_val c0))) eqn:Hodd; [by right|left].
    split; [|done]. by apply first_ascii. }
  destruct (first_multibyte _ Hc0 Has) as (H0 & Hsz & Hacc).
  set (sz := Z.land (utf8.first (byte_val c0)) 7) in *.
  set (accept := utf8.acceptRanges (Z.shiftr (utf8.first (byte_val c0)) 4)) in *.
  assert (∀ r w, (utf8.RuneError, 1%nat) = (r, w) →
    w = 1%nat ∧ ∃ c t, c0 :: s = c :: t
       ∧ ((byte_val c < 0x80 ∧ r = byte_val c) ∨ r = utf8.RuneError)) as Herr.
  { intros ? ? [= <- <-]. split; [done|]. exists c0, s. split; [done|by right]. }
  destruct (Z.of_nat (length (c0 :: s)) <? sz) eqn:Hlen; [intros ?; left; by apply Herr|].
  destruct s as [|c1 s]; [intros ?; left; by apply Herr|].
  destruct ((byte_val c1 <? accept.1) || (accept.2 <? byte_val c1)) eqn:Hb1;
    [intros ?; left; by apply Herr|].
  zbool.
  destruct (sz <=? 2) eqn:Hsz2.
  { intros [= <- <-]. right. cbn [length take]. repeat split; try lia.
    repeat constructor; lia. }
  destruct s as [|c2 s]; [intros ?; left; by apply Herr|].
  destruct ((byte_val c2 <? utf8.locb) || (utf8.hicb <? byte_val c2)) eqn:Hb2;
    [intros ?; left; by apply Herr|].
  zbool. unfold utf8.locb in * |-.
  destruct (sz <=? 3) eqn:Hsz3.
  { intros [= <- <-]. right. cbn [length take]. repeat split; try lia.
    repeat constructor; lia. }
  destruct s as [|c3 s]; [intros ?; left; by apply Herr|].
  destruct ((byte_val c3 <? utf8.locb) || (utf8.hicb <? byte_val c3)) eqn:Hb3;
    [intros ?; left; by apply Herr|].
  zbool. unfold utf8.locb in * |-.
  intros [= <- <-]. right. cbn [length take]. repeat split; try lia.
  repeat constructor; lia.
Qed.

Lemma IsSpace_ascii (c : ascii) :
  byte_val c < 0x80 → unicode.IsSpace (byte_val c) = true → ascii_space c = true.
Proof.
  intros Hc. unfold unicode.IsSpace, ascii_space, unicode.MaxLatin1.
  pose proof (byte_val_range c) as Hrange.
  destruct ((0 <=? byte_val c) && (byte_val c <=? 255)) eqn:E.
  - intros Hsp. repeat (apply orb_true_iff in Hsp as [Hsp|Hsp]); zbool;
      rewrite Hsp; try reflexivity; lia.
  - zbool. lia.
Qed.

Lemma DecodeRuneInString_space (s : gostring) (r : Z) (w : nat) :
  utf8.DecodeRuneInString s = (r, w) →
  unicode.IsSpace r = true ∨ (1 < w)%nat →
  Forall space_byte (take w s).
Proof.
  intros [[-> ->] | [(-> & c & t & -> & Hr) | (Hw & Hlen & Hhigh)]]%DecodeRuneInString_cases Hsp.
  - constructor.
  - destruct Hsp as [Hsp|?]; [|lia]. cbn [take]. constructor; [|constructor].
    destruct Hr as [[Hc ->] | ->]; [|discriminate Hsp].
    left. by apply IsSpace_ascii.
  - eapply Forall_impl; [exact Hhigh|]. intros c Hc. by right.
Qed.

Lemma DecodeRuneInString_width (s : gostring) (r : Z) (w : nat) :
  utf8.DecodeRuneInString s = (r, w) → s ≠ [] → (1 ≤ w ≤ length s)%nat.
Proof.
  intros [[-> ->] | [(-> & c & t & -> & Hr) | (Hw & Hlen & Hhigh)]]%DecodeRuneInString_cases Hs.
  - done.
  - cbn [length]. lia.
  - lia.
Qed.

(** [indexFunc] with [unicode.IsSpace]: what precedes the rune found is
    white space. *)
Lemma range_find_nonspace (fuel : nat) (i : nat) (s : gostring) :
  (length s ≤ fuel)%nat →
  match List.find (λ ir, Bool.eqb (unicode.IsSpace ir.2) false) (utf8.range_from fuel i s) with
  | Some (j, _) => ∃ a b, s = a ++ b ∧ j = (i + length a)%nat ∧ Forall space_byte a
  | None => Forall space_byte s
  end.
Proof.
  revert i s. induction fuel as [|n IH]; intros i s Hlen.
  - destruct s; [constructor|cbn [length] in Hlen; lia].
  - destruct s as [|c t]; [constructor|].
    cbn [utf8.range_from].
    destruct (utf8.DecodeRuneInString (c :: t)) as [r w] eqn:Hdec.
    pose proof (DecodeRuneInString_width _ _ _ Hdec ltac:(done)) as Hw.
    cbn [List.find snd]. destruct (unicode.IsSpace r) eqn:Hsp; cbn [Bool.eqb].
    + pose proof (DecodeRuneInString_space _ _ _ Hdec (or_introl Hsp)) as Hpre.
      specialize (IH (i + w)%nat (drop w (c :: t))).
      rewrite length_drop in IH. specialize (IH ltac:(cbn [length] in *; lia)).
      destruct (List.find _ _) as [[j r']|].
      * destruct IH as (a & b & Hab & -> & Ha).
        exists (take w (c :: t) ++ a), b. split; [|split].
        -- rewrite <- app_assoc, <- Hab. by rewrite take_drop.
        -- rewrite length_app, length_take. lia.
        -- by apply Forall_app.
      * rewrite <- (take_drop w (c :: t)). by apply Forall_app.
    + exists [], (c :: t). split; [done|]. split; [cbn; lia|constructor].
Qed.

Lemma TrimLeftFunc_split (s : gostring) :
  ∃ a, s = a ++ strings.TrimLeftFunc s unicode.IsSpace ∧ Forall space_byte a.
Proof.
  unfold strings.TrimLeftFunc, strings.indexFunc, utf8.range.
  pose proof (range_find_nonspace (length s) 0 s ltac:(lia)) as H.
  destruct (List.find _ _) as [[j r]|]; cbn [fmap option_fmap option_map fst].
  - destruct H as (a & b & -> & -> & Ha). exists a. split; [|done].
    by rewrite Nat.add_0_l, drop_app_length.
  - exists s. by rewrite app_nil_r.
Qed.

Lemma scan_back_le (n : nat) (s : gostring) (start lim : Z) :
  utf8.scan_back n s start lim ≤ start.
Proof.
  revert start. induction n as [|n IH]; intros start; cbn [utf8.scan_back]; [lia|].
  repeat case_match; try lia. specialize (IH (start - 1)). lia.
Qed.

Definition high_byte (c : ascii) : Prop := 0x80 ≤ byte_val c.

(** The results of [DecodeLastRuneInString]: nothing to decode, one byte,
    or a multi-byte encoding at the end of the string. *)
Lemma DecodeLastRuneInString_cases (t : gostring) (r : Z) (size : nat) :
  utf8.DecodeLastRuneInString t = (r, size) →
  (t = [] ∧ size = 0%nat)
  ∨ (size = 1%nat ∧ ∃ t' c, t = t' ++ [c]
       ∧ (unicode.IsSpace r = true → ascii_space c = true))
  ∨ ((2 ≤ size ≤ length t)%nat ∧ Forall high_byte (drop (length t - size) t)).
Proof.
  induction t as [|c t' _] using rev_ind.
  { intros [= <- <-]. by left. }
  intros Hdec. right. revert Hdec. unfold utf8.DecodeLastRuneInString.
  rewrite length_app. cbn [length].
  replace (Z.of_nat (length t' + 1) =? 0) with false by (symmetry; apply Z.eqb_neq; lia).
  replace (Z.to_nat (Z.of_nat (length t' + 1) - 1)) with (length t' + 0)%nat by lia.
  rewrite app_nth2_plus. cbn [nth].
  destruct (byte_val c <? utf8.RuneSelf) eqn:Hc.
  { intros [= <- <-]. left. split; [done|]. exists t', c. split; [done|].
    zbool. by apply IsSpace_ascii. }
  zbool. unfold utf8.RuneSelf in Hc.
  set (end_ := Z.of_nat (length t' + 1)).
  set (start := Z.max 0 (utf8.scan_back 4 (t' ++ [c]) (end_ - 1 - 1)
                           (Z.max 0 (end_ - utf8.UTFMax)))).
  assert (0 ≤ start < end_) as Hstart.
  { pose proof (scan_back_le 4 (t' ++ [c]) (end_ - 1 - 1) (Z.max 0 (end_ - utf8.UTFMax))).
    unfold start, end_ in *. lia. }
  destruct (utf8.DecodeRuneInString (drop (Z.to_nat start) (t' ++ [c]))) as [r' size'] eqn:Hdec.
  destruct (negb (start + Z.of_nat size' =? end_)) eqn:Hend.
  { intros [= <- <-]. left. split; [done|]. exists t', c. split; [done|]. discriminate. }
  zbool. intros [= <- <-].
  assert (length (drop (Z.to_nat start) (t' ++ [c])) = size') as Hlen.
  { rewrite length_drop, length_app. cbn [length]. unfold end_ in *. lia. }
  apply DecodeRuneInString_cases in Hdec
    as [[Hnil ->] | [(-> & c' & t'' & Hd & Hr) | (Hw & _ & Hhigh)]].
  - unfold end_ in *. lia.
  - left. split; [done|]. exists t', c. split; [done|]. intros Hsp.
    rewrite Hd in Hlen. destruct t''; [|discriminate Hlen].
    assert (c' = c) as ->.
    { replace (Z.to_nat start) with (length t') in Hd by (unfold end_ in *; lia).
      rewrite drop_app_length in Hd. by injection Hd as ->. }
    destruct Hr as [[? ->] | ->]; [lia|discriminate Hsp].
  - right. split.
    + unfold end_ in *. lia.
    + replace (length t' + 1 - size')%nat with (Z.to_nat start)
        by (unfold end_ in *; lia).
      rewrite <- Hlen in Hhigh. by rewrite take_ge in Hhigh by lia.
Qed.

(** [lastIndexFunc] with [unicode.IsSpace]: what follows the rune found is
    white space. *)
Lemma lastIndexFunc_space (s : gostring) (fuel i : nat) :
  (i ≤ length s)%nat → (i ≤ fuel)%nat → Forall space_byte (drop i s) →
  match strings.lastIndexFunc_from fuel s unicode.IsSpace false i with
  | Some j => (j < length s)%nat ∧ Forall space_byte (drop (S j) s)
  | None => Forall space_byte s
  end.
Proof.
  revert i. induction fuel as [|n IH]; intros i Hi Hfuel Hsp.
  - replace i with 0%nat in Hsp by lia. by rewrite drop_0 in Hsp.
  - cbn [strings.lastIndexFunc_from].
    destruct (i =? 0)%nat eqn:Hi0.
    { apply Nat.eqb_eq in Hi0. subst i. by rewrite drop_0 in Hsp. }
    apply Nat.eqb_neq in Hi0.
    destruct (utf8.DecodeLastRuneInString (take i s)) as [r size] eqn:Hdec.
    assert (length (take i s) = i) as Hlen by (rewrite length_take; lia).
    apply DecodeLastRuneInString_cases in Hdec
      as [[Hnil ->] | [(-> & t' & c & Ht & Hc) | (Hsize & Hhigh)]].
    + rewrite Hnil in Hlen. cbn in Hlen. lia.
    + assert (drop (i - 1) s = c :: drop i s) as Hdrop.
      { rewrite <- (take_drop i s) at 1. rewrite Ht.
        assert (length t' = (i - 1)%nat) as <-.
        { rewrite Ht, length_app in Hlen. cbn [length] in Hlen. lia. }
        rewrite <- app_assoc. by rewrite drop_app_length. }
      destruct (unicode.IsSpace r) eqn:Hr; cbn [Bool.eqb].
      * apply IH; [lia|lia|]. rewrite Hdrop. constructor; [|done]. left. by apply Hc.
      * split; [lia|]. by replace (S (i - 1)) with i by lia.
    + rewrite Hlen in *.
      assert (drop (i - size) s = drop (i - size) (take i s) ++ drop i s) as Hdrop.
      { rewrite <- (take_drop i s) at 1. rewrite drop_app_le by lia. done. }
      assert (Forall space_byte (drop (i - size) s)) as Hsp'.
      { rewrite Hdrop. apply Forall_app. split; [|done].
        eapply Forall_impl; [exact Hhigh|]. intros ? ?. by right. }
      destruct (Bool.eqb (unicode.IsSpace r) false).
      * split; [lia|].
        replace (S (i - size)) with ((i - size) + 1)%nat by lia.
        rewrite <- drop_drop. by apply Forall_drop.
      * apply IH; [lia|lia|done].
Qed.

Lemma TrimRightFunc_split (s : gostring) :
  ∃ b, s = strings.TrimRightFunc s unicode.IsSpace ++ b ∧ Forall space_byte b.
Proof.
  unfold strings.TrimRightFunc, strings.lastIndexFunc.
  pose proof (lastIndexFunc_space s (length s) (length s) ltac:(lia) ltac:(lia)) as H.
  rewrite drop_all in H. specialize (H ltac:(constructor)).
  destruct (strings.lastIndexFunc_from _ _ _ _ _) as [j|].
  - destruct H as [Hj Hsp].
    assert (∀ n, (S j ≤ n)%nat → ∃ b, s = take n s ++ b ∧ Forall space_byte b) as Hn.
    { intros n Hn. exists (drop n s). split; [by rewrite take_drop|].
      replace n with (S j + (n - S j))%nat by lia. rewrite <- drop_drop.
      by apply Forall_drop. }
    destruct (utf8.RuneSelf <=? byte_val (nth j s zero)).
    + destruct (utf8.DecodeRuneInString (drop j s)) as [r wid] eqn:Hdec.
      apply Hn. apply DecodeRuneInString_width in Hdec; [lia|].
      intros Hnil. apply (f_equal length) in Hnil. rewrite length_drop in Hnil.
      cbn in Hnil. lia.
    + apply Hn. lia.
  - exists s. by rewrite take_0.
Qed.

(** [strings.TrimSpace] returns a part of its argument; what it leaves out
    on either side is made of white space bytes. *)
Lemma TrimSpace_split (s : gostring) :
  ∃ a b, s = a ++ strings.TrimSpace s ++ b
         ∧ Forall space_byte a ∧ Forall space_byte b.
Proof.
  unfold strings.TrimSpace, strings.TrimFunc.
  destruct (TrimLeftFunc_split s) as (a & Ha & Hspa).
  destruct (TrimRightFunc_split (strings.TrimLeftFunc s unicode.IsSpace)) as (b & Hb & Hspb).
  exists a, b. split; [|done]. by rewrite <- Hb.
Qed.

(** ** Regular expressions: what a match consumes *)

(** The texts an expression can consume, whatever the position and the
    submatches: the language of the expression ([BeginLine] consumes
    nothing). *)
Fixpoint lang (re : regexp.Regexp) (w : gostring) : Prop :=
  match re with
  | regexp.Empty => w = []
  | regexp.Char c => w = [c]
  | regexp.Class p => ∃ c, w = [c] ∧ p c = true
  | regexp.Cat a b => ∃ u v, w = u ++ v ∧ lang a u ∧ lang b v
  | regexp.Alt a b => lang a w ∨ lang b w
  | regexp.Star a => ∃ ws, w = concat ws ∧ Forall (lang a) ws
  | regexp.Group _ a => lang a w
  | regexp.BeginLine => w = []
  end.

(** Soundness of the matcher: when [run] succeeds, the continuation was
    called after a text of the language was consumed. *)
Lemma run_sound {R : Type} (re : regexp.Regexp) :
  ∀ (bol : bool) (s : gostring) (cs : regexp.captures)
    (k : bool → gostring → regexp.captures → option R) (res : R),
    regexp.run re bol s cs k = Some res →
    ∃ w s' bol' cs', s = w ++ s' ∧ lang re w ∧ k bol' s' cs' = Some res.
Proof.
  induction re as [|c|p|a IHa b IHb|a IHa b IHb|a IHa|i a IHa|];
    intros bol s cs k res; cbn [regexp.run lang].
  - intros H. by exists [], s, bol, cs.
  - destruct s as [|x s]; [done|]. destruct (byte_eqb x c) eqn:E; [|done].
    apply byte_eqb_eq in E as ->. intros H. by exists [c], s, (byte_eqb c regexp.newline), cs.
  - destruct s as [|x s]; [done|]. destruct (p x) eqn:E; [|done].
    intros H. exists [x], s, (byte_eqb x regexp.newline), cs. split; [done|].
    split; [by exists x|done].
  - intros (u & s1 & bol1 & cs1 & -> & Hu & (v & s2 & bol2 & cs2 & -> & Hv & Hk)%IHb)%IHa.
    exists (u ++ v), s2, bol2, cs2. split; [by rewrite app_assoc|].
    split; [by exists u, v|done].
  - destruct (regexp.run a bol s cs k) as [r|] eqn:Ea.
    + intros [= ->]. apply IHa in Ea as (w & s' & bol' & cs' & -> & Hw & Hk).
      exists w, s', bol', cs'. auto.
    + intros (w & s' & bol' & cs' & -> & Hw & Hk)%IHb.
      exists w, s', bol', cs'. auto.
  - generalize (length s) as fuel. intros fuel. revert bol s cs.
    induction fuel as [|n IHn]; intros bol s cs.
    + intros H. exists [], s, bol, cs. split; [done|]. split; [by exists []|done].
    + match goal with
      | |- context [regexp.run a bol s cs ?k'] =>
        destruct (regexp.run a bol s cs k') as [r|] eqn:Ea
      end.
      * intros [= ->]. apply IHa in Ea as (u & s1 & bol1 & cs1 & -> & Hu & Hk).
        destruct (length s1 <? length (u ++ s1))%nat; [|done].
        apply IHn in Hk as (v & s2 & bol2 & cs2 & -> & (ws & -> & Hws) & Hk).
        exists (u ++ concat ws), s2, bol2, cs2. split; [by rewrite app_assoc|].
        split; [|done]. exists (u :: ws). split; [done|by constructor].
      * intros H. exists [], s, bol, cs. split; [done|]. split; [by exists []|done].
  - intros (w & s' & bol' & cs' & -> & Hw & Hk)%IHa.
    eexists w, s', bol', _. eauto.
  - destruct bol; [|done]. intros H. by exists [], s, true, cs.
Qed.

Lemma search_sound (re : regexp.Regexp) (s : gostring) :
  ∀ (bol : bool) (before : gostring) (m : regexp.Match),
    regexp.search re bol before s = Some m →
    ∃ pre w post, s = pre ++ w ++ post ∧ lang re w.
Proof.
  induction s as [|c s IH]; intros bol before m; cbn [regexp.search].
  - destruct (regexp.match_at re bol before []) as [m'|] eqn:E; [|done].
    intros _. apply run_sound in E as (w & s' & _ & _ & Hs & Hw & _).
    exists [], w, s'. done.
  - destruct (regexp.match_at re bol before (c :: s)) as [m'|] eqn:E.
    + intros _. apply run_sound in E as (w & s' & _ & _ & Hs & Hw & _).
      exists [], w, s'. done.
    + intros (pre & w & post & -> & Hw)%IH. exists (c :: pre), w, post. done.
Qed.

Lemma FindStringSubmatch_sound (re : regexp.Regexp) (s : gostring) (m : list gostring) :
  regexp.FindStringSubmatch re s = Some m →
  ∃ pre w post, s = pre ++ w ++ post ∧ lang re w.
Proof.
  unfold regexp.FindStringSubmatch.
  destruct (regexp.search re true [] s) as [m'|] eqn:E; [|done].
  intros _. by apply search_sound in E.
Qed.

(** A line the declaration pattern matches contains an opening
    parenthesis. *)
Lemma function_re_paren (line : gostring) (m : list gostring) :
  regexp.FindStringSubmatch function_re line = Some m → "("%char ∈ line.
Proof.
  intros (pre & w & post & -> & Hw)%FindStringSubmatch_sound.
  unfold function_re, regexp.Seq in Hw. cbn [fold_right lang] in Hw.
  destruct Hw as (u1 & v1 & -> & _ & u2 & v2 & -> & _ & u3 & v3 & -> & _
    & u4 & v4 & -> & _ & u5 & v5 & -> & _ & u6 & v6 & -> & _
    & u7 & v7 & -> & _ & u8 & v8 & -> & _ & u9 & v9 & -> & -> & _).
  set_solver.
Qed.

(** ** ParseFile: comments, annotations and the lines between *)



Lemma space_byte_not_paren : ¬ space_byte "("%char.
Proof. intros [H|H]; vm_compute in H; [discriminate|by apply H]. Qed.

Section Between.
Variable caseLower : Z → Z.
Variable filepath_Base : gostring → gostring.

Local Abbreviation ParseFile_line' := (ParseFile_line caseLower filepath_Base).
Local Abbreviation ParseFile_lines' := (ParseFile_lines caseLower filepath_Base).





End Between.



(** Blank and brace lines between a comment and its declaration. *)
Example ParseFile_lines_blank_between :
  map (λ r, (FuncName r, Comments r))
    (functions (ParseFile_lines demo_caseLower demo_Base NewUnityParser
       (mkFileContext [] [] [] [])
       (map bytes ["// Sets up."; ""; "{"; "   "; " } "; "  void Setup() { }"]%string)))
  = [(bytes "Setup", [bytes "Sets up."])].
Proof. vm_compute. reflexivity. Qed.

(** ** Scenario A: a documented declaration *)

(** The loop of [run] on [Star a]. *)
Definition star_loop {R : Type} (a : regexp.Regexp)
    (k : bool → gostring → regexp.captures → option R)
    : nat → bool → gostring → regexp.captures → option R :=
  fix loop (fuel : nat) (bol : bool) (s : gostring) (cs : regexp.captures) : option R :=
    match fuel with
    | O => k bol s cs
    | S n =>
      match regexp.run a bol s cs (fun bol' s' cs' =>
              if (length s' <? length s)%nat then loop n bol' s' cs' else None) with
      | Some r => Some r
      | None => k bol s cs
      end
    end.

Lemma run_Star {R : Type} (a : regexp.Regexp) (bol : bool) (s : gostring)
    (cs : regexp.captures) (k : bool → gostring → regexp.captures → option R) :
  regexp.run (regexp.Star a) bol s cs k = star_loop a k (length s) bol s cs.
Proof. reflexivity. Qed.

Lemma run_Cat {R : Type} (a b : regexp.Regexp) (bol : bool) (s : gostring)
    (cs : regexp.captures) (k : bool → gostring → regexp.captures → option R) :
  regexp.run (regexp.Cat a b) bol s cs k
  = regexp.run a bol s cs (fun bol' s' cs' => regexp.run b bol' s' cs' k).
Proof. reflexivity. Qed.

Lemma run_BeginLine {R : Type} (s : gostring)
    (cs : regexp.captures) (k : bool → gostring → regexp.captures → option R) :
  regexp.run regexp.BeginLine true s cs k = k true s cs.
Proof. reflexivity. Qed.

Lemma search_match_at (re : regexp.Regexp) (bol : bool) (before s : gostring)
    (m : regexp.Match) :
  regexp.match_at re bol before s = Some m → regexp.search re bol before s = Some m.
Proof. intros H. destruct s; cbn [regexp.search]; by rewrite H. Qed.

(** A greedy class repetition in front of a continuation that fails after
    the whole run and succeeds when the last byte of the run is given
    back. *)
Lemma star_class_give_back {R : Type} (p : ascii → bool)
    (k : bool → gostring → regexp.captures → option R)
    (cs : regexp.captures) (x : ascii) (rest : gostring) (res : R) (ws : gostring) :
  Forall (λ c, p c = true) ws → p x = true →
  match rest with [] => True | y :: _ => p y = false end →
  (∀ bol, k bol rest cs = None) →
  (∀ bol, k bol (x :: rest) cs = Some res) →
  ∀ fuel bol, (length (ws ++ x :: rest) ≤ fuel)%nat →
    star_loop (regexp.Class p) k fuel bol (ws ++ x :: rest) cs = Some res.
Proof.
  intros Hws Hx Hrest Hnone Hsome.
  induction Hws as [|w ws Hw _ IH]; intros fuel bol Hfuel.
  - destruct fuel as [|n]; [cbn in Hfuel; lia|].
    cbn [app star_loop regexp.run]. rewrite Hx.
    replace (length rest <? length (x :: rest))%nat with true
      by (symmetry; apply Nat.ltb_lt; cbn; lia).
    assert (star_loop (regexp.Class p) k n (byte_eqb x regexp.newline) rest cs = None) as ->.
    { destruct n as [|n']; cbn [star_loop regexp.run]; [apply Hnone|].
      destruct rest as [|y rest']; [apply Hnone|]. rewrite Hrest. apply Hnone. }
    apply Hsome.
  - destruct fuel as [|n]; [cbn in Hfuel; lia|].
    cbn [app star_loop regexp.run]. rewrite Hw.
    replace (length (ws ++ x :: rest) <? length (w :: ws ++ x :: rest))%nat with true
      by (symmetry; apply Nat.ltb_lt; cbn; lia).
    rewrite IH; [done|]. cbn in Hfuel. lia.
Qed.

Definition tab : ascii := "009"%char.
Definition is_indent (c : ascii) : Prop := c = " "%char ∨ c = tab.

Definition scenario_decl : gostring := bytes "void MovePlayer() { }".

(** The declaration pattern on the indented declaration: the last byte of
    the indentation is taken by the first group, the type, the name and the
    (empty) parameter list by the others. *)
Lemma function_re_indented (indent : gostring) :
  indent ≠ [] → Forall is_indent indent →
  ∃ m0 m1,
    regexp.FindStringSubmatch function_re (indent ++ scenario_decl)
    = Some [m0; m1; bytes "void"; bytes "MovePlayer"; []].
Proof.
  intros Hne Hind.
  destruct (exists_last Hne) as (ws & x & ->).
  apply Forall_app in Hind as [Hws Hx]. apply Forall_cons in Hx as [Hx _].
  rewrite <- app_assoc. cbn [app].
  unfold regexp.FindStringSubmatch.
  assert (∃ m, regexp.match_at function_re true [] (ws ++ x :: scenario_decl) = Some m
               ∧ map (λ i, regexp.capture i (regexp.m_caps m)) (seq 1 4)
                 = [[x]; bytes "void"; bytes "MovePlayer"; []]) as (m & Hm & Hcaps).
  { unfold regexp.match_at.
    set (k := λ (bol' : bool) (s' : gostring) (cs : regexp.captures),
           Some (regexp.mkMatch [] (take (length (ws ++ x :: scenario_decl) - length s')
                                     (ws ++ x :: scenario_decl)) cs s' bol')).
    exists (regexp.mkMatch []
              (take (length (ws ++ x :: scenario_decl) - length (bytes " { }"))
                 (ws ++ x :: scenario_decl))
              [(4%nat, []); (3%nat, bytes "MovePlayer"); (2%nat, bytes "void"); (1%nat, [x])]
              (bytes " { }") false).
    split; [|reflexivity].
    unfold function_re, regexp.Seq. cbn [fold_right].
    rewrite run_Cat, run_BeginLine. cbv beta. rewrite run_Cat, run_Star.
    apply star_class_give_back with (x := x); [| | | | |lia].
    - eapply Forall_impl; [exact Hws|]. by intros c [-> | ->].
    - by destruct Hx as [-> | ->].
    - reflexivity.
    - intros bol. destruct bol; vm_compute; reflexivity.
    - intros bol. destruct bol, Hx as [-> | ->]; vm_compute; reflexivity. }
  rewrite (search_match_at _ _ _ _ _ Hm).
  eexists _, _. f_equal. f_equal. exact Hcaps.
Qed.

Lemma DecodeRuneInString_ascii (c : ascii) (t : gostring) :
  byte_val c < 0x80 → utf8.DecodeRuneInString (c :: t) = (byte_val c, 1%nat).
Proof.
  intros Hc. unfold utf8.DecodeRuneInString, utf8.first.
  pose proof (byte_val_range c).
  replace (byte_val c <? 128) with true by (symmetry; apply Z.ltb_lt; lia).
  reflexivity.
Qed.

Lemma range_from_shift (n i d : nat) (s : gostring) :
  utf8.range_from n (i + d) s
  = map (λ ir, ((ir.1 + d)%nat, ir.2)) (utf8.range_from n i s).
Proof.
  revert i s. induction n as [|n IH]; intros i s; [done|].
  cbn [utf8.range_from]. destruct s as [|c t]; [done|].
  destruct (utf8.DecodeRuneInString (c :: t)) as [r w]. cbn [map fst snd].
  f_equal. rewrite <- IH. f_equal. lia.
Qed.

Lemma find_rune_shift (P : Z → bool) (d : nat) (l : list (nat * Z)) :
  List.find (λ ir, P ir.2) (map (λ ir, ((ir.1 + d)%nat, ir.2)) l)
  = (λ ir, ((ir.1 + d)%nat, ir.2)) <$> List.find (λ ir, P ir.2) l.
Proof.
  induction l as [|[j r] l IH]; [done|]. cbn [map List.find fst snd].
  by destruct (P r).
Qed.

Lemma TrimLeftFunc_space (c : ascii) (t : gostring) :
  byte_val c < 0x80 → unicode.IsSpace (byte_val c) = true →
  strings.TrimLeftFunc (c :: t) unicode.IsSpace = strings.TrimLeftFunc t unicode.IsSpace.
Proof.
  intros Hc Hsp. unfold strings.TrimLeftFunc, strings.indexFunc, utf8.range.
  cbn [length utf8.range_from]. rewrite DecodeRuneInString_ascii by done.
  cbn [List.find snd]. rewrite Hsp. cbn [Bool.eqb drop].
  rewrite drop_0, (range_from_shift (length t) 0 1 t).
  rewrite (find_rune_shift (λ r, Bool.eqb (unicode.IsSpace r) false)).
  destruct (List.find _ (utf8.range_from (length t) 0 t)) as [[j r]|]; [|done].
  cbn [fmap option_fmap option_map fst snd]. by rewrite Nat.add_1_r.
Qed.

Lemma TrimSpace_indent (indent s : gostring) :
  Forall is_indent indent → strings.TrimSpace (indent ++ s) = strings.TrimSpace s.
Proof.
  induction 1 as [|c indent Hc _ IH]; [done|].
  unfold strings.TrimSpace, strings.TrimFunc in *. cbn [app].
  rewrite TrimLeftFunc_space; [exact IH| |]; by destruct Hc as [-> | ->].
Qed.

Lemma Split_from_app (cur s1 s2 : gostring) (sep : ascii) :
  sep ∉ s1 →
  strings.Split_from cur (s1 ++ sep :: s2) sep
  = (cur ++ s1) :: strings.Split_from [] s2 sep.
Proof.
  revert cur. induction s1 as [|c s1 IH]; intros cur Hsep; cbn [app strings.Split_from].
  - by rewrite byte_eqb_refl, app_nil_r.
  - destruct (byte_eqb c sep) eqn:E.
    + apply byte_eqb_eq in E as ->. set_solver.
    + rewrite IH by set_solver. by rewrite <- app_assoc.
Qed.

Lemma Split_from_no_sep (cur s : gostring) (sep : ascii) :
  sep ∉ s → strings.Split_from cur s sep = [cur ++ s].
Proof.
  revert cur. induction s as [|c s IH]; intros cur Hsep; cbn [strings.Split_from].
  - by rewrite app_nil_r.
  - destruct (byte_eqb c sep) eqn:E.
    + apply byte_eqb_eq in E as ->. set_solver.
    + rewrite IH by set_solver. by rewrite <- app_assoc.
Qed.

Section ScenarioA.
Variable caseLower : Z → Z.
Variable filepath_Rel : gostring → gostring → gostring.
Variable filepath_Base : gostring → gostring.

Definition scenario_comment : gostring := bytes "/// Moves the player.".

(** C2 (amended): for a file whose text is the line [/// Moves the player.]
    directly above the line [void MovePlayer() { }] indented by at least
    one space or tab, [ParseFile] returns exactly one record; its function
    name is "MovePlayer", its comments are ["Moves the player."] and its
    keywords begin with "move", "player". *)
Theorem ParseFile_scenario_A (w : World) (filePath rootPath indent : gostring) :
  indent ≠ [] → Forall is_indent indent →
  os_ReadFile w filePath
    = (scenario_comment ++ [regexp.newline] ++ indent ++ scenario_decl, None) →
  ∃ r,
    ParseFile caseLower filepath_Rel filepath_Base w NewUnityParser filePath rootPath
      = ([r], None)
    ∧ FuncName r = bytes "MovePlayer"
    ∧ Comments r = [bytes "Moves the player."]
    ∧ take 2 (Keywords r) = [bytes "move"; bytes "player"].
Proof.
  intros Hne Hind Hread. unfold ParseFile. rewrite Hread.
  set (ctx := mkFileContext _ _ _ _). clearbody ctx.
  assert (strings.Split (scenario_comment ++ [regexp.newline] ++ indent ++ scenario_decl)
            regexp.newline = [scenario_comment; indent ++ scenario_decl]) as ->.
  { unfold strings.Split. cbn [app]. rewrite Split_from_app.
    - rewrite Split_from_no_sep; [done|].
      rewrite elem_of_app. intros [H|H].
      + rewrite Forall_forall in Hind. by destruct (Hind _ H).
      + apply list_elem_of_In in H. vm_compute in H.
        repeat (destruct H as [H|H]; [discriminate H|]). done.
    - intros H. apply list_elem_of_In in H. vm_compute in H.
      repeat (destruct H as [H|H]; [discriminate H|]). done. }
  unfold ParseFile_lines. cbn [fold_left].
  assert (ParseFile_line caseLower filepath_Base NewUnityParser ctx
            (mkParseState [] [] []) scenario_comment
          = mkParseState [] [bytes "Moves the player."] []) as ->
    by (vm_compute; reflexivity).
  destruct (function_re_indented indent Hne Hind) as (m0 & m1 & Hm).
  unfold ParseFile_line. rewrite TrimSpace_indent by done.
  replace (strings.TrimSpace scenario_decl) with scenario_decl by (vm_compute; reflexivity).
  cbn [functionRegex NewUnityParser]. rewrite Hm.
  replace (strings.HasPrefix scenario_decl (bytes "[") && strings.HasSuffix scenario_decl (bytes "]"))
    with false by (vm_compute; reflexivity).
  replace (strings.HasPrefix scenario_decl (bytes "///")) with false by (vm_compute; reflexivity).
  replace (strings.HasPrefix scenario_decl (bytes "//")) with false by (vm_compute; reflexivity).
  cbn [functions fst snd app]. eexists. split; [reflexivity|].
  cbn [FuncName Comments Keywords submatch nth currentComments].
  split; [reflexivity|]. split; [reflexivity|]. vm_compute. reflexivity.
Qed.

End ScenarioA.

(** The file of Scenario A as the specification writes it, with the
    declaration at the first column. *)
Definition demo_scenario_A : World :=
  demo_world
    [("p/Assets/Player.cs", Some "/// Moves the player.
void MovePlayer() { }")]
    NotDir [].

(** C2 (as stated) fails: the declaration pattern asks for at least one
    modifier keyword or white space character before the return type, so
    the declaration at the first column is not matched and [ParseFile]
    returns no record. *)
Lemma ParseFile_scenario_A_counterexample :
  (os_ReadFile demo_scenario_A (bytes "p/Assets/Player.cs")).1
    = scenario_comment ++ [regexp.newline] ++ scenario_decl
  ∧ regexp.FindStringSubmatch function_re scenario_decl = None
  ∧ demo_ParseFile demo_scenario_A (bytes "p/Assets/Player.cs") (bytes "p") = ([], None).
Proof. vm_compute. repeat split; reflexivity. Qed.

(** The same file with the declaration indented by a tab and two spaces. *)
Definition demo_scenario_A_indented : World :=
  demo_world
    [("p/Assets/Player.cs", Some "/// Moves the player.
	  void MovePlayer() { }")]
    NotDir [].

Lemma ParseFile_scenario_A_witness :
  ∃ r,
    demo_ParseFile demo_scenario_A_indented (bytes "p/Assets/Player.cs") (bytes "p")
      = ([r], None)
    ∧ FuncName r = bytes "MovePlayer"
    ∧ Comments r = [bytes "Moves the player."]
    ∧ take 2 (Keywords r) = [bytes "move"; bytes "player"].
Proof.
  apply (ParseFile_scenario_A demo_caseLower demo_Rel demo_Base demo_scenario_A_indented
           (bytes "p/Assets/Player.cs") (bytes "p") [tab; " "%char; " "%char]).
  - discriminate.
  - repeat constructor; by right.
  - vm_compute. reflexivity.
Defined.

(** ** GenerateUnityMarkdown: grouping and order *)

Lemma byte_val_inj (a b : ascii) : byte_val a = byte_val b → a = b.
Proof.
  unfold byte_val. intros H. apply N2Z.inj in H.
  rewrite <- (ascii_N_embedding a), <- (ascii_N_embedding b). by rewrite H.
Qed.

Lemma string_ltb_irrefl (a : gostring) : sort.string_ltb a a = false.
Proof.
  induction a as [|x a IH]; [done|]. cbn [sort.string_ltb].
  rewrite Z.ltb_irrefl, Z.eqb_refl, IH. done.
Qed.

Lemma string_ltb_trans (a b c : gostring) :
  sort.string_ltb a b = true → sort.string_ltb b c = true → sort.string_ltb a c = true.
Proof.
  revert b c. induction a as [|x a IH]; intros [|y b] [|z c]; cbn [sort.string_ltb];
    try done.
  intros H1 H2. apply orb_true_iff in H1, H2. apply orb_true_iff.
  destruct H1 as [H1|H1], H2 as [H2|H2]; zbool.
  - left. apply Z.ltb_lt. lia.
  - left. apply Z.ltb_lt. lia.
  - left. apply Z.ltb_lt. lia.
  - right. apply andb_true_iff. split; [apply Z.eqb_eq; lia|]. by eapply IH.
Qed.

Lemma string_ltb_total (a b : gostring) :
  sort.string_ltb a b = false → sort.string_ltb b a = false → a = b.
Proof.
  revert b. induction a as [|x a IH]; intros [|y b]; cbn [sort.string_ltb]; try done.
  intros [Hxy Hab]%orb_false_iff [Hyx Hba]%orb_false_iff.
  apply Z.ltb_ge in Hxy, Hyx.
  assert (byte_val x = byte_val y) as Heq by lia.
  rewrite Heq, Z.eqb_refl in Hab, Hba. cbn [andb] in Hab, Hba.
  apply byte_val_inj in Heq as ->. f_equal. by apply IH.
Qed.

#[global] Instance string_le_total : Total sort.string_le.
Proof.
  intros a b. unfold sort.string_le.
  destruct (sort.string_ltb b a) eqn:E; [right|by left].
  destruct (sort.string_ltb a b) eqn:E'; [|done].
  pose proof (string_ltb_trans _ _ _ E E') as H. by rewrite string_ltb_irrefl in H.
Qed.

#[global] Instance string_le_trans : Transitive sort.string_le.
Proof.
  intros a b c. unfold sort.string_le. intros Hba Hcb.
  destruct (sort.string_ltb c a) eqn:Hca; [|done].
  destruct (sort.string_ltb a b) eqn:Hab.
  - pose proof (string_ltb_trans _ _ _ Hca Hab). congruence.
  - pose proof (string_ltb_total _ _ Hab Hba). congruence.
Qed.

Lemma string_le_ne_lt (a b : gostring) :
  sort.string_le a b → a ≠ b → sort.string_lt a b.
Proof.
  unfold sort.string_le, sort.string_lt. intros Hle Hne.
  destruct (sort.string_ltb a b) eqn:E; [done|].
  by pose proof (string_ltb_total _ _ E Hle).
Qed.

(** [sort.Strings] on distinct strings: a strictly increasing list of the
    same strings. *)
Lemma sort_Strings_NoDup (l : list gostring) :
  NoDup l →
  StronglySorted sort.string_lt (sort.Strings l) ∧ ∀ x, x ∈ sort.Strings l ↔ x ∈ l.
Proof.
  intros Hnd. unfold sort.Strings.
  pose proof (merge_sort_Permutation sort.string_le l) as Hperm.
  split; [|intros x; by rewrite Hperm].
  pose proof (StronglySorted_merge_sort sort.string_le l) as Hs.
  rewrite <- Hperm in Hnd. clear Hperm.
  induction Hs as [|x l' Hs IH Hall]; [constructor|].
  apply NoDup_cons in Hnd as [Hx Hnd]. constructor; [by apply IH|].
  rewrite Forall_forall in Hall |- *. intros y Hy.
  apply string_le_ne_lt; [by apply Hall|]. intros ->. done.
Qed.

(** Grouping with a map: after the loop, the slice of a key holds the
    records with that key, in the order of the input. *)
Section Grouping.
Variable key : FunctionInfo → gostring.

Definition with_key (k : gostring) (fns : list FunctionInfo) : list FunctionInfo :=
  List.filter (λ fn, gostring_eqb (key fn) k) fns.

Lemma group_fold (fns : list FunctionInfo) (m : gmap gostring (list FunctionInfo)) :
  let m' := fold_left (λ m fn, map_append m (key fn) fn) fns m in
  (∀ k, map_slice m' k = map_slice m k ++ with_key k fns)
  ∧ (∀ k, is_Some (m' !! k) ↔ is_Some (m !! k) ∨ ∃ fn, fn ∈ fns ∧ key fn = k).
Proof.
  revert m. induction fns as [|fn fns IH]; intros m; cbn [fold_left].
  - split; [intros k; by rewrite app_nil_r|]. intros k. set_solver.
  - destruct (IH (map_append m (key fn) fn)) as [IH1 IH2]. split.
    + intros k. rewrite IH1. unfold map_append, map_slice, with_key.
      cbn [List.filter]. destruct (decide (key fn = k)) as [<-|Hne].
      * rewrite lookup_insert_eq. simpl.
        replace (gostring_eqb (key fn) (key fn)) with true
          by (symmetry; by apply gostring_eqb_eq).
        by rewrite <- app_assoc.
      * rewrite lookup_insert_ne by done.
        replace (gostring_eqb (key fn) k) with false
          by (symmetry; by apply bool_decide_eq_false).
        done.
    + intros k. rewrite IH2. unfold map_append.
      destruct (decide (key fn = k)) as [<-|Hne].
      * rewrite lookup_insert_eq. split; [|by eauto].
        intros _. right. exists fn. split; [left|done].
      * rewrite lookup_insert_ne by done. split.
        -- intros [?|(fn' & Hin & Hk)]; [by left|]. right. exists fn'. split; [by right|done].
        -- intros [?|(fn' & Hin & Hk)]; [by left|].
           apply elem_of_cons in Hin as [->|Hin]; [done|]. right. by exists fn'.
Qed.

Lemma map_keys_spec (m : gmap gostring (list FunctionInfo)) :
  NoDup (map_keys m) ∧ ∀ k, k ∈ map_keys m ↔ is_Some (m !! k).
Proof.
  unfold map_keys. split; [apply NoDup_fst_map_to_list|].
  intros k. rewrite list_elem_of_fmap. split.
  - intros ([k' v] & -> & Hin). apply elem_of_map_to_list in Hin. by exists v.
  - intros [v Hv]. exists (k, v). split; [done|]. by apply elem_of_map_to_list.
Qed.

(** The sorted keys of the groups of [fns]. *)
Definition group_keys (fns : list FunctionInfo) : list gostring :=
  sort.Strings (map_keys (fold_left (λ m fn, map_append m (key fn) fn) fns ∅)).

Lemma group_keys_spec (fns : list FunctionInfo) :
  StronglySorted sort.string_lt (group_keys fns)
  ∧ (∀ k, k ∈ group_keys fns ↔ ∃ fn, fn ∈ fns ∧ key fn = k)
  ∧ (∀ k, map_slice (fold_left (λ m fn, map_append m (key fn) fn) fns ∅) k
          = with_key k fns).
Proof.
  unfold group_keys. destruct (group_fold fns ∅) as [H1 H2].
  destruct (map_keys_spec (fold_left (λ m fn, map_append m (key fn) fn) fns ∅))
    as [Hnd Hk].
  destruct (sort_Strings_NoDup _ Hnd) as [Hs Hm].
  split; [done|]. split.
  - intros k. rewrite Hm, Hk, H2. rewrite lookup_empty. split.
    + intros [[? ?]|?]; done.
    + by right.
  - intros k. rewrite H1. unfold map_slice. by rewrite lookup_empty.
Qed.
End Grouping.

(** Writing to the builder only appends to it. *)
Lemma fold_left_appends {A : Type} (f : gostring → A → gostring) :
  (∀ sb a, f sb a = sb ++ f [] a) →
  ∀ l sb, fold_left f l sb = sb ++ flat_map (f []) l.
Proof.
  intros Hf l. induction l as [|a l IH]; intros sb; cbn [fold_left flat_map].
  - by rewrite app_nil_r.
  - by rewrite IH, Hf, <- app_assoc.
Qed.

Lemma write_function_appends (sb : gostring) (fn : FunctionInfo) :
  write_function sb fn = sb ++ write_function [] fn.
Proof.
  unfold write_function, WriteString.
  set (attrs := fold_left _ (zip _ _)).
  set (comments := fold_left _ (Comments fn)).
  assert (∀ sb, attrs sb = sb ++ attrs []) as Hattrs.
  { intros sb'. unfold attrs. rewrite fold_left_appends.
    - symmetry. rewrite fold_left_appends; [done|].
      intros sb0 [i attr]. destruct (0 <? i)%nat; cbn [app]; by rewrite <- ?app_assoc.
    - intros sb0 [i attr]. destruct (0 <? i)%nat; cbn [app]; by rewrite <- ?app_assoc. }
  assert (∀ sb, comments sb = sb ++ comments []) as Hcomments.
  { intros sb'. unfold comments. rewrite fold_left_appends.
    - symmetry. rewrite fold_left_appends; [done|].
      intros sb0 c. destruct (negb _); cbn [app]; by rewrite ?app_nil_r.
    - intros sb0 c. destruct (negb _); cbn [app]; by rewrite ?app_nil_r. }
  clearbody attrs comments.
  destruct (0 <? length (Attributes fn))%nat, (0 <? length (Comments fn))%nat,
    (0 <? length (Keywords fn))%nat; cbn [app];
    repeat (rewrite (Hattrs (_ ++ _)) || rewrite (Hcomments (_ ++ _)));
    rewrite <- ?app_assoc; reflexivity.
Qed.

Lemma write_class_heading_appends (sb className : gostring) (classFns : list FunctionInfo) :
  write_class_heading sb className classFns
  = sb ++ write_class_heading [] className classFns.
Proof.
  unfold write_class_heading, WriteString. destruct classFns; cbn [app];
    by rewrite <- ?app_assoc.
Qed.

Lemma write_category_heading_appends (sb category : gostring) (fns : list FunctionInfo) :
  write_category_heading sb category fns
  = sb ++ write_category_heading [] category fns.
Proof. unfold write_category_heading, WriteString. cbn [app]. by rewrite <- app_assoc. Qed.

Lemma write_class_flat (classMap : gmap gostring (list FunctionInfo))
    (sb className : gostring) :
  write_class classMap sb className
  = sb ++ write_class_heading [] className (map_slice classMap className)
       ++ flat_map (write_function []) (map_slice classMap className).
Proof.
  unfold write_class. rewrite (fold_left_appends _ write_function_appends).
  by rewrite write_class_heading_appends, <- app_assoc.
Qed.

Lemma write_category_flat (categoryMap : gmap gostring (list FunctionInfo))
    (sb category : gostring) :
  write_category categoryMap sb category
  = sb ++ write_category_heading [] category (map_slice categoryMap category)
       ++ flat_map (λ className,
            write_class_heading [] className
              (map_slice (build_classMap (map_slice categoryMap category)) className)
            ++ flat_map (write_function [])
                 (map_slice (build_classMap (map_slice categoryMap category)) className))
            (sort.Strings (map_keys (build_classMap (map_slice categoryMap category)))).
Proof.
  unfold write_category. rewrite fold_left_appends.
  - rewrite write_category_heading_appends, <- app_assoc. do 2 f_equal.
    apply flat_map_ext. intros className. by rewrite write_class_flat.
  - intros sb' className. rewrite !write_class_flat. done.
Qed.

Lemma write_footer_appends (sb : gostring) : write_footer sb = sb ++ write_footer [].
Proof. unfold write_footer, WriteString. cbn [app]. by rewrite <- !app_assoc. Qed.

Lemma with_key_elem (key : FunctionInfo → gostring) (k : gostring)
    (fns : list FunctionInfo) (fn : FunctionInfo) :
  fn ∈ with_key key k fns ↔ fn ∈ fns ∧ key fn = k.
Proof.
  unfold with_key. rewrite !list_elem_of_In, List.filter_In, gostring_eqb_eq. done.
Qed.

Lemma category_of_no_separator (fn : FunctionInfo) :
  filepath_Separator ∉ RelativePath fn → category_of fn = gs "其他".
Proof.
  intros H. unfold category_of, strings.Split. by rewrite Split_from_no_sep.
Qed.

Lemma Split_from_nonempty (cur s : gostring) (sep : ascii) :
  strings.Split_from cur s sep ≠ [].
Proof.
  revert cur. induction s as [|c s IH]; intros cur; cbn [strings.Split_from]; [done|].
  destruct (byte_eqb c sep); [done|apply IH].
Qed.

Lemma category_of_first_segment (fn : FunctionInfo) (segment rest : gostring) :
  RelativePath fn = segment ++ filepath_Separator :: rest →
  filepath_Separator ∉ segment →
  category_of fn = segment.
Proof.
  intros Hrel H. unfold category_of, strings.Split. rewrite Hrel, Split_from_app by done.
  pose proof (Split_from_nonempty [] rest filepath_Separator) as Hne.
  destruct (strings.Split_from [] rest filepath_Separator); [done|].
  reflexivity.
Qed.

Lemma write_category_appends (categoryMap : gmap gostring (list FunctionInfo))
    (sb category : gostring) :
  write_category categoryMap sb category
  = sb ++ write_category categoryMap [] category.
Proof. by rewrite !write_category_flat. Qed.

(** The section of a class in the document: its heading, then its
    records in the order of the input. *)
Definition class_section (fns : list FunctionInfo) (className : gostring) : gostring :=
  write_class_heading [] className (with_key className_of className fns)
  ++ flat_map (write_function []) (with_key className_of className fns).

(** The section of a category: its heading, then the sections of its
    classes in increasing order of their names. *)
Definition category_section (functions : list FunctionInfo) (category : gostring)
    : gostring :=
  write_category_heading [] category (with_key category_of category functions)
  ++ flat_map (class_section (with_key category_of category functions))
       (group_keys className_of (with_key category_of category functions)).

Section Markdown.
Variable caseLower : Z → Z.

Lemma write_nav_appends (categoryMap : gmap gostring (list FunctionInfo))
    (sb cat : gostring) :
  write_nav caseLower categoryMap sb cat = sb ++ write_nav caseLower categoryMap [] cat.
Proof. reflexivity. Qed.


(** C9: the document groups the records by the first segment of their
    relative path, with a fixed category for the paths without separator;
    the categories come in strictly increasing (bytewise lexicographic)
    order; inside a category the records are grouped by class name, the
    empty name standing under a fixed label, the class names in strictly
    increasing order; inside a class the records come in input order. *)
Theorem markdown_text_grouping (functions : list FunctionInfo) :
  (∀ w outputPath,
     GenerateUnityMarkdown caseLower w functions outputPath
     = match os_WriteFile w outputPath (markdown_text caseLower functions) with
       | Some e => (Some e, [])
       | None => (None, [WriteFile outputPath (markdown_text caseLower functions)])
       end)
  ∧ (∀ fn, filepath_Separator ∉ RelativePath fn → category_of fn = gs "其他")
  ∧ (∀ fn segment rest,
       RelativePath fn = segment ++ filepath_Separator :: rest →
       filepath_Separator ∉ segment → category_of fn = segment)
  ∧ (∀ fn, className_of fn = if gostring_eqb (ClassName fn) [] then gs "全局函数"
                             else ClassName fn)
  ∧ StronglySorted sort.string_lt (group_keys category_of functions)
  ∧ (∀ category, category ∈ group_keys category_of functions
                 ↔ ∃ fn, fn ∈ functions ∧ category_of fn = category)
  ∧ (∀ category,
       StronglySorted sort.string_lt
         (group_keys className_of (with_key category_of category functions))
       ∧ ∀ className,
           className ∈ group_keys className_of (with_key category_of category functions)
           ↔ ∃ fn, fn ∈ functions ∧ category_of fn = category
                   ∧ className_of fn = className)
  ∧ markdown_text caseLower functions
    = write_header [] functions
      ++ flat_map (write_nav caseLower (build_categoryMap functions) [])
           (group_keys category_of functions)
      ++ gs "\n---\n\n"
      ++ flat_map (category_section functions) (group_keys category_of functions)
      ++ write_footer [].
Proof.
  destruct (group_keys_spec category_of functions) as (Hsorted & Hmem & Hslice).
  split; [reflexivity|].
  split; [exact category_of_no_separator|].
  split; [exact category_of_first_segment|].
  split; [done|]. split; [done|]. split; [done|]. split.
  - intros category.
    destruct (group_keys_spec className_of (with_key category_of category functions))
      as (Hs & Hm & _).
    split; [done|]. intros className. rewrite Hm.
    split; intros (fn & Hin & Hk); exists fn.
    + apply with_key_elem in Hin as [? ?]. done.
    + destruct Hk as [? ?]. split; [by apply with_key_elem|done].
  - unfold markdown_text, WriteString.
    fold (group_keys category_of functions). unfold build_categoryMap in *.
    rewrite write_footer_appends.
    rewrite (fold_left_appends _ (write_category_appends _)).
    rewrite (fold_left_appends _ (write_nav_appends _)).
    rewrite <- !app_assoc. do 3 f_equal. f_equal.
    apply flat_map_ext. intros category. unfold category_section.
    rewrite write_category_flat. cbn [app]. rewrite Hslice. f_equal. fold (group_keys className_of (with_key category_of category functions)).
    apply flat_map_ext. intros className. unfold class_section, build_classMap.
    destruct (group_keys_spec className_of (with_key category_of category functions))
      as (_ & _ & Hcs).
    by rewrite Hcs.
Qed.

End Markdown.

(** Five records in three categories; the order of the function headings
    in the document. *)
Definition demo_records : list FunctionInfo :=
  let record (rel cls name : string) :=
    mkFunctionInfo (bytes "f.cs") (bytes rel) (bytes rel) [] (bytes cls) (bytes name)
      [] (bytes name) false false [] [] in
  [record "Scripts/b.cs" "Zed" "F1"; record "x.cs" "" "F2";
   record "Scripts/a.cs" "Abc" "F3"; record "Scripts/b.cs" "Zed" "F4";
   record "Editor/q.cs" "" "F5"]%string.

Example markdown_text_demo_order :
  group_keys category_of demo_records = [bytes "Editor"; bytes "Scripts"; gs "其他"]
  ∧ group_keys className_of (with_key category_of (bytes "Scripts") demo_records)
    = [bytes "Abc"; bytes "Zed"]
  ∧ map FuncName (with_key className_of (bytes "Zed")
                    (with_key category_of (bytes "Scripts") demo_records))
    = [bytes "F1"; bytes "F4"].
Proof. vm_compute. repeat split; reflexivity. Qed.

(** ** UTF-8: encoding, then decoding *)

Lemma byte_val_byte_of (x : Z) : 0 ≤ x < 256 → byte_val (byte_of x) = x.
Proof.
  intros Hx. unfold byte_val, byte_of. rewrite Z.mod_small by done.
  rewrite N_ascii_embedding by lia. lia.
Qed.

Lemma lor_disjoint (x y k : Z) :
  0 ≤ k → 0 ≤ y < 2 ^ k → Z.lor (x * 2 ^ k) y = x * 2 ^ k + y.
Proof.
  intros Hk Hy. pose proof (Z.add_lor_land (x * 2 ^ k) y) as H.
  assert (Z.land (x * 2 ^ k) y = 0) as H0; [|lia].
  apply Z.bits_inj'. intros n Hn. rewrite Z.land_spec, Z.bits_0.
  destruct (Z.lt_ge_cases n k) as [Hlt|Hge].
  - by rewrite Z.mul_pow2_bits_low.
  - destruct (decide (y = 0)) as [->|Hne]; [by rewrite Z.bits_0, andb_false_r|].
    rewrite (Z.bits_above_log2 y n), andb_false_r; [done|lia|].
    assert (Z.log2 y < k) by (apply Z.log2_lt_pow2; lia). lia.
Qed.

Lemma lor_shiftl (a b k : Z) :
  0 ≤ k → 0 ≤ b < 2 ^ k → Z.lor (Z.shiftl a k) b = a * 2 ^ k + b.
Proof. intros Hk Hb. rewrite Z.shiftl_mul_pow2 by done. by apply lor_disjoint. Qed.

Lemma lor3 (a b c : Z) :
  0 ≤ b < 64 → 0 ≤ c < 64 →
  Z.lor (Z.lor (Z.shiftl a 12) (Z.shiftl b 6)) c = a * 4096 + b * 64 + c.
Proof.
  intros Hb Hc.
  replace (Z.shiftl a 12) with (Z.shiftl (Z.shiftl a 6) 6)
    by (rewrite Z.shiftl_shiftl by lia; f_equal).
  rewrite <- Z.shiftl_lor, (lor_shiftl a b 6), lor_shiftl by lia. lia.
Qed.

Lemma lor4 (a b c d : Z) :
  0 ≤ b < 64 → 0 ≤ c < 64 → 0 ≤ d < 64 →
  Z.lor (Z.lor (Z.lor (Z.shiftl a 18) (Z.shiftl b 12)) (Z.shiftl c 6)) d
  = a * 262144 + b * 4096 + c * 64 + d.
Proof.
  intros Hb Hc Hd.
  replace (Z.shiftl a 18) with (Z.shiftl (Z.shiftl a 6) 12)
    by (rewrite Z.shiftl_shiftl by lia; f_equal).
  replace (Z.shiftl b 12) with (Z.shiftl (Z.shiftl b 0) 12)
    by (rewrite Z.shiftl_shiftl by lia; f_equal).
  rewrite <- Z.shiftl_lor, Z.shiftl_0_r, (lor_shiftl a b 6), lor3 by lia. lia.
Qed.

(** A property of all bytes, checked on each of them. *)
Lemma byte_forall (P : Z → bool) :
  forallb P (map Z.of_nat (seq 0 256)) = true → ∀ b, 0 ≤ b < 256 → P b = true.
Proof.
  intros H b Hb. rewrite forallb_forall in H. apply H.
  apply in_map_iff. exists (Z.to_nat b). split; [lia|]. apply in_seq. lia.
Qed.

Lemma land_masks (b : Z) :
  0 ≤ b < 256 →
  (128 ≤ b < 192 → Z.land b utf8.maskx = b - 128)
  ∧ (192 ≤ b < 224 → Z.land b utf8.mask2 = b - 192)
  ∧ (224 ≤ b < 240 → Z.land b utf8.mask3 = b - 224)
  ∧ (240 ≤ b < 248 → Z.land b utf8.mask4 = b - 240).
Proof.
  intros Hb.
  pose proof (byte_forall (λ b,
    implb ((128 <=? b) && (b <? 192)) (Z.land b utf8.maskx =? b - 128)
    && implb ((192 <=? b) && (b <? 224)) (Z.land b utf8.mask2 =? b - 192)
    && implb ((224 <=? b) && (b <? 240)) (Z.land b utf8.mask3 =? b - 224)
    && implb ((240 <=? b) && (b <? 248)) (Z.land b utf8.mask4 =? b - 240))
    ltac:(vm_compute; reflexivity) b Hb) as H.
  cbv beta in H. apply andb_true_iff in H as [H H4]. apply andb_true_iff in H as [H H3].
  apply andb_true_iff in H as [H1 H2].
  repeat split; intros Hr.
  - replace ((128 <=? b) && (b <? 192)) with true in H1 by (symmetry; apply andb_true_iff; split; [apply Z.leb_le|apply Z.ltb_lt]; lia).
    by apply Z.eqb_eq in H1.
  - replace ((192 <=? b) && (b <? 224)) with true in H2 by (symmetry; apply andb_true_iff; split; [apply Z.leb_le|apply Z.ltb_lt]; lia).
    by apply Z.eqb_eq in H2.
  - replace ((224 <=? b) && (b <? 240)) with true in H3 by (symmetry; apply andb_true_iff; split; [apply Z.leb_le|apply Z.ltb_lt]; lia).
    by apply Z.eqb_eq in H3.
  - replace ((240 <=? b) && (b <? 248)) with true in H4 by (symmetry; apply andb_true_iff; split; [apply Z.leb_le|apply Z.ltb_lt]; lia).
    by apply Z.eqb_eq in H4.
Qed.

Lemma lor_marks (q : Z) :
  0 ≤ q < 64 →
  Z.lor utf8.tx q = 128 + q
  ∧ (q < 32 → Z.lor utf8.t2 q = 192 + q)
  ∧ (q < 16 → Z.lor utf8.t3 q = 224 + q)
  ∧ (q < 8 → Z.lor utf8.t4 q = 240 + q).
Proof.
  intros Hq.
  pose proof (byte_forall (λ q,
    implb (q <? 64) (Z.lor utf8.tx q =? 128 + q)
    && implb (q <? 32) (Z.lor utf8.t2 q =? 192 + q)
    && implb (q <? 16) (Z.lor utf8.t3 q =? 224 + q)
    && implb (q <? 8) (Z.lor utf8.t4 q =? 240 + q))
    ltac:(vm_compute; reflexivity) q ltac:(lia)) as H.
  cbv beta in H. apply andb_true_iff in H as [H H4]. apply andb_true_iff in H as [H H3].
  apply andb_true_iff in H as [H1 H2].
  split; [|repeat split; intros Hr].
  - replace (q <? 64) with true in H1 by (symmetry; apply Z.ltb_lt; lia).
    by apply Z.eqb_eq in H1.
  - replace (q <? 32) with true in H2 by (symmetry; apply Z.ltb_lt; lia).
    by apply Z.eqb_eq in H2.
  - replace (q <? 16) with true in H3 by (symmetry; apply Z.ltb_lt; lia).
    by apply Z.eqb_eq in H3.
  - replace (q <? 8) with true in H4 by (symmetry; apply Z.ltb_lt; lia).
    by apply Z.eqb_eq in H4.
Qed.

(** Decide the comparisons of the goal with the hypotheses. *)
Ltac zcmp :=
  repeat match goal with
  | |- context [?a <? ?b] =>
    first [ replace (a <? b) with true by (symmetry; apply Z.ltb_lt; lia)
          | replace (a <? b) with false by (symmetry; apply Z.ltb_ge; lia) ]
  | |- context [?a <=? ?b] =>
    first [ replace (a <=? b) with true by (symmetry; apply Z.leb_le; lia)
          | replace (a <=? b) with false by (symmetry; apply Z.leb_gt; lia) ]
  | |- context [?a =? ?b] =>
    first [ replace (a =? b) with true by (symmetry; apply Z.eqb_eq; lia)
          | replace (a =? b) with false by (symmetry; apply Z.eqb_neq; lia) ]
  end.

(** The bounds [acceptRanges] puts on the second byte, by first byte. *)
Definition accept_lo (b0 : Z) : Z :=
  if b0 =? 0xE0 then 0xA0 else if b0 =? 0xF0 then 0x90 else 0x80.
Definition accept_hi (b0 : Z) : Z :=
  if b0 =? 0xED then 0x9F else if b0 =? 0xF4 then 0x8F else 0xBF.
Definition lead_size (b0 : Z) : Z :=
  if b0 <? 0xE0 then 2 else if b0 <? 0xF0 then 3 else 4.

Lemma first_lead (b : Z) :
  0 ≤ b < 256 →
  if utf8.as_ <=? utf8.first b
  then (b < 0xC2 ∨ 0xF4 < b) ∧ (Z.odd (utf8.first b) = false ↔ b < 0x80)
  else 0xC2 ≤ b ≤ 0xF4
       ∧ Z.land (utf8.first b) 7 = lead_size b
       ∧ utf8.acceptRanges (Z.shiftr (utf8.first b) 4) = (accept_lo b, accept_hi b).
Proof.
  intros Hb.
  pose proof (byte_forall (λ b,
    if utf8.as_ <=? utf8.first b
    then ((b <? 0xC2) || (0xF4 <? b)) && Bool.eqb (negb (Z.odd (utf8.first b))) (b <? 0x80)
    else (0xC2 <=? b) && (b <=? 0xF4)
         && (Z.land (utf8.first b) 7 =? lead_size b)
         && ((utf8.acceptRanges (Z.shiftr (utf8.first b) 4)).1 =? accept_lo b)
         && ((utf8.acceptRanges (Z.shiftr (utf8.first b) 4)).2 =? accept_hi b))
    ltac:(vm_compute; reflexivity) b Hb) as H.
  cbv beta in H. destruct (utf8.as_ <=? utf8.first b).
  - apply andb_true_iff in H as [H1 H2]. apply eqb_prop in H2. split.
    + apply orb_true_iff in H1 as [H1|H1]; apply Z.ltb_lt in H1; lia.
    + rewrite <- Z.ltb_lt, <- H2. by destruct (Z.odd _).
  - destruct (utf8.acceptRanges _) as [lo hi]. cbn [fst snd] in H.
    repeat (apply andb_true_iff in H as [H ?]). zbool. subst. done.
Qed.

(** [DecodeRuneInString] on a string that starts with the first byte of a
    multi-byte encoding, with the rune written arithmetically. *)
Definition cont_fails (b : Z) : bool := (b <? utf8.locb) || (utf8.hicb <? b).

Definition decode_lead (c0 : ascii) (t : gostring) : Z * nat :=
  let b0 := byte_val c0 in
  match t with
  | c1 :: t1 =>
    let b1 := byte_val c1 in
    if (b1 <? accept_lo b0) || (accept_hi b0 <? b1) then (utf8.RuneError, 1%nat) else
    if lead_size b0 <=? 2 then ((b0 - 192) * 64 + (b1 - 128), 2%nat) else
    match t1 with
    | c2 :: t2 =>
      let b2 := byte_val c2 in
      if cont_fails b2 then (utf8.RuneError, 1%nat) else
      if lead_size b0 <=? 3
      then ((b0 - 224) * 4096 + (b1 - 128) * 64 + (b2 - 128), 3%nat) else
      match t2 with
      | c3 :: _ =>
        let b3 := byte_val c3 in
        if cont_fails b3 then (utf8.RuneError, 1%nat) else
        ((b0 - 240) * 262144 + (b1 - 128) * 4096 + (b2 - 128) * 64 + (b3 - 128), 4%nat)
      | [] => (utf8.RuneError, 1%nat)
      end
    | [] => (utf8.RuneError, 1%nat)
    end
  | [] => (utf8.RuneError, 1%nat)
  end.

Lemma accept_bounds (b0 : Z) : 0x80 ≤ accept_lo b0 ∧ accept_hi b0 ≤ 0xBF.
Proof. unfold accept_lo, accept_hi. repeat case_match; lia. Qed.

Lemma DecodeRuneInString_lead (c0 : ascii) (t : gostring) :
  0xC2 ≤ byte_val c0 ≤ 0xF4 →
  utf8.DecodeRuneInString (c0 :: t) = decode_lead c0 t.
Proof.
  intros H0. pose proof (byte_val_range c0) as Hr0.
  pose proof (first_lead _ Hr0) as Hf.
  unfold utf8.DecodeRuneInString, decode_lead.
  destruct (utf8.as_ <=? utf8.first (byte_val c0)); [lia|].
  destruct Hf as (_ & -> & ->). cbn [fst snd].
  pose proof (accept_bounds (byte_val c0)) as Hacc.
  assert (2 ≤ lead_size (byte_val c0) ≤ 4
          ∧ (lead_size (byte_val c0) ≤ 2 → byte_val c0 < 224)
          ∧ (lead_size (byte_val c0) = 3 → 224 ≤ byte_val c0 < 240)
          ∧ (3 < lead_size (byte_val c0)  → 240 ≤ byte_val c0)) as Hsz
    by (unfold lead_size; repeat case_match; zbool; lia).
  set (sz := lead_size (byte_val c0)) in *.
  destruct t as [|c1 t1].
  { by destruct (_ <? sz). }
  pose proof (byte_val_range c1) as Hr1.
  destruct ((byte_val c1 <? accept_lo (byte_val c0))
            || (accept_hi (byte_val c0) <? byte_val c1)) eqn:E1.
  { by destruct (_ <? sz). }
  zbool.
  destruct (land_masks _ Hr0) as (_ & M2 & M3 & M4).
  destruct (land_masks _ Hr1) as (Mx1 & _).
  destruct (sz <=? 2) eqn:Esz2.
  { zbool. replace (Z.of_nat (length (c0 :: c1 :: t1)) <? sz) with false
      by (symmetry; apply Z.ltb_ge; cbn [length]; lia).
    rewrite M2, Mx1 by lia. by rewrite lor_shiftl by lia. }
  zbool. destruct t1 as [|c2 t2].
  { by destruct (_ <? sz). }
  pose proof (byte_val_range c2) as Hr2.
  unfold cont_fails.
  destruct ((byte_val c2 <? utf8.locb) || (utf8.hicb <? byte_val c2)) eqn:E2.
  { by destruct (_ <? sz). }
  zbool. unfold utf8.locb, utf8.hicb in * |-.
  destruct (land_masks _ Hr2) as (Mx2 & _).
  destruct (sz <=? 3) eqn:Esz3.
  { zbool. replace (Z.of_nat (length (c0 :: c1 :: c2 :: t2)) <? sz) with false
      by (symmetry; apply Z.ltb_ge; cbn [length]; lia).
    rewrite M3, Mx1, Mx2 by lia. by rewrite lor3 by lia. }
  zbool. destruct t2 as [|c3 t3].
  { replace (Z.of_nat (length [c0; c1; c2]) <? sz) with true
      by (symmetry; apply Z.ltb_lt; cbn [length]; lia). done. }
  pose proof (byte_val_range c3) as Hr3.
  destruct ((byte_val c3 <? utf8.locb) || (utf8.hicb <? byte_val c3)) eqn:E3.
  { by destruct (_ <? sz). }
  zbool. unfold utf8.locb, utf8.hicb in * |-.
  destruct (land_masks _ Hr3) as (Mx3 & _).
  replace (Z.of_nat (length (c0 :: c1 :: c2 :: c3 :: t3)) <? sz) with false
    by (symmetry; apply Z.ltb_ge; cbn [length]; lia).
  rewrite M4, Mx1, Mx2, Mx3 by lia. by rewrite lor4 by lia.
Qed.

(** A decoded rune other than the error of one byte depends only on the
    bytes of its encoding. *)
Lemma DecodeRuneInString_prefix (s : gostring) (c : Z) (w : nat) (rest : gostring) :
  utf8.DecodeRuneInString s = (c, w) → s ≠ [] →
  c ≠ utf8.RuneError ∨ w ≠ 1%nat →
  utf8.DecodeRuneInString (take w s ++ rest) = (c, w).
Proof.
  destruct s as [|c0 t]; [done|]. intros Hdec _ Hok.
  pose proof (byte_val_range c0) as Hr0.
  pose proof (first_lead _ Hr0) as Hf.
  destruct (utf8.as_ <=? utf8.first (byte_val c0)) eqn:Eas.
  - revert Hdec. unfold utf8.DecodeRuneInString. rewrite Eas.
    intros [= <- <-]. cbn [take app]. by rewrite Eas.
  - destruct Hf as (Hlead & _). revert Hdec.
    rewrite DecodeRuneInString_lead by done. unfold decode_lead.
    assert (∀ P : Prop, (utf8.RuneError, 1%nat) = (c, w) → P) as Herr.
    { intros P [= <- <-]. by destruct Hok. }
    destruct t as [|c1 t1]; [apply Herr|].
    destruct (_ || _) eqn:E1; [apply Herr|].
    destruct (lead_size (byte_val c0) <=? 2) eqn:Esz2.
    { intros [= <- <-]. cbn [take app].
      rewrite DecodeRuneInString_lead by done. unfold decode_lead.
      by rewrite E1, Esz2. }
    destruct t1 as [|c2 t2]; [apply Herr|].
    destruct (cont_fails (byte_val c2)) eqn:E2; [apply Herr|].
    destruct (lead_size (byte_val c0) <=? 3) eqn:Esz3.
    { intros [= <- <-]. cbn [take app].
      rewrite DecodeRuneInString_lead by done. unfold decode_lead.
      by rewrite E1, Esz2, E2, Esz3. }
    destruct t2 as [|c3 t3]; [apply Herr|].
    destruct (cont_fails (byte_val c3)) eqn:E3; [apply Herr|].
    intros [= <- <-]. cbn [take app].
    rewrite DecodeRuneInString_lead by done. unfold decode_lead.
    by rewrite E1, Esz2, E2, Esz3, E3.
Qed.

(** The runes [EncodeRune] encodes as they are. *)
Definition valid_rune (r : Z) : Prop :=
  0 ≤ r ≤ utf8.MaxRune ∧ ¬ (utf8.surrogateMin ≤ r ≤ utf8.surrogateMax).

Lemma rune_digits (r : Z) :
  0 ≤ r →
  ∃ d18 m18 m12 m6,
    r = 262144 * d18 + 4096 * m18 + 64 * m12 + m6
    ∧ 0 ≤ d18 ∧ 0 ≤ m18 < 64 ∧ 0 ≤ m12 < 64 ∧ 0 ≤ m6 < 64
    ∧ Z.land r utf8.maskx = m6
    ∧ Z.land (Z.shiftr r 6) utf8.maskx = m12
    ∧ Z.land (Z.shiftr r 12) utf8.maskx = m18
    ∧ Z.shiftr r 6 = 4096 * d18 + 64 * m18 + m12
    ∧ Z.shiftr r 12 = 64 * d18 + m18
    ∧ Z.shiftr r 18 = d18.
Proof.
  intros Hr. change utf8.maskx with (Z.ones 6).
  rewrite !Z.land_ones, !Z.shiftr_div_pow2 by lia.
  change (2 ^ 6) with 64. change (2 ^ 12) with 4096. change (2 ^ 18) with 262144.
  exists (r / 262144), ((r / 4096) mod 64), ((r / 64) mod 64), (r mod 64).
  Z.to_euclidean_division_equations. lia.
Qed.

Lemma decode_encode (r : Z) (rest : gostring) :
  valid_rune r →
  utf8.DecodeRuneInString (utf8.EncodeRune r ++ rest) = (r, length (utf8.EncodeRune r))
  ∧ (r ≠ utf8.RuneError ∨ length (utf8.EncodeRune r) ≠ 1%nat)
  ∧ utf8.EncodeRune r ≠ [].
Proof.
  unfold valid_rune, utf8.MaxRune, utf8.surrogateMin, utf8.surrogateMax.
  intros [Hr Hs].
  destruct (rune_digits r ltac:(lia))
    as (d18 & m18 & m12 & m6 & Hrd & Hd18 & Hm18 & Hm12 & Hm6 & L6 & L12 & L18 & S6 & S12 & S18).
  destruct (lor_marks m6 Hm6) as (X6 & _).
  destruct (lor_marks m12 Hm12) as (X12 & _).
  destruct (lor_marks m18 Hm18) as (X18 & _).
  unfold utf8.EncodeRune, utf8.rune1Max, utf8.rune2Max, utf8.rune3Max,
    utf8.MaxRune, utf8.surrogateMin, utf8.surrogateMax, utf8.RuneError.
  destruct (decide (r ≤ 0x7F)) as [H1|H1].
  { zcmp. cbn [andb app length]. rewrite DecodeRuneInString_ascii
      by (rewrite byte_val_byte_of; lia).
    rewrite byte_val_byte_of by lia. repeat split; [left; lia|done]. }
  destruct (decide (r ≤ 0x7FF)) as [H2|H2].
  { zcmp. cbn [andb app length].
    rewrite L6, S6, X6.
    destruct (lor_marks (4096 * d18 + 64 * m18 + m12) ltac:(lia)) as (_ & T2 & _).
    rewrite T2 by lia.
    rewrite DecodeRuneInString_lead by (rewrite byte_val_byte_of; lia).
    unfold decode_lead. rewrite !byte_val_byte_of by lia.
    unfold accept_lo, accept_hi, lead_size. zcmp. cbn [orb].
    repeat split; [f_equal; lia|right; lia|done]. }
  destruct (decide (r ≤ 0xFFFF)) as [H3|H3].
  { zcmp. cbn [andb orb app length].
    replace ((55296 <=? r) && (r <=? 57343)) with false
      by (symmetry; apply andb_false_iff;
          destruct (decide (r < 55296)); [left; apply Z.leb_gt|right; apply Z.leb_gt]; lia).
    cbn [app length].
    rewrite L6, L12, S12, X6, X12.
    destruct (lor_marks (64 * d18 + m18) ltac:(lia)) as (_ & _ & T3 & _).
    rewrite T3 by lia.
    rewrite DecodeRuneInString_lead by (rewrite byte_val_byte_of; lia).
    unfold decode_lead, cont_fails, utf8.locb, utf8.hicb. rewrite !byte_val_byte_of by lia.
    unfold accept_lo, accept_hi, lead_size.
    assert (m18 = 0 ∨ m18 = 13 ∨ (m18 ≠ 0 ∧ m18 ≠ 13)) as [Hc|[Hc|Hc]] by lia;
      zcmp; cbn [orb]; (repeat split; [f_equal; lia|right; lia|done]). }
  zcmp. cbn [andb orb app length].
  replace ((55296 <=? r) && (r <=? 57343)) with false
    by (symmetry; apply andb_false_iff; right; apply Z.leb_gt; lia).
  cbn [app length].
  rewrite L6, L12, L18, S18, X6, X12, X18.
  destruct (lor_marks d18 ltac:(lia)) as (_ & _ & _ & T4).
  rewrite T4 by lia.
  rewrite DecodeRuneInString_lead by (rewrite byte_val_byte_of; lia).
  unfold decode_lead, cont_fails, utf8.locb, utf8.hicb. rewrite !byte_val_byte_of by lia.
  unfold accept_lo, accept_hi, lead_size.
  assert (d18 = 0 ∨ d18 = 4 ∨ (d18 ≠ 0 ∧ d18 ≠ 4)) as [Hc|[Hc|Hc]] by lia;
    zcmp; cbn [orb]; (repeat split; [f_equal; lia|right; lia|done]).
Qed.

Lemma EncodeRune_invalid (r : Z) :
  0 ≤ r → ¬ valid_rune r → utf8.EncodeRune r = utf8.EncodeRune utf8.RuneError.
Proof.
  unfold valid_rune, utf8.MaxRune, utf8.surrogateMin, utf8.surrogateMax.
  intros Hr Hinv.
  unfold utf8.EncodeRune at 1. unfold utf8.rune1Max, utf8.rune2Max, utf8.rune3Max,
    utf8.MaxRune, utf8.surrogateMin, utf8.surrogateMax.
  assert (1114111 < r ∨ 55296 ≤ r ≤ 57343) as [H|H] by lia.
  - zcmp. reflexivity.
  - zcmp. reflexivity.
Qed.

Lemma DecodeRuneInString_nonneg (s : gostring) (c : Z) (w : nat) :
  utf8.DecodeRuneInString s = (c, w) → 0 ≤ c.
Proof.
  destruct s as [|c0 t]; [by intros [= <- <-]|].
  pose proof (byte_val_range c0) as Hr0.
  pose proof (first_lead _ Hr0) as Hf.
  destruct (utf8.as_ <=? utf8.first (byte_val c0)) eqn:Eas.
  - unfold utf8.DecodeRuneInString. rewrite Eas. intros [= <- _].
    destruct (Z.odd _); [done|lia].
  - destruct Hf as (Hlead & _). rewrite DecodeRuneInString_lead by done.
    unfold decode_lead.
    pose proof (accept_bounds (byte_val c0)) as Hacc.
    assert (((lead_size (byte_val c0) <=? 2) = false → 224 ≤ byte_val c0)
            ∧ ((lead_size (byte_val c0) <=? 3) = false → 240 ≤ byte_val c0)) as [Hs2 Hs3]
      by (unfold lead_size; repeat case_match; zbool; lia).
    unfold cont_fails, utf8.locb.
    repeat case_match; intros [= <- _]; try done;
      repeat match goal with
      | H : _ || _ = false |- _ => apply orb_false_iff in H as [? ?]
      end; zbool; lia.
Qed.

Lemma EncodeRune_nonempty (r : Z) : utf8.EncodeRune r ≠ [].
Proof. unfold utf8.EncodeRune. by repeat case_match. Qed.

Lemma EncodeRune_ascii (r : Z) :
  0 ≤ r < utf8.RuneSelf → utf8.EncodeRune r = [byte_of r].
Proof.
  unfold utf8.RuneSelf, utf8.EncodeRune, utf8.rune1Max. intros Hr. by zcmp.
Qed.

Lemma find_none_Forall {A} (f : A → bool) (l : list A) :
  Forall (λ x, f x = false) l → List.find f l = None.
Proof. induction 1 as [|x l Hx _ IH]; [done|]. cbn [List.find]. by rewrite Hx. Qed.

(** ** Lower-casing twice *)

Section CaseFold.
Variable caseLower : Z → Z.
Local Abbreviation L := (unicode.ToLower caseLower).

(** The encoding of one rune that [L] leaves as it is. *)
Definition lower_rune (b : gostring) : Prop :=
  ∃ c, utf8.DecodeRuneInString b = (c, length b) ∧ b ≠ []
       ∧ (c ≠ utf8.RuneError ∨ length b ≠ 1%nat) ∧ L c = c.

(** A string made of such encodings. *)
Inductive lower_fixed : gostring → Prop :=
| lower_fixed_nil : lower_fixed []
| lower_fixed_app (b t : gostring) :
    lower_rune b → lower_fixed t → lower_fixed (b ++ t).

Lemma lower_rune_decode (b rest : gostring) (c : Z) :
  utf8.DecodeRuneInString b = (c, length b) → b ≠ [] →
  c ≠ utf8.RuneError ∨ length b ≠ 1%nat →
  utf8.DecodeRuneInString (b ++ rest) = (c, length b).
Proof.
  intros Hdec Hne Hok.
  pose proof (DecodeRuneInString_prefix b c (length b) rest Hdec Hne Hok) as H.
  by rewrite firstn_all in H.
Qed.

Lemma lower_fixed_one (b : gostring) : lower_rune b → lower_fixed b.
Proof.
  intros Hb. rewrite <- (app_nil_r b). apply lower_fixed_app; [done|constructor].
Qed.

Lemma lower_fixed_concat (a b : gostring) :
  lower_fixed a → lower_fixed b → lower_fixed (a ++ b).
Proof.
  induction 1 as [|x t Hx _ IH]; intros Hb; [done|].
  rewrite <- app_assoc. apply lower_fixed_app; [done|by apply IH].
Qed.

Lemma lower_fixed_unchanged (t : gostring) :
  lower_fixed t → ∀ (p : gostring) (fuel : nat),
  Forall (λ ic, strings.Map_changed L (p ++ t) ic = false)
    (utf8.range_from fuel (length p) t).
Proof.
  induction 1 as [|b t (c & Hdec & Hne & Hok & HL) _ IH]; intros p fuel.
  { destruct fuel; constructor. }
  destruct fuel as [|n]; [constructor|].
  pose proof (lower_rune_decode b t c Hdec Hne Hok) as Hd.
  destruct b as [|c0 b']; [done|]. clear Hne.
  change ((c0 :: b') ++ t) with (c0 :: (b' ++ t)) in *.
  cbn [utf8.range_from]. rewrite Hd.
  change (c0 :: (b' ++ t)) with ((c0 :: b') ++ t) in *.
  set (b := c0 :: b') in *. constructor.
  - unfold strings.Map_changed. rewrite HL, Z.eqb_refl.
    rewrite drop_app_length, Hd.
    destruct (c =? utf8.RuneError) eqn:Ec; cbn [negb andb]; [|done].
    apply Z.eqb_eq in Ec. destruct Hok as [Hok|Hok]; [done|].
    apply Nat.eqb_neq in Hok. by rewrite Hok, Z.eqb_refl.
  - rewrite drop_app_length.
    replace (length p + length b)%nat with (length (p ++ b)) by (by rewrite length_app).
    rewrite (app_assoc p b t). apply IH.
Qed.

Lemma Map_lower_fixed (t : gostring) : lower_fixed t → strings.Map L t = t.
Proof.
  intros Ht. unfold strings.Map, utf8.range.
  pose proof (find_none_Forall _ _ (lower_fixed_unchanged t Ht [] (length t))) as H.
  cbn [app length] in H. by rewrite H.
Qed.

Lemma lower_fixed_no_upper (t : gostring) :
  lower_fixed t →
  forallb (λ c, byte_val c <? utf8.RuneSelf) t = true →
  existsb (λ c, (65 <=? byte_val c) && (byte_val c <=? 90)) t = false.
Proof.
  induction 1 as [|b t (c & Hdec & Hne & Hok & HL) _ IH]; [done|].
  rewrite forallb_app, existsb_app. intros [Hb Ht]%andb_true_iff.
  rewrite (IH Ht), orb_false_r.
  destruct b as [|c0 b']; [done|]. cbn [forallb] in Hb.
  apply andb_true_iff in Hb as [Hc0 _]. apply Z.ltb_lt in Hc0.
  unfold utf8.RuneSelf in Hc0.
  rewrite DecodeRuneInString_ascii in Hdec by done.
  injection Hdec as <- Hlen. destruct b' as [|? ?]; [|done].
  cbn [existsb]. rewrite orb_false_r.
  revert HL. unfold unicode.ToLower, unicode.MaxASCII.
  replace (byte_val c0 <=? 127) with true by (symmetry; apply Z.leb_le; lia).
  destruct ((65 <=? byte_val c0) && (byte_val c0 <=? 90)); [lia|done].
Qed.

Lemma ToLower_lower_fixed (t : gostring) :
  lower_fixed t → strings.ToLower caseLower t = t.
Proof.
  intros Ht. unfold strings.ToLower.
  destruct (forallb _ t) eqn:Hascii.
  - by rewrite (lower_fixed_no_upper t Ht Hascii).
  - by apply Map_lower_fixed.
Qed.

Lemma ascii_lower_fixed (t : gostring) :
  forallb (λ c, byte_val c <? utf8.RuneSelf) t = true →
  existsb (λ c, (65 <=? byte_val c) && (byte_val c <=? 90)) t = false →
  lower_fixed t.
Proof.
  induction t as [|c t IH]; [constructor|]. cbn [forallb existsb].
  intros [Hc Ht]%andb_true_iff [Hu Hut]%orb_false_iff.
  apply Z.ltb_lt in Hc. unfold utf8.RuneSelf in Hc.
  change (c :: t) with ([c] ++ t). apply lower_fixed_app; [|by apply IH].
  exists (byte_val c). rewrite DecodeRuneInString_ascii by done.
  repeat split; [done|left; unfold utf8.RuneError; lia|].
  unfold unicode.ToLower, unicode.MaxASCII. rewrite Hu.
  by replace (byte_val c <=? 127) with true by (symmetry; apply Z.leb_le; lia).
Qed.

Lemma unchanged_lower_fixed (fuel : nat) : ∀ (p t : gostring),
  (length t ≤ fuel)%nat →
  match List.find (strings.Map_changed L (p ++ t))
          (utf8.range_from fuel (length p) t) with
  | None => lower_fixed t
  | Some (i, c) => ∃ j, i = (length p + j)%nat ∧ lower_fixed (take j t)
  end.
Proof.
  induction fuel as [|n IH]; intros p t Hlen.
  { destruct t; [constructor|cbn [length] in Hlen; lia]. }
  destruct t as [|c0 t']; [constructor|].
  cbn [utf8.range_from].
  destruct (utf8.DecodeRuneInString (c0 :: t')) as [c w] eqn:Hdec.
  pose proof (DecodeRuneInString_width _ _ _ Hdec ltac:(done)) as Hw.
  cbn [List.find].
  destruct (strings.Map_changed L (p ++ c0 :: t') (length p, c)) eqn:E.
  { exists 0%nat. split; [lia|]. rewrite take_0. constructor. }
  set (t := c0 :: t') in *.
  assert (lower_rune (take w t)) as Hrune.
  { revert E. unfold strings.Map_changed. rewrite drop_app_length, Hdec.
    intros E. exists c.
    assert (length (take w t) = w) as Hlw by (rewrite length_take; lia).
    rewrite Hlw.
    assert (L c = c ∧ (c ≠ utf8.RuneError ∨ w ≠ 1%nat)) as [HL Hok].
    { destruct (L c =? c) eqn:E1; destruct (c =? utf8.RuneError) eqn:E2;
        cbn [negb andb] in E; try done; zbool.
      - split; [done|right]. destruct (w =? 1)%nat eqn:E3; [done|].
        by apply Nat.eqb_neq in E3.
      - by split; [|left].
      - destruct (w =? 1)%nat; done. }
    pose proof (DecodeRuneInString_prefix t c w [] Hdec ltac:(done) Hok) as Hp.
    rewrite app_nil_r in Hp. repeat split; [done| |done|done].
    intros Hnil. rewrite Hnil in Hlw. cbn [length] in Hlw. lia. }
  specialize (IH (p ++ take w t) (drop w t)).
  rewrite <- app_assoc, take_drop, length_app, length_take in IH.
  replace (length p + w `min` length t)%nat with (length p + w)%nat in IH by lia.
  specialize (IH ltac:(rewrite length_drop; cbn [length] in *; lia)).
  destruct (List.find _ _) as [[i c']|].
  - destruct IH as (j & -> & Hj). exists (w + j)%nat. split; [lia|].
    rewrite <- take_take_drop. by apply lower_fixed_concat; [apply lower_fixed_one|].
  - rewrite <- (take_drop w t). by apply lower_fixed_app.
Qed.

Hypothesis L_idem : ∀ r, L (L r) = L r.
Hypothesis L_error : L utf8.RuneError = utf8.RuneError.

Lemma EncodeRune_lower_fixed (c : Z) :
  0 ≤ L c → lower_fixed (utf8.EncodeRune (L c)).
Proof.
  intros Hr.
  assert (valid_rune (L c) ∨ ¬ valid_rune (L c)) as [Hv|Hv]
    by (unfold valid_rune, utf8.MaxRune, utf8.surrogateMin, utf8.surrogateMax; lia).
  - apply lower_fixed_one. exists (L c).
    destruct (decode_encode (L c) [] Hv) as (Hdec & Hok & Hne).
    rewrite app_nil_r in Hdec. by repeat split.
  - rewrite (EncodeRune_invalid _ Hr Hv).
    assert (valid_rune utf8.RuneError) as Hve by (vm_compute; intuition congruence).
    apply lower_fixed_one. exists utf8.RuneError.
    destruct (decode_encode utf8.RuneError [] Hve) as (Hdec & Hok & Hne).
    rewrite app_nil_r in Hdec. by repeat split.
Qed.

Lemma Map_rest_lower_fixed (s : gostring) : lower_fixed (strings.Map_rest L s).
Proof.
  unfold strings.Map_rest. induction (utf8.range s) as [|[i c] l IH]; [constructor|].
  cbn [flat_map snd]. apply lower_fixed_concat; [|done].
  destruct (0 <=? L c) eqn:E0; [|constructor]. apply Z.leb_le in E0.
  destruct (L c <? utf8.RuneSelf) eqn:E1; [|by apply EncodeRune_lower_fixed].
  apply Z.ltb_lt in E1. rewrite <- EncodeRune_ascii by done.
  by apply EncodeRune_lower_fixed.
Qed.

Lemma Map_is_lower_fixed (s : gostring) : lower_fixed (strings.Map L s).
Proof.
  unfold strings.Map, utf8.range.
  pose proof (unchanged_lower_fixed (length s) [] s ltac:(done)) as H.
  cbn [app length] in H.
  destruct (List.find _ _) as [[i c]|]; [|done].
  destruct H as (j & -> & Hj). cbn [Nat.add].
  apply lower_fixed_concat; [done|]. apply lower_fixed_concat.
  - destruct (0 <=? L c) eqn:E0; [|constructor]. apply Z.leb_le in E0.
    by apply EncodeRune_lower_fixed.
  - apply Map_rest_lower_fixed.
Qed.

Lemma ToLower_is_lower_fixed (s : gostring) :
  lower_fixed (strings.ToLower caseLower s).
Proof.
  unfold strings.ToLower.
  destruct (forallb _ s) eqn:Hascii; [|apply Map_is_lower_fixed].
  destruct (existsb _ s) eqn:Hupper; cbn [negb]; [|by apply ascii_lower_fixed].
  clear Hupper. apply ascii_lower_fixed.
  - induction s as [|c s IH]; [done|]. cbn [forallb] in Hascii.
    apply andb_true_iff in Hascii as [Hc Hs]. cbn [map forallb].
    rewrite (IH Hs), andb_true_r.
    destruct ((65 <=? byte_val c) && (byte_val c <=? 90)) eqn:E; [|done].
    apply andb_true_iff in E as [E1 E2]. zbool.
    rewrite byte_val_byte_of by lia. apply Z.ltb_lt. unfold utf8.RuneSelf. lia.
  - clear Hascii. induction s as [|c s IH]; [done|]. cbn [map existsb].
    rewrite IH, orb_false_r.
    destruct ((65 <=? byte_val c) && (byte_val c <=? 90)) eqn:E; [|done].
    apply andb_true_iff in E as [E1 E2]. zbool.
    rewrite byte_val_byte_of by lia. apply andb_false_iff. right.
    apply Z.leb_gt. lia.
Qed.

(** [strings.ToLower] leaves its own results as they are. *)
Lemma ToLower_idempotent (s : gostring) :
  strings.ToLower caseLower (strings.ToLower caseLower s)
  = strings.ToLower caseLower s.
Proof. apply ToLower_lower_fixed, ToLower_is_lower_fixed. Qed.

End CaseFold.

(** ** extractKeywords: what the list holds, and in which order *)

(** X1: The keywords are pairwise distinct; a string is a keyword exactly when
    it is not empty and is a word of the function name or the lower-case
    form of a comment token of more than one byte. *)
Theorem extractKeywords_members (caseLower : Z → Z) (funcName : gostring)
    (comments : list gostring) :
  NoDup (extractKeywords caseLower funcName comments)
  ∧ ∀ kw, kw ∈ extractKeywords caseLower funcName comments ↔
      kw ≠ []
      ∧ (kw ∈ splitCamelCase caseLower funcName
         ∨ ∃ word, word ∈ strings.Fields (strings.Join comments (bytes " "))
                   ∧ (1 < length word)%nat
                   ∧ kw = strings.ToLower caseLower word).
Proof.
  rewrite extractKeywords_first_occurrences. split; [apply first_occurrences_NoDup|].
  intros kw. rewrite first_occurrences_elem. unfold keyword_candidates.
  rewrite elem_of_app, list_elem_of_fmap.
  split.
  - intros ([Hkw|(word & -> & Hw)] & _ & Hne); (split; [done|]); [by left|right].
    apply list_elem_of_In, filter_In in Hw as [Hw Hlen].
    exists word. rewrite <- list_elem_of_In in Hw. apply Nat.ltb_lt in Hlen. done.
  - intros (Hne & [Hkw|(word & Hw & Hlen & ->)]); (split; [|split; [set_solver|done]]);
      [by left|right].
    exists word. split; [done|]. apply list_elem_of_In, filter_In.
    rewrite <- list_elem_of_In. split; [done|]. by apply Nat.ltb_lt.
Qed.

Lemma first_occurrences_order (l : list gostring) : ∀ (seen : list gostring)
    (i j : nat) (k1 k2 : gostring),
  (i < j)%nat →
  first_occurrences seen l !! i = Some k1 →
  first_occurrences seen l !! j = Some k2 →
  ∃ n, l !! n = Some k1 ∧ k2 ∉ take (S n) l.
Proof.
  induction l as [|x l IH]; intros seen i j k1 k2 Hij; cbn [first_occurrences]; [done|].
  destruct (bool_decide (x ∈ seen) || gostring_eqb x []) eqn:Hskip.
  - intros H1 H2.
    assert (k2 ≠ x) as Hne.
    { apply list_elem_of_lookup_2, first_occurrences_elem in H2 as (_ & Hns & Hnil).
      apply orb_true_iff in Hskip as [Hs|Hs].
      - apply bool_decide_eq_true in Hs. by intros ->.
      - apply gostring_eqb_eq in Hs. by intros ->. }
    destruct (IH seen i j k1 k2 Hij H1 H2) as (n & Hn & Hk2).
    exists (S n). split; [done|]. cbn [take]. rewrite not_elem_of_cons. done.
  - destruct j as [|j]; [lia|]. cbn [lookup list_lookup]. intros H1 H2.
    assert (k2 ≠ x) as Hne.
    { apply list_elem_of_lookup_2, first_occurrences_elem in H2 as (_ & Hns & _).
      intros ->. apply Hns. by left. }
    destruct i as [|i].
    + injection H1 as <-. exists 0%nat. split; [done|]. cbn [take].
      rewrite not_elem_of_cons. split; [done|apply not_elem_of_nil].
    + cbn [lookup list_lookup] in H1.
      destruct (IH (x :: seen) i j k1 k2 ltac:(lia) H1 H2) as (n & Hn & Hk2).
      exists (S n). split; [done|]. cbn [take]. rewrite not_elem_of_cons. done.
Qed.

(** X2: The keywords come in the order in which they are first seen: the
    list is a subsequence of the words of the function name followed by
    the lower-cased comment tokens, and of two keywords the earlier one
    occurs in that sequence before every occurrence of the later one. *)
Theorem extractKeywords_first_seen_order (caseLower : Z → Z) (funcName : gostring)
    (comments : list gostring) (i j : nat) (k1 k2 : gostring) :
  (i < j)%nat →
  extractKeywords caseLower funcName comments !! i = Some k1 →
  extractKeywords caseLower funcName comments !! j = Some k2 →
  sublist (extractKeywords caseLower funcName comments)
          (keyword_candidates caseLower funcName comments)
  ∧ ∃ n, keyword_candidates caseLower funcName comments !! n = Some k1
         ∧ k2 ∉ take (S n) (keyword_candidates caseLower funcName comments).
Proof.
  rewrite extractKeywords_first_occurrences. intros Hij H1 H2.
  split; [apply first_occurrences_sublist|].
  by apply (first_occurrences_order _ [] i j).
Qed.

Lemma extractKeywords_first_seen_order_witness :
  sublist (extractKeywords demo_caseLower (bytes "MovePlayer")
             [bytes "Moves the player to a Player spawn"])
          (keyword_candidates demo_caseLower (bytes "MovePlayer")
             [bytes "Moves the player to a Player spawn"])
  ∧ ∃ n, keyword_candidates demo_caseLower (bytes "MovePlayer")
           [bytes "Moves the player to a Player spawn"] !! n = Some (bytes "player")
         ∧ bytes "the" ∉ take (S n) (keyword_candidates demo_caseLower (bytes "MovePlayer")
                                       [bytes "Moves the player to a Player spawn"]).
Proof.
  apply (extractKeywords_first_seen_order demo_caseLower (bytes "MovePlayer")
           [bytes "Moves the player to a Player spawn"] 1 3);
    [lia|vm_compute; reflexivity|vm_compute; reflexivity].
Defined.

(** The words of [splitCamelCase] are results of [strings.ToLower]. *)
Lemma splitCamelCase_lowered (caseLower : Z → Z) (s : gostring) (word : gostring) :
  word ∈ splitCamelCase caseLower s → ∃ u, word = strings.ToLower caseLower u.
Proof.
  unfold splitCamelCase.
  assert (∀ l words cur,
    (∀ x, x ∈ words → ∃ u, x = strings.ToLower caseLower u) →
    ∀ x, x ∈ (fold_left (splitCamelCase_step caseLower) l (words, cur)).1 →
         ∃ u, x = strings.ToLower caseLower u) as Hfold.
  { induction l as [|[i r] l IH]; intros words cur Hw; [done|].
    cbn [fold_left splitCamelCase_step].
    destruct ((0 <? i)%nat && (65 <=? r) && (r <=? 90)); [|by apply IH].
    destruct (0 <? length cur)%nat; [|by apply IH].
    apply IH. intros x [Hx|Hx]%elem_of_app; [by apply Hw|].
    apply list_elem_of_singleton in Hx as ->. by eexists. }
  specialize (Hfold (utf8.range s) [] []).
  destruct (fold_left _ _ _) as [words cur]. cbn [fst] in Hfold.
  assert (∀ x, x ∈ words → ∃ u, x = strings.ToLower caseLower u) as Hwords.
  { apply Hfold. intros x Hx. by apply elem_of_nil in Hx. }
  destruct (0 <? length cur)%nat; [|by apply Hwords].
  intros [Hx|Hx]%elem_of_app; [by apply Hwords|].
  apply list_elem_of_singleton in Hx as ->. by eexists.
Qed.

(** A lower-case table for the letters of Latin-1 and the Kelvin sign,
    which lower-cases to an ASCII letter. *)
Definition demo_latin1_caseLower (r : Z) : Z :=
  if (0xC0 <=? r) && (r <=? 0xDE) && negb (r =? 0xD7) then r + 32
  else if r =? 0x212A then 0x6B
  else r.

Lemma demo_latin1_caseLower_idempotent (r : Z) :
  unicode.ToLower demo_latin1_caseLower (unicode.ToLower demo_latin1_caseLower r)
  = unicode.ToLower demo_latin1_caseLower r.
Proof.
  unfold unicode.ToLower, demo_latin1_caseLower, unicode.MaxASCII.
  repeat case_match; zbool; try lia;
    repeat match goal with
    | H : _ && _ = true |- _ => apply andb_true_iff in H as [? ?]
    | H : _ && _ = false |- _ => apply andb_false_iff in H as [?|?]
    | H : negb _ = true |- _ => apply negb_true_iff in H
    | H : negb _ = false |- _ => apply negb_false_iff in H
    end; zbool; lia.
Qed.

(** X3: Case-insensitive de-duplication. Provided the lower-case table of
    package [unicode] maps its own results and the replacement character
    to themselves, every keyword is its own lower-case form, and no two
    entries of the list are equal after lower-casing. *)
Theorem extractKeywords_case_insensitive (caseLower : Z → Z) (funcName : gostring)
    (comments : list gostring) :
  (∀ r, unicode.ToLower caseLower (unicode.ToLower caseLower r)
        = unicode.ToLower caseLower r) →
  unicode.ToLower caseLower utf8.RuneError = utf8.RuneError →
  (∀ kw, kw ∈ extractKeywords caseLower funcName comments →
         strings.ToLower caseLower kw = kw)
  ∧ (∀ i j a b,
       extractKeywords caseLower funcName comments !! i = Some a →
       extractKeywords caseLower funcName comments !! j = Some b →
       strings.ToLower caseLower a = strings.ToLower caseLower b → i = j).
Proof.
  intros Hidem Herr.
  assert (∀ kw, kw ∈ extractKeywords caseLower funcName comments →
                strings.ToLower caseLower kw = kw) as Hfix.
  { intros kw Hkw. rewrite extractKeywords_first_occurrences in Hkw.
    apply first_occurrences_elem in Hkw as (Hkw & _). unfold keyword_candidates in Hkw.
    apply elem_of_app in Hkw as [(u & ->)%splitCamelCase_lowered|Hkw].
    - by apply ToLower_idempotent.
    - apply list_elem_of_fmap in Hkw as (word & -> & _). by apply ToLower_idempotent. }
  split; [done|]. intros i j a b Ha Hb Hab.
  rewrite (Hfix a), (Hfix b) in Hab by (by eapply list_elem_of_lookup_2).
  subst b.
  eapply NoDup_lookup; [|done..].
  rewrite extractKeywords_first_occurrences. apply first_occurrences_NoDup.
Qed.

Lemma extractKeywords_case_insensitive_witness :
  (∀ kw, kw ∈ extractKeywords demo_latin1_caseLower (bytes "MoveÀLaCarte")
                [bytes "Moves à la carte, 300 K"; bytes "MOVES À LA CARTE"] →
         strings.ToLower demo_latin1_caseLower kw = kw)
  ∧ (∀ i j a b,
       extractKeywords demo_latin1_caseLower (bytes "MoveÀLaCarte")
         [bytes "Moves à la carte, 300 K"; bytes "MOVES À LA CARTE"] !! i = Some a →
       extractKeywords demo_latin1_caseLower (bytes "MoveÀLaCarte")
         [bytes "Moves à la carte, 300 K"; bytes "MOVES À LA CARTE"] !! j = Some b →
       strings.ToLower demo_latin1_caseLower a = strings.ToLower demo_latin1_caseLower b →
       i = j).
Proof.
  apply (extractKeywords_case_insensitive demo_latin1_caseLower).
  - apply demo_latin1_caseLower_idempotent.
  - vm_compute. reflexivity.
Defined.

(** ** extractKeywords: the invariants of the keyword list *)



(** The keywords of a name and two comments: "a" is dropped, "ab" is
    kept, and "MOVES" adds nothing to "moves". *)
Example extractKeywords_demo :
  extractKeywords demo_latin1_caseLower (bytes "MovePlayer")
    [bytes "Moves a player ab"; bytes "MOVES À"]
  = [bytes "move"; bytes "player"; bytes "moves"; bytes "ab"; bytes "à"].
Proof. vm_compute. reflexivity. Qed.


(** C6: the keywords are a function of the function name and the
    comments alone, and so is their order: the list is the sequence of
    the first occurrences of the non-empty candidates, the words of the
    name followed by the lower-cased comment tokens of more than one
    byte, in the order of that sequence. Two calls with the same name
    and the same comments return the same keywords in the same order. *)
Theorem extractKeywords_deterministic (caseLower : Z → Z) (funcName : gostring)
    (comments : list gostring) :
  extractKeywords caseLower funcName comments
  = first_occurrences []
      (splitCamelCase caseLower funcName
       ++ map (strings.ToLower caseLower)
            (List.filter (λ word, (1 <? length word)%nat)
               (strings.Fields (strings.Join comments (bytes " ")))))
  ∧ ∀ funcName' comments',
      funcName' = funcName → comments' = comments →
      extractKeywords caseLower funcName' comments'
      = extractKeywords caseLower funcName comments.
Proof.
  split; [apply extractKeywords_first_occurrences|].
  by intros funcName' comments' -> ->.
Qed.

(** ** splitCamelCase *)

(** The test that starts a new word: an upper-case ASCII letter that is
    not at the first position. *)
Definition camel_boundary (ir : nat * Z) : bool :=
  (0 <? ir.1)%nat && (65 <=? ir.2) && (ir.2 <=? 90).

Lemma splitCamelCase_fold_count (caseLower : Z → Z) (l : list (nat * Z)) :
  ∀ (words : list gostring) (cur : gostring),
  cur ≠ [] →
  (fold_left (splitCamelCase_step caseLower) l (words, cur)).2 ≠ []
  ∧ length (fold_left (splitCamelCase_step caseLower) l (words, cur)).1
    = (length words + length (List.filter camel_boundary l))%nat.
Proof.
  induction l as [|[i r] l IH]; intros words cur Hcur; cbn [fold_left List.filter].
  { cbn [fst snd length]. split; [done|lia]. }
  unfold splitCamelCase_step at 2 4. unfold camel_boundary at 1. cbn [fst snd].
  assert ((0 <? length cur)%nat = true) as Hlen.
  { apply Nat.ltb_lt. destruct cur; [done|cbn [length]; lia]. }
  rewrite Hlen.
  destruct ((0 <? i)%nat && (65 <=? r) && (r <=? 90)).
  - destruct (IH (words ++ [strings.ToLower caseLower cur]) ([] ++ utf8.EncodeRune r))
      as [IH1 IH2]; [cbn [app]; apply EncodeRune_nonempty|].
    split; [done|]. rewrite IH2, length_app. cbn [length]. lia.
  - destruct (IH words (cur ++ utf8.EncodeRune r)) as [IH1 IH2].
    { intros [? _]%app_eq_nil. done. }
    done.
Qed.

(** X4: The number of words of a name: none for the empty name; otherwise one
    more than the number of upper-case ASCII letters after its first
    position. *)
Theorem splitCamelCase_count (caseLower : Z → Z) (s : gostring) :
  length (splitCamelCase caseLower s)
  = match s with
    | [] => 0%nat
    | _ :: _ => S (length (List.filter camel_boundary (utf8.range s)))
    end.
Proof.
  unfold splitCamelCase. destruct s as [|c t]; [reflexivity|].
  unfold utf8.range. cbn [length utf8.range_from].
  destruct (utf8.DecodeRuneInString (c :: t)) as [r w].
  cbn [fold_left List.filter]. unfold splitCamelCase_step at 2. cbn [Nat.ltb Nat.leb andb].
  unfold camel_boundary at 1. cbn [fst Nat.ltb Nat.leb andb app].
  destruct (splitCamelCase_fold_count caseLower
              (utf8.range_from (length t) (0 + w) (drop w (c :: t))) [] (utf8.EncodeRune r))
    as [Hcur Hlen]; [apply EncodeRune_nonempty|].
  destruct (fold_left _ _ _) as [words cur]. cbn [fst snd] in Hcur, Hlen.
  destruct cur as [|x cur]; [done|]. cbn [length].
  rewrite length_app, Hlen. cbn [length]. lia.
Qed.

(** *** ASCII names *)

Definition is_ascii (c : ascii) : bool := byte_val c <? utf8.RuneSelf.
Definition is_upper (c : ascii) : bool := (65 <=? byte_val c) && (byte_val c <=? 90).
Definition lower_byte (c : ascii) : ascii :=
  if is_upper c then byte_of (byte_val c + (97 - 65)) else c.

Lemma byte_of_byte_val (c : ascii) : byte_of (byte_val c) = c.
Proof.
  apply byte_val_inj. apply byte_val_byte_of, byte_val_range.
Qed.

Lemma ToLower_ascii (caseLower : Z → Z) (s : gostring) :
  forallb is_ascii s = true → strings.ToLower caseLower s = map lower_byte s.
Proof.
  intros Hs. unfold strings.ToLower. fold is_ascii. rewrite Hs.
  destruct (existsb _ s) eqn:Hu; cbn [negb]; [reflexivity|].
  clear Hs. induction s as [|c s IH]; [done|]. cbn [existsb] in Hu.
  apply orb_false_iff in Hu as [Hc Hu]. cbn [map]. rewrite <- (IH Hu).
  unfold lower_byte, is_upper. by rewrite Hc.
Qed.

Lemma lower_byte_not_upper (c : ascii) :
  is_ascii c = true → is_upper (lower_byte c) = false.
Proof.
  unfold is_ascii, lower_byte, is_upper, utf8.RuneSelf. intros Hc. apply Z.ltb_lt in Hc.
  pose proof (byte_val_range c) as Hr.
  destruct ((65 <=? byte_val c) && (byte_val c <=? 90)) eqn:E; [|done].
  apply andb_true_iff in E as [E1 E2]. zbool.
  rewrite byte_val_byte_of by lia. apply andb_false_iff. right. apply Z.leb_gt. lia.
Qed.

Lemma range_from_ascii (c : ascii) (t : gostring) (fuel i : nat) :
  is_ascii c = true →
  utf8.range_from (S fuel) i (c :: t) = (i, byte_val c) :: utf8.range_from fuel (i + 1) t.
Proof.
  unfold is_ascii, utf8.RuneSelf. intros Hc. apply Z.ltb_lt in Hc.
  cbn [utf8.range_from]. rewrite DecodeRuneInString_ascii by done. done.
Qed.

Lemma splitCamelCase_fold_ascii (caseLower : Z → Z) (s : gostring) :
  ∀ (fuel i : nat) (words : list gostring) (cur : gostring),
  (length s ≤ fuel)%nat → forallb is_ascii s = true → forallb is_ascii cur = true →
  ∃ words' cur',
    fold_left (splitCamelCase_step caseLower) (utf8.range_from fuel i s) (words, cur)
      = (words ++ words', cur')
    ∧ forallb is_ascii cur' = true
    ∧ concat words' ++ map lower_byte cur' = map lower_byte (cur ++ s)
    ∧ Forall (λ w, w ≠ [] ∧ existsb is_upper w = false) words'.
Proof.
  induction s as [|c s IH]; intros fuel i words cur Hfuel Hs Hcur.
  { exists [], cur. rewrite !app_nil_r.
    destruct fuel; cbn [utf8.range_from fold_left concat app]; auto. }
  destruct fuel as [|fuel]; [cbn [length] in Hfuel; lia|].
  cbn [forallb] in Hs. apply andb_true_iff in Hs as [Hc Hs].
  rewrite range_from_ascii by done. cbn [fold_left].
  unfold splitCamelCase_step at 2.
  assert (utf8.EncodeRune (byte_val c) = [c]) as ->.
  { rewrite EncodeRune_ascii, byte_of_byte_val; [done|].
    pose proof (byte_val_range c). unfold is_ascii in Hc. apply Z.ltb_lt in Hc. lia. }
  destruct ((0 <? i)%nat && (65 <=? byte_val c) && (byte_val c <=? 90)
            && (0 <? length cur)%nat) eqn:Hsplit.
  - apply andb_true_iff in Hsplit as [-> Hl]. rewrite Hl.
    destruct (IH fuel (i + 1)%nat (words ++ [strings.ToLower caseLower cur]) ([] ++ [c]))
      as (words' & cur' & Hfold & Hcur' & Hcat & Hwords);
      [cbn [length] in Hfuel; lia|done|by cbn; rewrite Hc|].
    exists (strings.ToLower caseLower cur :: words'), cur'.
    rewrite Hfold, <- app_assoc. split; [done|]. split; [done|].
    rewrite (ToLower_ascii _ _ Hcur). split.
    + cbn [concat]. rewrite <- app_assoc, Hcat, <- map_app. by rewrite <- app_assoc.
    + constructor; [|done]. split.
      * destruct cur; [discriminate Hl|discriminate].
      * clear -Hcur. induction cur as [|x cur IH]; [done|]. cbn [forallb] in Hcur.
        apply andb_true_iff in Hcur as [Hx Hcur]. cbn [map existsb].
        by rewrite (lower_byte_not_upper x Hx), (IH Hcur).
  - assert ((if (0 <? i)%nat && (65 <=? byte_val c) && (byte_val c <=? 90)
             then if (0 <? length cur)%nat
                  then (words ++ [strings.ToLower caseLower cur], [])
                  else (words, cur)
             else (words, cur)) = (words, cur)) as ->.
    { destruct ((0 <? i)%nat && (65 <=? byte_val c) && (byte_val c <=? 90)); [|done].
      cbn [andb] in Hsplit. by rewrite Hsplit. }
    destruct (IH fuel (i + 1)%nat words (cur ++ [c]))
      as (words' & cur' & Hfold & Hcur' & Hcat & Hwords);
      [cbn [length] in Hfuel; lia|done| |].
    { rewrite forallb_app, Hcur. cbn. by rewrite Hc. }
    exists words', cur'. rewrite Hfold. split; [done|]. split; [done|].
    split; [|done]. by rewrite Hcat, <- app_assoc.
Qed.

(** X5: For a name of ASCII characters only, the words put together are the
    lower-cased name, no word is empty, and no word has an upper-case
    letter. *)
Theorem splitCamelCase_ascii (caseLower : Z → Z) (s : gostring) :
  forallb is_ascii s = true →
  concat (splitCamelCase caseLower s) = strings.ToLower caseLower s
  ∧ Forall (λ w, w ≠ [] ∧ existsb is_upper w = false) (splitCamelCase caseLower s).
Proof.
  intros Hs. unfold splitCamelCase, utf8.range.
  destruct (splitCamelCase_fold_ascii caseLower s (length s) 0 [] [] ltac:(lia) Hs eq_refl)
    as (words & cur & -> & Hcur & Hcat & Hwords).
  cbn [app] in *. rewrite (ToLower_ascii _ _ Hs), <- Hcat.
  destruct cur as [|x cur]; cbn [length Nat.ltb Nat.leb].
  { cbn [map]. by rewrite app_nil_r. }
  rewrite concat_app. cbn [concat]. rewrite app_nil_r, (ToLower_ascii _ _ Hcur).
  split; [done|]. apply Forall_app. split; [done|]. constructor; [|constructor].
  split; [done|].
  clear -Hcur. revert Hcur. generalize (x :: cur). intros l.
  induction l as [|y l IH]; [done|]. cbn [forallb]. intros [Hy Hl]%andb_true_iff.
  cbn [map existsb]. by rewrite (lower_byte_not_upper y Hy), (IH Hl).
Qed.

Lemma splitCamelCase_ascii_witness :
  concat (splitCamelCase demo_caseLower (bytes "OnTriggerEnter2D"))
    = strings.ToLower demo_caseLower (bytes "OnTriggerEnter2D")
  ∧ Forall (λ w, w ≠ [] ∧ existsb is_upper w = false)
      (splitCamelCase demo_caseLower (bytes "OnTriggerEnter2D")).
Proof. apply (splitCamelCase_ascii demo_caseLower (bytes "OnTriggerEnter2D")). reflexivity. Defined.

(** ** Regular expressions: the submatches *)

(** The bodies of the groups numbered [i] of an expression. *)
Fixpoint group_bodies (re : regexp.Regexp) (i : nat) : list regexp.Regexp :=
  match re with
  | regexp.Cat a b | regexp.Alt a b => group_bodies a i ++ group_bodies b i
  | regexp.Star a => group_bodies a i
  | regexp.Group j a => (if (i =? j)%nat then [a] else []) ++ group_bodies a i
  | _ => []
  end.

(** The groups that take part in every match of the expression. *)
Fixpoint must_groups (re : regexp.Regexp) : list nat :=
  match re with
  | regexp.Cat a b => must_groups a ++ must_groups b
  | regexp.Group j a => j :: must_groups a
  | _ => []
  end.

Definition group_lang (re : regexp.Regexp) (i : nat) (t : gostring) : Prop :=
  ∃ a, a ∈ group_bodies re i ∧ lang a t.

(** What a match adds to the submatches: texts of the groups' languages,
    with an entry for every group that must take part. *)
Definition caps_ext (re : regexp.Regexp) (cs cs' : regexp.captures) : Prop :=
  ∃ new, cs' = new ++ cs
         ∧ Forall (λ it, group_lang re it.1 it.2) new
         ∧ ∀ i, i ∈ must_groups re → ∃ t, (i, t) ∈ new.

Lemma caps_ext_nil (re : regexp.Regexp) (cs : regexp.captures) :
  must_groups re = [] → caps_ext re cs cs.
Proof.
  intros Hm. exists []. split; [done|]. split; [constructor|].
  intros i. rewrite Hm. by intros ?%elem_of_nil.
Qed.

Lemma group_lang_mono (re re' : regexp.Regexp) (new : regexp.captures) :
  (∀ i, group_bodies re i ⊆ group_bodies re' i) →
  Forall (λ it, group_lang re it.1 it.2) new →
  Forall (λ it, group_lang re' it.1 it.2) new.
Proof.
  intros Hsub H. eapply Forall_impl; [exact H|]. intros [i t] (a & Ha & Hl). exists a.
  split; [by apply Hsub|done].
Qed.

Lemma run_caps {R : Type} (re : regexp.Regexp) :
  ∀ (bol : bool) (s : gostring) (cs : regexp.captures)
    (k : bool → gostring → regexp.captures → option R) (res : R),
    regexp.run re bol s cs k = Some res →
    ∃ w s' bol' cs',
      s = w ++ s' ∧ lang re w ∧ k bol' s' cs' = Some res ∧ caps_ext re cs cs'.
Proof.
  induction re as [|c|p|a IHa b IHb|a IHa b IHb|a IHa|i a IHa|];
    intros bol s cs k res; cbn [regexp.run lang].
  - intros H. exists [], s, bol, cs. repeat split; [done..|by apply caps_ext_nil].
  - destruct s as [|x s]; [done|]. destruct (byte_eqb x c) eqn:E; [|done].
    apply byte_eqb_eq in E as ->. intros H.
    exists [c], s, (byte_eqb c regexp.newline), cs.
    repeat split; [done..|by apply caps_ext_nil].
  - destruct s as [|x s]; [done|]. destruct (p x) eqn:E; [|done].
    intros H. exists [x], s, (byte_eqb x regexp.newline), cs.
    split; [done|]. split; [by exists x|]. split; [done|by apply caps_ext_nil].
  - intros (u & s1 & bol1 & cs1 & -> & Hu & Hb & (n1 & -> & Hn1 & Hm1))%IHa.
    apply IHb in Hb as (v & s2 & bol2 & cs2 & -> & Hv & Hk & (n2 & -> & Hn2 & Hm2)).
    exists (u ++ v), s2, bol2, (n2 ++ n1 ++ cs). split; [by rewrite app_assoc|].
    split; [by exists u, v|]. split; [done|].
    exists (n2 ++ n1). split; [by rewrite app_assoc|]. split.
    + apply Forall_app. split.
      * eapply group_lang_mono; [|exact Hn2]. intros j. cbn [group_bodies]. set_solver.
      * eapply group_lang_mono; [|exact Hn1]. intros j. cbn [group_bodies]. set_solver.
    + intros j. cbn [must_groups]. intros [Hj|Hj]%elem_of_app.
      * destruct (Hm1 j Hj) as [t Ht]. exists t. set_solver.
      * destruct (Hm2 j Hj) as [t Ht]. exists t. set_solver.
  - destruct (regexp.run a bol s cs k) as [r|] eqn:Ea.
    + intros [= ->].
      apply IHa in Ea as (w & s' & bol' & cs' & -> & Hw & Hk & (n & -> & Hn & _)).
      exists w, s', bol', (n ++ cs). split; [done|]. split; [by left|]. split; [done|].
      exists n. split; [done|]. split; [|by intros j ?%elem_of_nil].
      eapply group_lang_mono; [|exact Hn]. intros j. cbn [group_bodies]. set_solver.
    + intros (w & s' & bol' & cs' & -> & Hw & Hk & (n & -> & Hn & _))%IHb.
      exists w, s', bol', (n ++ cs). split; [done|]. split; [by right|]. split; [done|].
      exists n. split; [done|]. split; [|by intros j ?%elem_of_nil].
      eapply group_lang_mono; [|exact Hn]. intros j. cbn [group_bodies]. set_solver.
  - generalize (length s) as fuel. intros fuel. revert bol s cs.
    induction fuel as [|n IHn]; intros bol s cs.
    + intros H. exists [], s, bol, cs. split; [done|]. split; [by exists []|].
      split; [done|by apply caps_ext_nil].
    + match goal with
      | |- context [regexp.run a bol s cs ?k'] =>
        destruct (regexp.run a bol s cs k') as [r|] eqn:Ea
      end.
      * intros [= ->].
        apply IHa in Ea as (u & s1 & bol1 & cs1 & -> & Hu & Hk & (n1 & -> & Hn1 & _)).
        destruct (length s1 <? length (u ++ s1))%nat; [|done].
        apply IHn in Hk
          as (v & s2 & bol2 & cs2 & -> & (ws & -> & Hws) & Hk & (n2 & -> & Hn2 & _)).
        exists (u ++ concat ws), s2, bol2, (n2 ++ n1 ++ cs).
        split; [by rewrite app_assoc|].
        split; [exists (u :: ws); split; [done|by constructor]|]. split; [done|].
        exists (n2 ++ n1). split; [by rewrite app_assoc|].
        split; [|by intros j ?%elem_of_nil].
        apply Forall_app. split; [done|].
        eapply group_lang_mono; [|exact Hn1]. intros j. by cbn [group_bodies].
      * intros H. exists [], s, bol, cs. split; [done|]. split; [by exists []|].
        split; [done|by apply caps_ext_nil].
  - intros (w & s' & bol' & cs' & -> & Hw & Hk & (n & -> & Hn & Hm))%IHa.
    rewrite length_app, Nat.add_sub, take_app_length in Hk.
    exists w, s', bol', ((i, w) :: n ++ cs). split; [done|]. split; [done|].
    split; [done|]. exists ((i, w) :: n). split; [done|]. split.
    + constructor.
      * exists a. cbn [group_bodies fst snd]. rewrite Nat.eqb_refl. set_solver.
      * eapply group_lang_mono; [|exact Hn]. intros j. cbn [group_bodies]. set_solver.
    + intros j. cbn [must_groups]. intros [->|Hj]%elem_of_cons.
      * exists w. by left.
      * destruct (Hm j Hj) as [t Ht]. exists t. by right.
  - destruct bol; [|done]. intros H. exists [], s, true, cs.
    repeat split; [done..|by apply caps_ext_nil].
Qed.

Lemma capture_must (re : regexp.Regexp) (cs cs' : regexp.captures) (i : nat) :
  caps_ext re cs cs' → i ∈ must_groups re → group_lang re i (regexp.capture i cs').
Proof.
  intros (new & -> & Hnew & Hm) Hi. destruct (Hm i Hi) as [t Ht]. clear Hm Hi.
  induction new as [|[j u] new IH]; [by apply elem_of_nil in Ht|].
  apply Forall_cons in Hnew as [Hju Hnew]. cbn [app regexp.capture].
  destruct (i =? j)%nat eqn:E.
  - apply Nat.eqb_eq in E as ->. exact Hju.
  - apply IH; [done|]. apply elem_of_cons in Ht as [[= -> _]|Ht]; [|done].
    by rewrite Nat.eqb_refl in E.
Qed.

Lemma search_caps (re : regexp.Regexp) (s : gostring) :
  ∀ (bol : bool) (before : gostring) (m : regexp.Match),
    regexp.search re bol before s = Some m →
    lang re (regexp.m_text m) ∧ caps_ext re [] (regexp.m_caps m)
    ∧ ∃ pre, s = pre ++ regexp.m_text m ++ regexp.m_after m
             ∧ regexp.m_before m = before ++ pre.
Proof.
  assert (∀ bol before s m, regexp.match_at re bol before s = Some m →
            lang re (regexp.m_text m) ∧ caps_ext re [] (regexp.m_caps m)
            ∧ s = regexp.m_text m ++ regexp.m_after m
            ∧ regexp.m_before m = before) as Hat.
  { intros bol before s0 m (w & s' & bol' & cs' & -> & Hw & [= <-] & Hc)%run_caps.
    cbn [regexp.m_text regexp.m_caps regexp.m_after regexp.m_before].
    by rewrite length_app, Nat.add_sub, take_app_length. }
  induction s as [|c s IH]; intros bol before m; cbn [regexp.search].
  - destruct (regexp.match_at re bol before []) as [m'|] eqn:E; [|done].
    intros [= <-]. apply Hat in E as (Hl & Hc & Hs & Hb).
    split; [done|]. split; [done|]. exists []. by rewrite app_nil_r.
  - destruct (regexp.match_at re bol before (c :: s)) as [m'|] eqn:E.
    + intros [= <-]. apply Hat in E as (Hl & Hc & Hs & Hb).
      split; [done|]. split; [done|]. exists []. by rewrite app_nil_r.
    + intros (Hl & Hc & pre & -> & Hb)%IH. split; [done|]. split; [done|].
      exists (c :: pre). split; [done|]. by rewrite Hb, <- app_assoc.
Qed.

(** The submatch of a group that must take part in the match is a text
    of the language of the group. *)
Lemma FindStringSubmatch_group (re : regexp.Regexp) (s : gostring)
    (m : list gostring) (i : nat) :
  regexp.FindStringSubmatch re s = Some m →
  (1 ≤ i ≤ regexp.NumSubexp re)%nat → i ∈ must_groups re →
  group_lang re i (submatch m i).
Proof.
  unfold regexp.FindStringSubmatch.
  destruct (regexp.search re true [] s) as [m'|] eqn:E; [|done].
  intros [= <-] Hi Hmust. apply search_caps in E as (_ & Hc & _).
  unfold submatch. destruct i as [|i]; [lia|]. cbn [nth].
  rewrite (nth_indep _ [] (regexp.capture 0 (regexp.m_caps m')))
    by (rewrite length_map, length_seq; lia).
  rewrite (map_nth (λ i, regexp.capture i (regexp.m_caps m'))), seq_nth by lia.
  by apply (capture_must re []).
Qed.

Lemma lang_Plus_Class (p : ascii → bool) (t : gostring) :
  lang (regexp.Plus (regexp.Class p)) t → t ≠ [] ∧ Forall (λ c, p c = true) t.
Proof.
  cbn [regexp.Plus lang]. intros (u & v & -> & (c & -> & Hc) & ws & -> & Hws).
  split; [done|]. constructor; [done|].
  induction Hws as [|w ws (c' & -> & Hc') _ IH]; [constructor|].
  cbn [concat app]. by constructor.
Qed.

(** The name the declaration pattern captures is an identifier, its
    return type a non-empty text of word characters, angle and square
    brackets. *)
Lemma function_re_captures (line : gostring) (m : list gostring) :
  regexp.FindStringSubmatch function_re line = Some m →
  (submatch m 3 ≠ [] ∧ Forall (λ c, regexp.perl_w c = true) (submatch m 3))
  ∧ (submatch m 2 ≠ []
     ∧ Forall (λ c, regexp.perl_w c || regexp.one_of "<>[]" c = true) (submatch m 2)).
Proof.
  intros Hm. split.
  - pose proof (FindStringSubmatch_group function_re line m 3 Hm) as H.
    destruct H as (a & Ha & Hl); [vm_compute; lia|vm_compute; set_solver|].
    assert (group_bodies function_re 3 = [regexp.Plus w_]) as Hbodies
      by (vm_compute; reflexivity).
    rewrite Hbodies in Ha. apply list_elem_of_singleton in Ha as ->.
    by apply (lang_Plus_Class regexp.perl_w).
  - pose proof (FindStringSubmatch_group function_re line m 2 Hm) as H.
    destruct H as (a & Ha & Hl); [vm_compute; lia|vm_compute; set_solver|].
    assert (group_bodies function_re 2
            = [regexp.Plus (regexp.Class
                 (λ c, regexp.perl_w c || regexp.one_of "<>[]" c))]) as Hbodies
      by (vm_compute; reflexivity).
    rewrite Hbodies in Ha. apply list_elem_of_singleton in Ha as ->.
    by apply (lang_Plus_Class (λ c, regexp.perl_w c || regexp.one_of "<>[]" c)) in Hl.
Qed.

Lemma attribute_re_captures (s : gostring) (m : list gostring) :
  regexp.FindStringSubmatch attribute_re s = Some m →
  submatch m 1 ≠ [] ∧ Forall (λ c, regexp.perl_w c = true) (submatch m 1).
Proof.
  intros Hm.
  pose proof (FindStringSubmatch_group attribute_re s m 1 Hm) as H.
  destruct H as (a & Ha & Hl); [vm_compute; lia|vm_compute; set_solver|].
  assert (group_bodies attribute_re 1 = [regexp.Plus w_]) as Hbodies
    by (vm_compute; reflexivity).
  rewrite Hbodies in Ha. apply list_elem_of_singleton in Ha as ->.
  by apply (lang_Plus_Class regexp.perl_w).
Qed.

Lemma namespace_re_captures (s : gostring) (m : list gostring) :
  regexp.FindStringSubmatch namespace_re s = Some m →
  submatch m 1 ≠ []
  ∧ Forall (λ c, regexp.perl_w c || regexp.one_of "." c = true) (submatch m 1).
Proof.
  intros Hm.
  pose proof (FindStringSubmatch_group namespace_re s m 1 Hm) as H.
  destruct H as (a & Ha & Hl); [vm_compute; lia|vm_compute; set_solver|].
  assert (group_bodies namespace_re 1
          = [regexp.Plus (regexp.Class
               (λ c, regexp.perl_w c || regexp.one_of "." c))]) as Hbodies
    by (vm_compute; reflexivity).
  rewrite Hbodies in Ha. apply list_elem_of_singleton in Ha as ->.
  by apply (lang_Plus_Class (λ c, regexp.perl_w c || regexp.one_of "." c)) in Hl.
Qed.

Lemma class_re_captures (s : gostring) (m : list gostring) :
  regexp.FindStringSubmatch class_re s = Some m →
  submatch m 1 ≠ [] ∧ Forall (λ c, regexp.perl_w c = true) (submatch m 1).
Proof.
  intros Hm.
  pose proof (FindStringSubmatch_group class_re s m 1 Hm) as H.
  destruct H as (a & Ha & Hl); [vm_compute; lia|vm_compute; set_solver|].
  assert (group_bodies class_re 1 = [regexp.Plus w_]) as Hbodies
    by (vm_compute; reflexivity).
  rewrite Hbodies in Ha. apply list_elem_of_singleton in Ha as ->.
  by apply (lang_Plus_Class regexp.perl_w).
Qed.

(** ** ParseFile: what the line loop keeps *)

(** What a line adds to [currentComments], and to [currentAttributes]. *)
Definition line_comment (line : gostring) : list gostring :=
  let trimmed := strings.TrimSpace line in
  if is_annotation_line line then []
  else if strings.HasPrefix trimmed (bytes "///") then
    let comment :=
      cleanXMLTags (strings.TrimSpace (strings.TrimPrefix trimmed (bytes "///"))) in
    if negb (gostring_eqb comment []) then [comment] else []
  else if strings.HasPrefix trimmed (bytes "//") then
    let comment := strings.TrimSpace (strings.TrimPrefix trimmed (bytes "//")) in
    if negb (gostring_eqb comment []) && negb (strings.HasPrefix comment (bytes "/"))
    then [comment] else []
  else [].

Definition line_attribute (p : UnityParser) (line : gostring) : list gostring :=
  if is_annotation_line line then
    match regexp.FindStringSubmatch (attributeRegex p) (strings.TrimSpace line) with
    | Some match_ => [submatch match_ 1]
    | None => []
    end
  else [].

Section LineInvariants.
Variable caseLower : Z → Z.
Variable filepath_Rel : gostring → gostring → gostring.
Variable filepath_Base : gostring → gostring.

Local Abbreviation ParseFile_line' := (ParseFile_line caseLower filepath_Base).
Local Abbreviation ParseFile_lines' := (ParseFile_lines caseLower filepath_Base).
Local Abbreviation ParseFile' := (ParseFile caseLower filepath_Rel filepath_Base).

(** One iteration of the loop: either it emits a record made of the
    context, the line and the two accumulators, and empties them; or it
    emits nothing, and the accumulators grow by what the line adds or are
    emptied. *)
Lemma ParseFile_line_step (p : UnityParser) (ctx : FileContext) (st : ParseState)
    (line : gostring) :
  if emits_record p line then
    ∃ match_ fn,
      regexp.FindStringSubmatch (functionRegex p) line = Some match_
      ∧ ParseFile_line' p ctx st line = mkParseState (functions st ++ [fn]) [] []
      ∧ line_comment line = [] ∧ line_attribute p line = []
      ∧ FileName fn = filepath_Base (ctx_filePath ctx)
      ∧ FilePath fn = ctx_filePath ctx
      ∧ RelativePath fn = ctx_relativePath ctx
      ∧ Namespace fn = ctx_currentNamespace ctx
      ∧ ClassName fn = ctx_currentClass ctx
      ∧ FuncName fn = submatch match_ 3
      ∧ Signature fn = strings.TrimSpace line
      ∧ Comments fn = currentComments st
      ∧ Attributes fn = currentAttributes st
      ∧ Keywords fn = extractKeywords caseLower (FuncName fn) (Comments fn)
  else
    functions (ParseFile_line' p ctx st line) = functions st
    ∧ ((currentComments (ParseFile_line' p ctx st line)
          = currentComments st ++ line_comment line
        ∧ currentAttributes (ParseFile_line' p ctx st line)
          = currentAttributes st ++ line_attribute p line)
       ∨ (currentComments (ParseFile_line' p ctx st line) = []
          ∧ currentAttributes (ParseFile_line' p ctx st line) = []
          ∧ line_comment line = [] ∧ line_attribute p line = [])).
Proof.
  unfold ParseFile_line, emits_record, line_comment, line_attribute,
    is_annotation_line, is_comment_line, matches_declaration.
  destruct st as [fs cc ca]. cbn [functions currentComments currentAttributes].
  set (trimmed := strings.TrimSpace line).
  destruct (strings.HasPrefix trimmed (bytes "[") && strings.HasSuffix trimmed (bytes "]")) eqn:Ha.
  { cbn [negb andb].
    destruct (regexp.FindStringSubmatch (attributeRegex p) trimmed);
      cbn [functions currentComments currentAttributes];
      (split; [done|left]); by rewrite !app_nil_r. }
  destruct (strings.HasPrefix trimmed (bytes "///")) eqn:H3.
  { rewrite (HasPrefix_slashes _ H3). cbn [negb andb].
    destruct (negb (gostring_eqb _ [])); cbn [functions currentComments currentAttributes];
      (split; [done|left]); by rewrite !app_nil_r. }
  destruct (strings.HasPrefix trimmed (bytes "//")) eqn:H2.
  { cbn [negb andb].
    destruct (negb (gostring_eqb _ []) && negb (strings.HasPrefix _ (bytes "/")));
      cbn [functions currentComments currentAttributes];
      (split; [done|left]); by rewrite !app_nil_r. }
  cbn [negb andb].
  destruct (regexp.FindStringSubmatch (functionRegex p) line) as [match_|] eqn:Hm.
  - rewrite bool_decide_eq_true_2 by eauto.
    eexists match_, _. split; [done|]. split; [reflexivity|].
    cbn [FileName FilePath RelativePath Namespace ClassName FuncName Signature
         Comments Attributes Keywords]. done.
  - rewrite bool_decide_eq_false_2 by (by intros [? ?]).
    destruct (negb (gostring_eqb trimmed []) && true && negb (strings.HasPrefix trimmed (bytes "[")));
      [destruct (negb (strings.Contains trimmed (bytes "{"))
                 && negb (strings.Contains trimmed (bytes "}")))|];
      cbn [functions currentComments currentAttributes];
      (split; [done|]); first [by right | left; by rewrite !app_nil_r].
Qed.

Lemma ParseFile_fold_invariant (I : ParseState → list gostring → Prop)
    (p : UnityParser) (ctx : FileContext) :
  (∀ st seen line, I st seen → I (ParseFile_line' p ctx st line) (seen ++ [line])) →
  ∀ lines st seen, I st seen →
    I (fold_left (ParseFile_line' p ctx) lines st) (seen ++ lines).
Proof.
  intros Hstep. induction lines as [|line lines IH]; intros st seen Hst; cbn [fold_left].
  - by rewrite app_nil_r.
  - replace (seen ++ line :: lines) with ((seen ++ [line]) ++ lines)
      by (by rewrite <- app_assoc).
    by apply IH, Hstep.
Qed.

(** The fields of a record that are those of its file. *)
Lemma ParseFile_records_context (w : World) (p : UnityParser)
    (filePath rootPath : gostring) :
  Forall (λ r,
      FilePath r = filePath
      ∧ Namespace r
        = match regexp.FindStringSubmatch (namespaceRegex p) (os_ReadFile w filePath).1 with
          | Some match_ => submatch match_ 1
          | None => []
          end
      ∧ ClassName r
        = match regexp.FindStringSubmatch (classRegex p) (os_ReadFile w filePath).1 with
          | Some match_ => submatch match_ 1
          | None => []
          end)
    (ParseFile' w p filePath rootPath).1.
Proof.
  unfold ParseFile.
  destruct (os_ReadFile w filePath) as [content [e|]]; [constructor|].
  cbn [fst snd]. unfold ParseFile_lines.
  set (ctx := mkFileContext _ _ _ _).
  apply (ParseFile_fold_invariant
    (λ st _, Forall (λ r, FilePath r = ctx_filePath ctx
                          ∧ Namespace r = ctx_currentNamespace ctx
                          ∧ ClassName r = ctx_currentClass ctx) (functions st)) p ctx)
    with (seen := []) (st := mkParseState [] [] []); [|constructor].
  intros st _ line Hst.
  pose proof (ParseFile_line_step p ctx st line) as Hstep.
  destruct (emits_record p line).
  - destruct Hstep as (m & fn & _ & -> & _ & _ & _ & H2 & _ & H4 & H5 & _).
    cbn [functions]. apply Forall_app. split; [done|]. by repeat constructor.
  - destruct Hstep as [-> _]. done.
Qed.

(** X6: Every record of a file carries the path, the relative path, the base
    name, and the one name space and the one class name found in the whole
    text of that file; its signature is the trimmed text of a line of the
    file that the loop takes for a declaration, its name the third
    submatch of the declaration pattern on that line, and its keywords
    are derived from its own name and its own comments. *)
Theorem ParseFile_record_fields (w : World) (p : UnityParser)
    (filePath rootPath : gostring) :
  Forall (λ r,
      FilePath r = filePath
      ∧ FileName r = filepath_Base filePath
      ∧ RelativePath r = filepath_Rel rootPath filePath
      ∧ Namespace r
        = match regexp.FindStringSubmatch (namespaceRegex p) (os_ReadFile w filePath).1 with
          | Some match_ => submatch match_ 1
          | None => []
          end
      ∧ ClassName r
        = match regexp.FindStringSubmatch (classRegex p) (os_ReadFile w filePath).1 with
          | Some match_ => submatch match_ 1
          | None => []
          end
      ∧ Keywords r = extractKeywords caseLower (FuncName r) (Comments r)
      ∧ ∃ line match_,
          line ∈ file_lines w filePath
          ∧ emits_record p line = true
          ∧ regexp.FindStringSubmatch (functionRegex p) line = Some match_
          ∧ FuncName r = submatch match_ 3
          ∧ Signature r = strings.TrimSpace line)
    (ParseFile' w p filePath rootPath).1.
Proof.
  unfold ParseFile, file_lines.
  destruct (os_ReadFile w filePath) as [content [e|]]; [constructor|].
  cbn [fst snd]. unfold ParseFile_lines.
  set (ctx := mkFileContext _ _ _ _).
  set (ok := λ (seen : list gostring) (r : FunctionInfo),
    FilePath r = ctx_filePath ctx
    ∧ FileName r = filepath_Base (ctx_filePath ctx)
    ∧ RelativePath r = ctx_relativePath ctx
    ∧ Namespace r = ctx_currentNamespace ctx
    ∧ ClassName r = ctx_currentClass ctx
    ∧ Keywords r = extractKeywords caseLower (FuncName r) (Comments r)
    ∧ ∃ line match_,
        line ∈ seen ∧ emits_record p line = true
        ∧ regexp.FindStringSubmatch (functionRegex p) line = Some match_
        ∧ FuncName r = submatch match_ 3
        ∧ Signature r = strings.TrimSpace line).
  apply (ParseFile_fold_invariant
    (λ st seen, Forall (ok seen) (functions st)) p ctx)
    with (seen := []) (st := mkParseState [] [] []); [|constructor].
  intros st seen line Hst.
  assert (Forall (ok (seen ++ [line])) (functions st)) as Hold.
  { eapply Forall_impl; [exact Hst|].
    intros r (Hr1 & Hr2 & Hr3 & Hr4 & Hr5 & Hr6 & l & m & Hl & Hr7).
    repeat (split; [done|]). exists l, m. split; [set_solver|done]. }
  pose proof (ParseFile_line_step p ctx st line) as Hstep.
  destruct (emits_record p line) eqn:He.
  - destruct Hstep as (m & fn & Hm & -> & _ & _ & H1 & H2 & H3 & H4 & H5 & H6 & H7 & _ & _ & H8).
    cbn [functions]. apply Forall_app. split; [done|]. constructor; [|constructor].
    repeat (split; [done|]). exists line, m. split; [set_solver|done].
  - destruct Hstep as [-> _]. done.
Qed.

Lemma ParseFile_identifiers_names (w : World) (filePath rootPath : gostring) :
  Forall (λ r,
      (FuncName r ≠ [] ∧ Forall (λ c, regexp.perl_w c = true) (FuncName r))
      ∧ Forall (λ a, a ≠ [] ∧ Forall (λ c, regexp.perl_w c = true) a) (Attributes r)
      ∧ Forall (λ c, c ≠ []) (Comments r)
      ∧ "("%char ∈ Signature r)
    (ParseFile' w NewUnityParser filePath rootPath).1.
Proof.
  unfold ParseFile.
  destruct (os_ReadFile w filePath) as [content [e|]]; [constructor|].
  cbn [fst snd]. unfold ParseFile_lines.
  set (ctx := mkFileContext _ _ _ _).
  set (ident := λ a : gostring, a ≠ [] ∧ Forall (λ c, regexp.perl_w c = true) a).
  set (ok := λ r : FunctionInfo,
    ident (FuncName r) ∧ Forall ident (Attributes r)
    ∧ Forall (λ c, c ≠ []) (Comments r) ∧ "("%char ∈ Signature r).
  assert (∀ lines, Forall ok (functions (fold_left (ParseFile_line' NewUnityParser ctx)
                     lines (mkParseState [] [] [])))) as Hall; [|apply Hall].
  intros lines.
  apply (ParseFile_fold_invariant
    (λ st _, Forall ok (functions st)
             ∧ Forall (λ c, c ≠ []) (currentComments st)
             ∧ Forall ident (currentAttributes st)) NewUnityParser ctx)
    with (seen := []) (st := mkParseState [] [] []) (lines := lines);
    [|by repeat constructor].
  intros st _ line (Hfs & Hcc & Hca).
  assert (Forall (λ c, c ≠ []) (line_comment line)) as Hlc.
  { unfold line_comment. repeat case_match; try constructor; try constructor;
      by apply gostring_eqb_nil, negb_true_iff;
         repeat match goal with
         | H : _ && _ = true |- _ => apply andb_true_iff in H as [H _]
         end. }
  assert (Forall ident (line_attribute NewUnityParser line)) as Hla.
  { unfold line_attribute. repeat case_match; try constructor; [|constructor].
    by eapply attribute_re_captures. }
  pose proof (ParseFile_line_step NewUnityParser ctx st line) as Hstep.
  destruct (emits_record NewUnityParser line) eqn:He.
  - destruct Hstep as (m & fn & Hm & -> & _ & _ & _ & _ & _ & _ & _ & Hn & Hsig & Hc & Ha & _).
    cbn [functions currentComments currentAttributes].
    split; [|by split; constructor].
    apply Forall_app. split; [done|]. constructor; [|constructor].
    unfold ok. rewrite Hn, Hsig, Hc, Ha.
    split; [by apply (function_re_captures line m)|]. split; [done|]. split; [done|].
    apply function_re_paren in Hm.
    destruct (TrimSpace_split line) as (a & b & Hl & Hsa & Hsb).
    rewrite Hl, !elem_of_app in Hm. rewrite Forall_forall in Hsa, Hsb.
    destruct Hm as [Hm|[Hm|Hm]]; [|done|].
    + by apply Hsa, space_byte_not_paren in Hm.
    + by apply Hsb, space_byte_not_paren in Hm.
  - destruct Hstep as [-> [[-> ->]|(-> & -> & _)]].
    + split; [done|]. split; by apply Forall_app.
    + split; [done|]. split; constructor.
Qed.

(** X7: With the patterns of [NewUnityParser], the name of every record is
    an identifier (a non-empty text of letters, digits and underscores),
    so is each of its annotations, none of its comments is empty, its
    signature has an opening parenthesis, its name space is made of
    letters, digits, underscores and dots, and its class name of letters,
    digits and underscores. *)
Theorem ParseFile_identifiers (w : World) (filePath rootPath : gostring) :
  Forall (λ r,
      (FuncName r ≠ [] ∧ Forall (λ c, regexp.perl_w c = true) (FuncName r))
      ∧ Forall (λ a, a ≠ [] ∧ Forall (λ c, regexp.perl_w c = true) a) (Attributes r)
      ∧ Forall (λ c, c ≠ []) (Comments r)
      ∧ "("%char ∈ Signature r
      ∧ Forall (λ c, regexp.perl_w c || regexp.one_of "." c = true) (Namespace r)
      ∧ Forall (λ c, regexp.perl_w c = true) (ClassName r))
    (ParseFile' w NewUnityParser filePath rootPath).1.
Proof.
  pose proof (ParseFile_identifiers_names w filePath rootPath) as Hnames.
  pose proof (ParseFile_records_context w NewUnityParser filePath rootPath) as Hfields.
  rewrite Forall_forall in Hnames, Hfields. apply Forall_forall. intros r Hr.
  destruct (Hnames r Hr) as (H1 & H2 & H3 & H4).
  destruct (Hfields r Hr) as (_ & Hns & Hcls).
  repeat (split; [done|]). rewrite Hns, Hcls. cbn [namespaceRegex classRegex NewUnityParser].
  split.
  - destruct (regexp.FindStringSubmatch namespace_re _) as [m|] eqn:E; [|constructor].
    by apply namespace_re_captures in E as [_ ?].
  - destruct (regexp.FindStringSubmatch class_re _) as [m|] eqn:E; [|constructor].
    by apply class_re_captures in E as [_ ?].
Qed.

(** X8: The comments of the records of a file, put together in the order of
    the records, are a subsequence of what the comment lines of the file
    contribute, in the order of the lines: no comment is attached to two
    records, none is attached that the file does not hold, and their
    order is kept. The same holds of the annotations. *)
Theorem ParseFile_attachments (w : World) (p : UnityParser)
    (filePath rootPath : gostring) :
  sublist (flat_map Comments (ParseFile' w p filePath rootPath).1)
          (flat_map line_comment (file_lines w filePath))
  ∧ sublist (flat_map Attributes (ParseFile' w p filePath rootPath).1)
            (flat_map (line_attribute p) (file_lines w filePath)).
Proof.
  unfold ParseFile, file_lines.
  destruct (os_ReadFile w filePath) as [content [e|]];
    [split; apply sublist_nil_l|].
  cbn [fst snd]. unfold ParseFile_lines.
  set (ctx := mkFileContext _ _ _ _).
  assert (∀ (A : Type) (x y z : list A), sublist (x ++ y) z → sublist x z) as Hdrop.
  { intros A x y z H. etrans; [|exact H]. by apply sublist_inserts_r. }
  pose proof (ParseFile_fold_invariant
    (λ st seen,
       sublist (flat_map Comments (functions st) ++ currentComments st)
               (flat_map line_comment seen)
       ∧ sublist (flat_map Attributes (functions st) ++ currentAttributes st)
                 (flat_map (line_attribute p) seen)) p ctx) as Hinv.
  cbv beta in Hinv.
  eassert _ as Hstep; [|specialize (Hinv Hstep (strings.Split content regexp.newline)
                          (mkParseState [] [] []) [])].
  2: { cbn [app functions currentComments currentAttributes flat_map] in Hinv.
       destruct Hinv as [Hc Ha]; [split; constructor|].
       split; eapply Hdrop; eassumption. }
  - clear Hinv. intros st seen line [Hc Ha].
    rewrite !flat_map_app. cbn [flat_map]. rewrite !app_nil_r.
    pose proof (ParseFile_line_step p ctx st line) as Hstep.
    destruct (emits_record p line) eqn:He.
    + destruct Hstep as (m & fn & _ & -> & -> & -> & _ & _ & _ & _ & _ & _ & _ & HC & HA & _).
      cbn [functions currentComments currentAttributes].
      rewrite !flat_map_app. cbn [flat_map]. rewrite !app_nil_r, HC, HA. done.
    + destruct Hstep as [-> [[-> ->]|(-> & -> & -> & ->)]].
      * rewrite !app_assoc. split; by apply sublist_app.
      * rewrite !app_nil_r. split; eapply Hdrop; eassumption.
Qed.

End LineInvariants.

Lemma Split_from_bytes (s : gostring) (sep : ascii) :
  ∀ (cur piece : gostring) (c : ascii),
  piece ∈ strings.Split_from cur s sep → c ∈ piece → c ∈ cur ∨ c ∈ s.
Proof.
  induction s as [|x s IH]; intros cur piece c; cbn [strings.Split_from].
  - intros ->%list_elem_of_singleton. by left.
  - destruct (byte_eqb x sep).
    + intros [->|Hp]%elem_of_cons Hc; [by left|].
      destruct (IH [] piece c Hp Hc) as [H|H]; [by apply elem_of_nil in H|].
      right. by right.
    + intros Hp Hc. destruct (IH _ piece c Hp Hc) as [H|H]; [|right; by right].
      apply elem_of_app in H as [H|H]; [by left|].
      apply list_elem_of_singleton in H as ->. right. by left.
Qed.

(** X9: A file without an opening parenthesis has no record: the declaration
    pattern asks for one. In particular the empty file has none. *)
Theorem ParseFile_no_parenthesis (caseLower : Z → Z)
    (filepath_Rel : gostring → gostring → gostring)
    (filepath_Base : gostring → gostring)
    (w : World) (filePath rootPath : gostring) :
  "("%char ∉ (os_ReadFile w filePath).1 →
  (ParseFile caseLower filepath_Rel filepath_Base w NewUnityParser filePath rootPath).1 = [].
Proof.
  intros Hno. unfold ParseFile, file_lines in *.
  destruct (os_ReadFile w filePath) as [content [e|]]; [done|]. cbn [fst snd] in *.
  apply length_zero_iff_nil. unfold ParseFile_lines.
  rewrite ParseFile_lines_count_from. cbn [functions length Nat.add].
  apply length_zero_iff_nil.
  assert (Forall (λ line, emits_record NewUnityParser line = false)
            (strings.Split content regexp.newline)) as Hall.
  { apply Forall_forall. intros line Hline.
    destruct (emits_record NewUnityParser line) eqn:He; [|done].
    unfold emits_record, matches_declaration in He.
    apply andb_true_iff in He as [_ He]. apply bool_decide_eq_true in He as [m Hm].
    apply function_re_paren in Hm.
    destruct (Split_from_bytes _ _ _ _ _ Hline Hm) as [H|H]; [by apply elem_of_nil in H|done]. }
  induction Hall as [|line lines Hl _ IH]; [done|]. cbn [List.filter]. by rewrite Hl.
Qed.

(** A file of comments and statements without a parenthesis. *)
Definition demo_no_declaration : World :=
  demo_world [("p/Assets/n.cs", Some "// counters
int hits;
")]%string NotDir [].

Lemma ParseFile_no_parenthesis_witness :
  (ParseFile demo_caseLower demo_Rel demo_Base demo_no_declaration NewUnityParser
     (bytes "p/Assets/n.cs") (bytes "p")).1 = [].
Proof.
  apply (ParseFile_no_parenthesis demo_caseLower demo_Rel demo_Base demo_no_declaration).
  vm_compute. intros H. repeat (apply elem_of_cons in H as [H|H]; [discriminate H|]).
  by apply elem_of_nil in H.
Defined.

(** ** ScanUnityProject: what the traversal reads and returns *)

Section ScanFacts.
Variable caseLower : Z → Z.
Variable filepath_Join : gostring → gostring → gostring.
Variable filepath_Rel : gostring → gostring → gostring.
Variable filepath_Base : gostring → gostring.

Local Abbreviation ParseFile' := (ParseFile caseLower filepath_Rel filepath_Base).
Local Abbreviation walkFn' :=
  (ScanUnityProject_walkFn caseLower filepath_Rel filepath_Base).
Local Abbreviation ScanUnityProject' :=
  (ScanUnityProject caseLower filepath_Join filepath_Rel filepath_Base).
Local Abbreviation tree_files' := (tree_files filepath_Join).
Local Abbreviation file_records' := (file_records caseLower filepath_Rel filepath_Base).

(** [walk] with two functions that return the same results. *)
Lemma walk_ext {St : Type} (f g : WalkFunc St) :
  (∀ path info err st, f path info err st = g path info err st) →
  ∀ node path st, walk filepath_Join f path node st = walk filepath_Join g path node st.
Proof.
  intros Hfg. induction node as [e| |e|entries IH] using fsnode_tree_ind;
    intros path st; cbn [walk]; rewrite ?Hfg; try reflexivity.
  destruct (g path (Some (mkFileInfo true)) None st) as [st' [e|]]; [done|].
  revert st'. induction entries as [|[name child] entries IHe]; intros st'; [done|].
  apply Forall_cons in IH as [IHc IHr]. cbn [walk_entries]. cbn [snd] in IHc.
  rewrite IHc. destruct (walk filepath_Join g _ child st') as [st'' [e|]]; [done|].
  by apply IHe.
Qed.

(** X10: [ScanUnityProject] asks for the [Assets] entry, walks the tree below
    it and reads the files whose path ends in [.cs], and nothing else: in
    two worlds that agree on these, it returns and prints the same. *)
Theorem ScanUnityProject_reads_sources_only (w w' : World) (p : UnityParser)
    (projectPath : gostring) :
  os_Stat w (filepath_Join projectPath (bytes "Assets"))
    = os_Stat w' (filepath_Join projectPath (bytes "Assets")) →
  os_Tree w (filepath_Join projectPath (bytes "Assets"))
    = os_Tree w' (filepath_Join projectPath (bytes "Assets")) →
  (∀ path, is_source_file path = true → os_ReadFile w path = os_ReadFile w' path) →
  ScanUnityProject' w p projectPath = ScanUnityProject' w' p projectPath.
Proof.
  intros Hstat Htree Hread. unfold ScanUnityProject, filepath_Walk.
  rewrite Hstat, Htree.
  destruct (os_IsNotExist _); [done|].
  rewrite (walk_ext (walkFn' w p projectPath) (walkFn' w' p projectPath)); [done|].
  intros path info err [fns out]. unfold ScanUnityProject_walkFn.
  destruct err as [e|]; [done|].
  destruct (negb _ && strings.HasSuffix path (bytes ".cs")) eqn:E; [|done].
  apply andb_true_iff in E as [_ E]. unfold ParseFile. by rewrite (Hread path E).
Qed.

(** Whatever the traversal meets, the walk has added the records and
    warnings of an initial segment of the source files below the path, in
    traversal order: all of them when it returns no error. *)
Lemma walk_visited (w : World) (p : UnityParser) (projectPath : gostring)
    (node : fsnode) :
  ∀ (path : gostring) (st : ScanState),
  ∃ visited,
    visited `prefix_of` List.filter is_source_file (tree_files' path node)
    ∧ (walk filepath_Join (walkFn' w p projectPath) path node st).1
      = (st.1 ++ flat_map (file_records' w p projectPath) visited,
         st.2 ++ flat_map (file_warning w) visited)
    ∧ ((walk filepath_Join (walkFn' w p projectPath) path node st).2 = None →
       visited = List.filter is_source_file (tree_files' path node)).
Proof.
  intros path st.
  pose proof (walk_scan caseLower filepath_Join filepath_Rel filepath_Base
                w p projectPath node path st) as Hfull.
  destruct (traversal_error node) as [e|] eqn:Herr.
  2: { exists (List.filter is_source_file (tree_files' path node)).
       rewrite Hfull. done. }
  clear Hfull. revert path st e Herr.
  induction node as [e| |e|entries IH] using fsnode_tree_ind; intros path st e0 Herr.
  - exists []. destruct st. cbn. rewrite !app_nil_r. done.
  - discriminate Herr.
  - exists []. destruct st. cbn. rewrite !app_nil_r. done.
  - cbn [traversal_error] in Herr. cbn [walk tree_files].
    replace (walkFn' w p projectPath path (Some (mkFileInfo true)) None st)
      with (st, @None error) by (by destruct st).
    revert st Herr. induction entries as [|[name child] entries IHe]; intros st Herr;
      [discriminate Herr|].
    apply Forall_cons in IH as [IHc IHr]. specialize (IHe IHr).
    cbn [first_error] in Herr. cbn [walk_entries flat_map fst snd]. cbn [snd] in IHc.
    pose proof (walk_scan caseLower filepath_Join filepath_Rel filepath_Base
                  w p projectPath child (filepath_Join path name) st) as Hfull.
    destruct (traversal_error child) as [e|] eqn:Hchild.
    + destruct (IHc (filepath_Join path name) st e eq_refl) as (visited & Hpre & Hst & _).
      destruct (walk filepath_Join (walkFn' w p projectPath)
                  (filepath_Join path name) child st) as [st' err].
      cbn [snd] in Hfull. subst err. cbn [fst snd] in *.
      exists visited. split; [|by split].
      rewrite List.filter_app. by apply prefix_app_r.
    + rewrite Hfull.
      destruct (IHe (st.1 ++ flat_map (file_records' w p projectPath)
                       (List.filter is_source_file (tree_files' (filepath_Join path name) child)),
                     st.2 ++ flat_map (file_warning w)
                       (List.filter is_source_file (tree_files' (filepath_Join path name) child)))
                  Herr) as (visited & Hpre & Hst & Hall).
      exists (List.filter is_source_file (tree_files' (filepath_Join path name) child)
              ++ visited).
      rewrite List.filter_app. split; [by apply prefix_app|].
      split.
      * rewrite Hst. cbn [fst snd]. by rewrite !List.flat_map_app, !app_assoc.
      * intros Hnone. by rewrite (Hall Hnone).
Qed.

(** What the scan returns and prints comes from source files of the
    tree. *)
Lemma ScanUnityProject_sources (w : World) (p : UnityParser) (projectPath : gostring) :
  ∃ visited,
    (∀ path, path ∈ visited →
       path ∈ tree_files' (filepath_Join projectPath (bytes "Assets"))
                (os_Tree w (filepath_Join projectPath (bytes "Assets")))
       ∧ is_source_file path = true)
    ∧ (ScanUnityProject' w p projectPath).1.1
      = flat_map (file_records' w p projectPath) visited
    ∧ (ScanUnityProject' w p projectPath).2 = flat_map (file_warning w) visited.
Proof.
  unfold ScanUnityProject, filepath_Walk.
  set (assetsPath := filepath_Join projectPath (bytes "Assets")).
  destruct (os_IsNotExist (os_Stat w assetsPath)).
  { exists []. split; [|done]. by intros path ?%elem_of_nil. }
  destruct (walk_visited w p projectPath (os_Tree w assetsPath) assetsPath ([], []))
    as (visited & [rest Hpre] & Hst & _).
  destruct (walk filepath_Join (walkFn' w p projectPath) assetsPath
              (os_Tree w assetsPath) ([], [])) as [[fns out] err].
  cbn [fst snd app] in *. injection Hst as -> ->. exists visited. split; [|done].
  intros path Hpath.
  assert (path ∈ List.filter is_source_file (tree_files' assetsPath (os_Tree w assetsPath)))
    as Hin by (rewrite Hpre; apply elem_of_app; by left).
  apply list_elem_of_In, filter_In in Hin as [Hin Hsrc].
  by apply list_elem_of_In in Hin.
Qed.

(** The paths of the entries below [path] that are not directories and
    that the walk reaches before the first error it meets, in the order of
    the walk: the walk of the entries of a directory stops at the first
    entry whose own walk meets an error. *)
Definition entries_before_error (f : gostring → fsnode → list gostring)
    (path : gostring) : list (gostring * fsnode) → list gostring :=
  fix loop (es : list (gostring * fsnode)) : list gostring :=
    match es with
    | [] => []
    | (name, child) :: es' =>
      f (filepath_Join path name) child
      ++ match traversal_error child with
         | Some _ => []
         | None => loop es'
         end
    end.

Fixpoint files_before_error (path : gostring) (node : fsnode) : list gostring :=
  match node with
  | NotDir => [path]
  | Dir entries => entries_before_error files_before_error path entries
  | LstatFails _ | DirUnreadable _ => []
  end.

Lemma files_before_error_prefix (node : fsnode) :
  ∀ path,
    files_before_error path node `prefix_of` tree_files' path node
    ∧ (traversal_error node = None →
       files_before_error path node = tree_files' path node).
Proof.
  induction node as [e| |e|entries IH] using fsnode_tree_ind; intros path;
    cbn [files_before_error tree_files traversal_error]; try done.
  induction entries as [|[name child] entries IHe]; [done|].
  apply Forall_cons in IH as [IHc IHr]. specialize (IHe IHr) as [IH1 IH2].
  cbn [snd] in IHc. destruct (IHc (filepath_Join path name)) as [Hc1 Hc2].
  cbn [entries_before_error first_error flat_map fst snd].
  destruct (traversal_error child) as [e|].
  - split; [|done]. rewrite app_nil_r. by apply prefix_app_r.
  - rewrite (Hc2 eq_refl). split.
    + by apply prefix_app.
    + intros Herr. by rewrite (IH2 Herr).
Qed.

Lemma walk_before_error (w : World) (p : UnityParser) (projectPath : gostring)
    (node : fsnode) :
  ∀ (path : gostring) (st : ScanState),
    walk filepath_Join (walkFn' w p projectPath) path node st
    = ((st.1 ++ flat_map (file_records' w p projectPath)
                  (List.filter is_source_file (files_before_error path node)),
        st.2 ++ flat_map (file_warning w)
                  (List.filter is_source_file (files_before_error path node))),
       option_map OsError (traversal_error node)).
Proof.
  induction node as [e| |e|entries IH] using fsnode_tree_ind; intros path st.
  - destruct st. cbn. by rewrite !app_nil_r.
  - cbn [traversal_error walk files_before_error option_map].
    apply (walkFn_file caseLower filepath_Rel filepath_Base).
  - destruct st. cbn. by rewrite !app_nil_r.
  - cbn [traversal_error walk files_before_error].
    replace (walkFn' w p projectPath path (Some (mkFileInfo true)) None st)
      with (st, @None error) by (by destruct st).
    revert st. induction entries as [|[name child] entries IHe]; intros st.
    + cbn. destruct st. by rewrite !app_nil_r.
    + apply Forall_cons in IH as [IHc IHr]. specialize (IHe IHr).
      cbn [first_error walk_entries entries_before_error fst snd]. cbn [snd] in IHc.
      rewrite IHc. destruct (traversal_error child) as [e|]; cbn [option_map].
      * by rewrite app_nil_r.
      * rewrite IHe. cbn [fst snd].
        by rewrite !List.filter_app, !List.flat_map_app, !app_assoc.
Qed.

(** X11: The scan returns the records, and prints the warnings, of the source
    files the walk reaches before the first traversal error, in traversal
    order, together with that error: what was gathered before the error
    is kept. These files are an initial segment of the files of the tree
    below [Assets], and all of them when the traversal meets no error. *)
Theorem ScanUnityProject_visited (w : World) (p : UnityParser)
    (projectPath : gostring) :
  ScanUnityProject' w p projectPath
  = (if os_IsNotExist (os_Stat w (filepath_Join projectPath (bytes "Assets")))
     then (([], Some NotAProjectRoot), [])
     else
       ((flat_map (file_records' w p projectPath)
           (List.filter is_source_file
              (files_before_error (filepath_Join projectPath (bytes "Assets"))
                 (os_Tree w (filepath_Join projectPath (bytes "Assets"))))),
         option_map OsError
           (traversal_error (os_Tree w (filepath_Join projectPath (bytes "Assets"))))),
        flat_map (file_warning w)
          (List.filter is_source_file
             (files_before_error (filepath_Join projectPath (bytes "Assets"))
                (os_Tree w (filepath_Join projectPath (bytes "Assets")))))))
  ∧ files_before_error (filepath_Join projectPath (bytes "Assets"))
      (os_Tree w (filepath_Join projectPath (bytes "Assets")))
    `prefix_of` tree_files' (filepath_Join projectPath (bytes "Assets"))
                  (os_Tree w (filepath_Join projectPath (bytes "Assets")))
  ∧ (traversal_error (os_Tree w (filepath_Join projectPath (bytes "Assets"))) = None →
     files_before_error (filepath_Join projectPath (bytes "Assets"))
       (os_Tree w (filepath_Join projectPath (bytes "Assets")))
     = tree_files' (filepath_Join projectPath (bytes "Assets"))
         (os_Tree w (filepath_Join projectPath (bytes "Assets")))).
Proof.
  split; [|apply files_before_error_prefix].
  unfold ScanUnityProject, filepath_Walk.
  set (assetsPath := filepath_Join projectPath (bytes "Assets")).
  destruct (os_IsNotExist (os_Stat w assetsPath)); [done|].
  by rewrite walk_before_error.
Qed.

(** X12: Every record the scan returns is a record of a file of the tree
    below [Assets] whose path ends in [.cs], and carries the path of that
    file; and the scan prints nothing but warnings: it writes no file. *)
Theorem ScanUnityProject_records_of_sources (w : World) (p : UnityParser)
    (projectPath : gostring) :
  Forall (λ r,
      FilePath r ∈ tree_files' (filepath_Join projectPath (bytes "Assets"))
                     (os_Tree w (filepath_Join projectPath (bytes "Assets")))
      ∧ strings.HasSuffix (FilePath r) (bytes ".cs") = true
      ∧ r ∈ (ParseFile' w p (FilePath r) projectPath).1)
    (ScanUnityProject' w p projectPath).1.1
  ∧ Forall (λ ev, ∃ path e, ev = Print (parse_warning path e))
      (ScanUnityProject' w p projectPath).2.
Proof.
  destruct (ScanUnityProject_sources w p projectPath)
    as (visited & Hvisited & -> & ->).
  split.
  - apply Forall_forall. intros r Hr.
    apply list_elem_of_In, in_flat_map in Hr as (path & Hpath & Hr).
    apply list_elem_of_In in Hpath. apply list_elem_of_In in Hr.
    unfold file_records in Hr.
    pose proof (ParseFile_records_context caseLower filepath_Rel filepath_Base
                  w p path projectPath) as Hfields.
    rewrite Forall_forall in Hfields. destruct (Hfields r Hr) as (Hfp & _).
    rewrite Hfp. destruct (Hvisited path Hpath) as [Hin Hsrc]. done.
  - apply Forall_forall. intros ev Hev.
    apply list_elem_of_In, in_flat_map in Hev as (path & _ & Hev).
    unfold file_warning in Hev. destruct (os_ReadFile w path).2 as [e|]; [|done].
    destruct Hev as [<-|[]]. by exists path, e.
Qed.

End ScanFacts.

(** Two worlds with the same tree and the same source file, that differ
    in a file that is not a source file and in what writing does. *)
Definition demo_notes_tree : fsnode :=
  Dir [(bytes "a.cs", NotDir); (bytes "notes.txt", NotDir)].

Definition demo_notes_readable : World :=
  demo_world [("p/Assets/a.cs", Some "  void Update() { }");
              ("p/Assets/notes.txt", Some "  void Hidden() { }")]%string
    demo_notes_tree [].

Definition demo_notes_unreadable : World :=
  {| os_Stat := os_Stat demo_notes_readable;
     os_ReadFile := os_ReadFile
       (demo_world [("p/Assets/a.cs", Some "  void Update() { }");
                    ("p/Assets/notes.txt", None)]%string demo_notes_tree []);
     os_Tree := os_Tree demo_notes_readable;
     os_WriteFile := λ _ _, Some (OsError demo_EACCES) |}.

Lemma ScanUnityProject_reads_sources_only_witness :
  ScanUnityProject demo_caseLower demo_Join demo_Rel demo_Base
    demo_notes_readable NewUnityParser (bytes "p")
  = ScanUnityProject demo_caseLower demo_Join demo_Rel demo_Base
      demo_notes_unreadable NewUnityParser (bytes "p").
Proof.
  apply (ScanUnityProject_reads_sources_only demo_caseLower demo_Join demo_Rel demo_Base
           demo_notes_readable demo_notes_unreadable NewUnityParser (bytes "p"));
    [reflexivity|reflexivity|].
  intros path Hsrc.
  unfold demo_notes_readable, demo_notes_unreadable, demo_world.
  cbn [os_ReadFile demo_lookup].
  destruct (gostring_eqb (bytes "p/Assets/a.cs") path); [reflexivity|].
  destruct (gostring_eqb (bytes "p/Assets/notes.txt") path) eqn:E; [|reflexivity].
  apply gostring_eqb_eq in E. subst path. discriminate Hsrc.
Defined.

(** A directory that cannot be read stops the walk: the file before it is
    scanned, the file after it is not. *)
Example files_before_error_demo :
  files_before_error demo_Join (bytes "p/Assets")
    (Dir [(bytes "a.cs", NotDir); (bytes "sub", DirUnreadable demo_EACCES);
          (bytes "z.cs", NotDir)])
  = [bytes "p/Assets/a.cs"].
Proof. reflexivity. Qed.

(** ** main *)

Definition is_write (ev : event) : bool :=
  match ev with
  | WriteFile _ _ => true
  | Print _ => false
  end.

(** The world [w] with [write] for its [os.WriteFile]. *)
Definition with_WriteFile (w : World) (write : gostring → gostring → option error)
    : World :=
  {| os_Stat := os_Stat w;
     os_ReadFile := os_ReadFile w;
     os_Tree := os_Tree w;
     os_WriteFile := write |}.

Section ProgramFacts.
Variable caseLower : Z → Z.
Variable filepath_Join : gostring → gostring → gostring.
Variable filepath_Rel : gostring → gostring → gostring.
Variable filepath_Base : gostring → gostring.

Local Abbreviation ScanUnityProject' :=
  (ScanUnityProject caseLower filepath_Join filepath_Rel filepath_Base).
Local Abbreviation main' := (main caseLower filepath_Join filepath_Rel filepath_Base).

(** The file [main] writes the index to: the second argument of the
    command line if there is one, a fixed name otherwise. *)
Definition main_outputFile (os_Args : list gostring) : gostring :=
  match os_Args with
  | _ :: _ :: outputFile :: _ => outputFile
  | _ => bytes "unity-functions-index.md"
  end.

Lemma ScanUnityProject_prints (w : World) (p : UnityParser) (projectPath : gostring) :
  List.filter is_write (ScanUnityProject' w p projectPath).2 = [].
Proof.
  destruct (ScanUnityProject_sources caseLower filepath_Join filepath_Rel filepath_Base
              w p projectPath) as (visited & _ & _ & ->).
  induction visited as [|path visited IH]; [done|]. cbn [flat_map].
  rewrite List.filter_app, IH, app_nil_r. unfold file_warning.
  by destruct (os_ReadFile w path).2.
Qed.

Lemma main_outputFile_spec (os_Args : list gostring) :
  (if (3 <=? length os_Args)%nat then nth 2 os_Args []
   else gs "unity-functions-index.md") = main_outputFile os_Args.
Proof. by destruct os_Args as [|a0 [|a1 [|a2 rest]]]. Qed.

(** X13: The exit status of the program is 0 or 1; it is 0 exactly when a
    project path was given, the scan of that project returned no error,
    and writing the document made of its records succeeded. *)
Theorem main_exit_status (w : World) (os_Args : list gostring) :
  ((main' w os_Args).2 = 0 ∨ (main' w os_Args).2 = 1)
  ∧ ((main' w os_Args).2 = 0 ↔
     (2 ≤ length os_Args)%nat
     ∧ (ScanUnityProject' w NewUnityParser (nth 1 os_Args [])).1.2 = None
     ∧ os_WriteFile w (main_outputFile os_Args)
         (markdown_text caseLower
            (ScanUnityProject' w NewUnityParser (nth 1 os_Args [])).1.1) = None).
Proof.
  unfold main. rewrite main_outputFile_spec.
  destruct (length os_Args <? 2)%nat eqn:Hlen.
  { apply Nat.ltb_lt in Hlen. cbn [snd]. split; [by right|]. split; [done|lia]. }
  apply Nat.ltb_ge in Hlen.
  destruct (ScanUnityProject' w NewUnityParser (nth 1 os_Args []))
    as [[functions [e|]] printed]; cbn [fst snd].
  { split; [by right|]. split; [done|]. by intros (_ & ? & _). }
  unfold GenerateUnityMarkdown.
  destruct (os_WriteFile w (main_outputFile os_Args) (markdown_text caseLower functions))
    as [e|]; cbn [fst snd].
  - split; [by right|]. split; [done|]. by intros (_ & _ & ?).
  - split; [by left|]. done.
Qed.

(** The scan does not use [os.WriteFile]. *)
Lemma ScanUnityProject_with_WriteFile (w : World)
    (write : gostring → gostring → option error) (p : UnityParser)
    (projectPath : gostring) :
  ScanUnityProject' (with_WriteFile w write) p projectPath
  = ScanUnityProject' w p projectPath.
Proof.
  unfold ScanUnityProject, filepath_Walk. cbn [with_WriteFile os_Stat os_Tree].
  destruct (os_IsNotExist _); [done|].
  rewrite (walk_ext filepath_Join
             (ScanUnityProject_walkFn caseLower filepath_Rel filepath_Base
                (with_WriteFile w write) p projectPath)
             (ScanUnityProject_walkFn caseLower filepath_Rel filepath_Base
                w p projectPath)); [done|].
  intros path info err [fns out]. reflexivity.
Qed.

(** X14: The program calls [os.WriteFile] at most once, for the output file
    and the document made of the scanned records, and only after a scan
    without error: what it prints and writes and its exit status are the
    same whatever [os.WriteFile] would do for any other file or content,
    and do not depend on [os.WriteFile] at all when the project path is
    missing or the scan fails. The writes that succeeded are that one
    write when the program exits with status 0, and none when it exits
    with status 1. *)
Theorem main_writes_index_once (w : World) (os_Args : list gostring) :
  List.filter is_write (main' w os_Args).1
  = (if (main' w os_Args).2 =? 0
     then [WriteFile (main_outputFile os_Args)
             (markdown_text caseLower
                (ScanUnityProject' w NewUnityParser (nth 1 os_Args [])).1.1)]
     else [])
  ∧ ∀ write : gostring → gostring → option error,
      ((2 ≤ length os_Args)%nat
       → (ScanUnityProject' w NewUnityParser (nth 1 os_Args [])).1.2 = None
       → write (main_outputFile os_Args)
           (markdown_text caseLower
              (ScanUnityProject' w NewUnityParser (nth 1 os_Args [])).1.1)
         = os_WriteFile w (main_outputFile os_Args)
             (markdown_text caseLower
                (ScanUnityProject' w NewUnityParser (nth 1 os_Args [])).1.1))
      → main' (with_WriteFile w write) os_Args = main' w os_Args.
Proof.
  split.
  - unfold main. rewrite main_outputFile_spec.
    destruct (length os_Args <? 2)%nat; [reflexivity|].
    pose proof (ScanUnityProject_prints w NewUnityParser (nth 1 os_Args [])) as Hprints.
    destruct (ScanUnityProject' w NewUnityParser (nth 1 os_Args []))
      as [[functions [e|]] printed]; cbn [fst snd] in *.
    { rewrite !List.filter_app, Hprints. reflexivity. }
    unfold GenerateUnityMarkdown.
    destruct (os_WriteFile w (main_outputFile os_Args) (markdown_text caseLower functions))
      as [e|]; cbn [fst snd]; rewrite !List.filter_app, Hprints; reflexivity.
  - intros write Hwrite. unfold main. rewrite main_outputFile_spec.
    destruct (length os_Args <? 2)%nat eqn:Hlen; [reflexivity|].
    apply Nat.ltb_ge in Hlen. rewrite ScanUnityProject_with_WriteFile.
    destruct (ScanUnityProject' w NewUnityParser (nth 1 os_Args []))
      as [[functions [e|]] printed]; cbn [fst snd] in *; [reflexivity|].
    unfold GenerateUnityMarkdown. cbn [with_WriteFile os_WriteFile].
    by rewrite (Hwrite Hlen eq_refl).
Qed.

End ProgramFacts.

(** ** GenerateUnityMarkdown: counts, and what reaches the document *)

Lemma filter_partition {A : Type} (P : A → bool) (l : list A) :
  List.filter P l ++ List.filter (λ x, negb (P x)) l ≡ₚ l.
Proof.
  induction l as [|x l IH]; [done|]. cbn [List.filter].
  destruct (P x); cbn [negb app].
  - by constructor.
  - rewrite <- Permutation_middle. by constructor.
Qed.

Lemma flat_map_ext_elem {A B : Type} (f g : A → list B) (l : list A) :
  (∀ a, a ∈ l → f a = g a) → flat_map f l = flat_map g l.
Proof.
  induction l as [|a l IH]; intros Hfg; [done|]. cbn [flat_map].
  rewrite Hfg by (by left). rewrite IH; [done|]. intros b Hb. apply Hfg. by right.
Qed.

Lemma flat_map_Permutation {A B : Type} (f g : A → list B) (l : list A) :
  (∀ a, f a ≡ₚ g a) → flat_map f l ≡ₚ flat_map g l.
Proof.
  intros Hfg. induction l as [|a l IH]; [done|]. cbn [flat_map].
  by rewrite Hfg, IH.
Qed.

(** The groups of a list, for keys that are distinct and cover the keys
    of the list, hold every element once. *)
Lemma with_key_partition (key : FunctionInfo → gostring) (ks : list gostring) :
  ∀ fns, NoDup ks → (∀ fn, fn ∈ fns → key fn ∈ ks) →
         flat_map (λ k, with_key key k fns) ks ≡ₚ fns.
Proof.
  induction ks as [|k ks IH]; intros fns Hnd Hcover.
  - destruct fns as [|fn fns]; [done|].
    specialize (Hcover fn ltac:(by left)). by apply elem_of_nil in Hcover.
  - apply NoDup_cons in Hnd as [Hk Hnd]. cbn [flat_map].
    set (rest := List.filter (λ fn, negb (gostring_eqb (key fn) k)) fns).
    rewrite (flat_map_ext_elem _ (λ k', with_key key k' rest)).
    + rewrite (IH rest Hnd).
      * apply (filter_partition (λ fn, gostring_eqb (key fn) k)).
      * intros fn [Hfn Hne]%list_elem_of_In%filter_In.
        apply list_elem_of_In in Hfn. apply negb_true_iff, bool_decide_eq_false in Hne.
        specialize (Hcover fn Hfn). apply elem_of_cons in Hcover as [?|?]; done.
    + intros k' Hk'. unfold with_key, rest.
      assert (k' ≠ k) as Hne by (by intros ->).
      clear -Hne. induction fns as [|fn fns IHf]; [done|]. cbn [List.filter].
      destruct (gostring_eqb (key fn) k) eqn:E; cbn [negb List.filter].
      * apply gostring_eqb_eq in E.
        replace (gostring_eqb (key fn) k') with false; [done|].
        symmetry. apply bool_decide_eq_false. congruence.
      * destruct (gostring_eqb (key fn) k'); by rewrite IHf.
Qed.

Lemma group_keys_NoDup (key : FunctionInfo → gostring) (fns : list FunctionInfo) :
  NoDup (group_keys key fns).
Proof.
  unfold group_keys, sort.Strings. rewrite merge_sort_Permutation.
  apply map_keys_spec.
Qed.

Lemma group_keys_partition (key : FunctionInfo → gostring) (fns : list FunctionInfo) :
  flat_map (λ k, with_key key k fns) (group_keys key fns) ≡ₚ fns.
Proof.
  apply with_key_partition; [apply group_keys_NoDup|].
  intros fn Hfn. apply (group_keys_spec key fns). by exists fn.
Qed.

Section MarkdownFacts.
Variable caseLower : Z → Z.

(** The parts of the document. *)
Lemma markdown_text_sections (functions : list FunctionInfo) :
  markdown_text caseLower functions
  = write_header [] functions
    ++ flat_map (write_nav caseLower (build_categoryMap functions) [])
         (group_keys category_of functions)
    ++ gs "\n---\n\n"
    ++ flat_map (category_section functions) (group_keys category_of functions)
    ++ write_footer [].
Proof.
  destruct (group_keys_spec category_of functions) as (_ & _ & Hslice).
  unfold markdown_text, WriteString.
  fold (group_keys category_of functions). unfold build_categoryMap in *.
  rewrite write_footer_appends.
  rewrite (fold_left_appends _ (write_category_appends _)).
  rewrite (fold_left_appends _ (write_nav_appends caseLower _)).
  rewrite <- !app_assoc. do 3 f_equal. f_equal.
  apply flat_map_ext. intros category. unfold category_section.
  rewrite write_category_flat. cbn [app]. rewrite Hslice. f_equal.
  fold (group_keys className_of (with_key category_of category functions)).
  apply flat_map_ext. intros className. unfold class_section, build_classMap.
  destruct (group_keys_spec className_of (with_key category_of category functions))
    as (_ & _ & Hcs).
  by rewrite Hcs.
Qed.

(** X15: Every record is listed once: the slices of the class maps, taken in
    the order of the document (categories in sorted order, and in each
    its class names in sorted order), hold the input records, each as
    often as the input does; and the numbers of records of the categories
    add up to the number of records. *)
Theorem markdown_records_once (functions : list FunctionInfo) :
  flat_map (λ category,
      let fns := map_slice (build_categoryMap functions) category in
      let classMap := build_classMap fns in
      flat_map (map_slice classMap) (sort.Strings (map_keys classMap)))
    (sort.Strings (map_keys (build_categoryMap functions)))
  ≡ₚ functions
  ∧ list_sum (map (λ category, length (map_slice (build_categoryMap functions) category))
                (sort.Strings (map_keys (build_categoryMap functions))))
    = length functions.
Proof.
  destruct (group_keys_spec category_of functions) as (_ & _ & Hslice).
  fold (group_keys category_of functions). unfold build_categoryMap.
  split.
  - etrans; [|apply (group_keys_partition category_of functions)].
    apply flat_map_Permutation. intros category. cbv zeta. rewrite Hslice.
    destruct (group_keys_spec className_of (with_key category_of category functions))
      as (_ & _ & Hcs).
    unfold build_classMap.
    fold (group_keys className_of (with_key category_of category functions)).
    rewrite (flat_map_ext _ _ Hcs). apply group_keys_partition.
  - rewrite <- (Permutation_length (group_keys_partition category_of functions)).
    rewrite length_flat_map. f_equal. apply map_ext. intros category.
    by rewrite Hslice.
Qed.

Lemma count_fold (functions : list FunctionInfo) (u c : nat) :
  fold_left (λ counts fn,
      let '(unityEventCount, coroutineCount) := counts in
      let unityEventCount := if IsUnityEvent fn then S unityEventCount else unityEventCount in
      let coroutineCount := if IsCoroutine fn then S coroutineCount else coroutineCount in
      (unityEventCount, coroutineCount)) functions (u, c)
  = ((u + length (List.filter IsUnityEvent functions))%nat,
     (c + length (List.filter IsCoroutine functions))%nat).
Proof.
  revert u c. induction functions as [|fn fns IH]; intros u c; cbn [fold_left List.filter].
  - f_equal; cbn [length]; lia.
  - rewrite IH. destruct (IsUnityEvent fn), (IsCoroutine fn); cbn [length]; f_equal; lia.
Qed.

Lemma write_header_counts (functions : list FunctionInfo) :
  write_header [] functions
  = gs "# Unity 项目函数索引\n\n"
    ++ gs "> 🤖 本文档由AI索引工具自动生成，用于快速定位功能函数\n\n"
    ++ gs "**📊 统计信息**:\n"
    ++ fmt.Sprintf (gs "- 总函数数: %d\n") [fmt.Int (length functions)]
    ++ fmt.Sprintf (gs "- Unity生命周期函数: %d\n")
         [fmt.Int (length (List.filter IsUnityEvent functions))]
    ++ fmt.Sprintf (gs "- 协程函数: %d\n\n")
         [fmt.Int (length (List.filter IsCoroutine functions))]
    ++ gs "---\n\n"
    ++ gs "## 🔍 快速导航\n\n".
Proof.
  assert (fmt.Sprintf (gs "**📊 统计信息**:\n") [] = gs "**📊 统计信息**:\n") as Hplain
    by (vm_compute; reflexivity).
  unfold write_header, WriteString. rewrite count_fold, Hplain. cbn [Nat.add app].
  rewrite <- !app_assoc. reflexivity.
Qed.

(** X16: The statistics at the head of the document: the number of records,
    the number of records marked as Unity events, and the number of
    records marked as coroutines. *)
Theorem markdown_header_statistics (functions : list FunctionInfo) :
  ∃ rest,
    markdown_text caseLower functions
    = gs "# Unity 项目函数索引\n\n"
      ++ gs "> 🤖 本文档由AI索引工具自动生成，用于快速定位功能函数\n\n"
      ++ gs "**📊 统计信息**:\n"
      ++ fmt.Sprintf (gs "- 总函数数: %d\n") [fmt.Int (length functions)]
      ++ fmt.Sprintf (gs "- Unity生命周期函数: %d\n")
           [fmt.Int (length (List.filter IsUnityEvent functions))]
      ++ fmt.Sprintf (gs "- 协程函数: %d\n\n")
           [fmt.Int (length (List.filter IsCoroutine functions))]
      ++ rest.
Proof.
  rewrite markdown_text_sections, write_header_counts.
  eexists. rewrite <- !app_assoc. reflexivity.
Qed.

End MarkdownFacts.

(** *** The fields the document shows *)

(** Two records that agree on what the document shows of a record: the
    relative path, the class name, the function name, the comments, the
    signature, the two marks, the annotations and the first eight
    keywords. *)
Definition same_rendering (a b : FunctionInfo) : Prop :=
  RelativePath a = RelativePath b ∧ ClassName a = ClassName b
  ∧ FuncName a = FuncName b ∧ Comments a = Comments b
  ∧ Signature a = Signature b ∧ IsUnityEvent a = IsUnityEvent b
  ∧ IsCoroutine a = IsCoroutine b ∧ Attributes a = Attributes b
  ∧ take 8 (Keywords a) = take 8 (Keywords b).

#[global] Instance string_le_antisymm : AntiSymm (=) sort.string_le.
Proof. intros a b Hab Hba. by apply string_ltb_total. Qed.

Lemma sort_Strings_Permutation (l1 l2 : list gostring) :
  l1 ≡ₚ l2 → sort.Strings l1 = sort.Strings l2.
Proof.
  intros Hperm. unfold sort.Strings.
  apply (StronglySorted_unique sort.string_le);
    [apply StronglySorted_merge_sort; apply _..|].
  by rewrite !merge_sort_Permutation.
Qed.

Section RenderedFields.
Variable caseLower : Z → Z.
Variable t : FunctionInfo → FunctionInfo.
Hypothesis t_same : ∀ fn, same_rendering (t fn) fn.

Lemma with_key_map (key : FunctionInfo → gostring) (k : gostring)
    (fns : list FunctionInfo) :
  (∀ fn, key (t fn) = key fn) →
  with_key key k (map t fns) = map t (with_key key k fns).
Proof.
  intros Hkey. unfold with_key. induction fns as [|fn fns IH]; [done|].
  cbn [map List.filter]. rewrite Hkey, IH. by destruct (gostring_eqb (key fn) k).
Qed.

Lemma group_keys_map (key : FunctionInfo → gostring) (fns : list FunctionInfo) :
  (∀ fn, key (t fn) = key fn) →
  group_keys key (map t fns) = group_keys key fns.
Proof.
  intros Hkey. unfold group_keys. apply sort_Strings_Permutation.
  apply NoDup_Permutation; [apply map_keys_spec..|].
  intros k. rewrite !(proj2 (map_keys_spec _)).
  destruct (group_fold key (map t fns) ∅) as [_ ->].
  destruct (group_fold key fns ∅) as [_ ->].
  rewrite lookup_empty. split; (intros [[? [=]]|(fn & Hfn & Hk)]; right).
  - apply list_elem_of_fmap in Hfn as (fn' & -> & Hfn'). exists fn'.
    by rewrite <- Hkey.
  - exists (t fn). split; [by apply list_elem_of_fmap_2|by rewrite Hkey].
Qed.

Lemma category_of_same (fn : FunctionInfo) : category_of (t fn) = category_of fn.
Proof. unfold category_of. by destruct (t_same fn) as (-> & _). Qed.

Lemma className_of_same (fn : FunctionInfo) : className_of (t fn) = className_of fn.
Proof. unfold className_of. by destruct (t_same fn) as (_ & -> & _). Qed.

Lemma write_function_same (sb : gostring) (fn : FunctionInfo) :
  write_function sb (t fn) = write_function sb fn.
Proof.
  destruct (t_same fn) as (H1 & H2 & H3 & H4 & H5 & H6 & H7 & H8 & H9).
  assert (∀ k : list gostring,
            (if (8 <? length k)%nat then take 8 k else k) = take 8 k) as Hdisplay.
  { intros k. destruct (8 <? length k)%nat eqn:E; [done|].
    apply Nat.ltb_ge in E. by rewrite take_ge. }
  assert (∀ k : list gostring,
            (0 <? length k)%nat = (0 <? length (take 8 k))%nat) as Hsome.
  { intros [|x k]; reflexivity. }
  unfold write_function.
  rewrite !Hdisplay, (Hsome (Keywords (t fn))), (Hsome (Keywords fn)).
  by rewrite H3, H4, H5, H6, H7, H8, H9.
Qed.

Lemma class_section_same (fns : list FunctionInfo) (className : gostring) :
  class_section (map t fns) className = class_section fns className.
Proof.
  unfold class_section. rewrite (with_key_map _ _ _ className_of_same).
  f_equal.
  - unfold write_class_heading.
    destruct (with_key className_of className fns) as [|fn0 rest]; [done|].
    cbn [map]. by destruct (t_same fn0) as (-> & _).
  - induction (with_key className_of className fns) as [|fn rest IH]; [done|].
    cbn [map flat_map]. by rewrite write_function_same, IH.
Qed.

Lemma category_section_same (fns : list FunctionInfo) (category : gostring) :
  category_section (map t fns) category = category_section fns category.
Proof.
  unfold category_section. rewrite (with_key_map _ _ _ category_of_same).
  rewrite (group_keys_map _ _ className_of_same). f_equal.
  - unfold write_category_heading. by rewrite length_map.
  - apply flat_map_ext. intros className. apply class_section_same.
Qed.

Lemma filter_map_length (P : FunctionInfo → bool) (fns : list FunctionInfo) :
  (∀ fn, P (t fn) = P fn) →
  length (List.filter P (map t fns)) = length (List.filter P fns).
Proof.
  intros HP. induction fns as [|fn fns IH]; [done|]. cbn [map List.filter].
  rewrite HP. destruct (P fn); cbn [length]; by rewrite IH.
Qed.

(** X17: The document shows nothing else of a record: changing the records in
    any other respect (their file name, absolute path or name space,
    their keywords after the eighth) leaves the document as it is. *)
Theorem markdown_text_rendered_fields (functions : list FunctionInfo) :
  markdown_text caseLower (map t functions) = markdown_text caseLower functions.
Proof.
  rewrite !markdown_text_sections.
  rewrite (group_keys_map _ _ category_of_same).
  f_equal; [|f_equal; [|f_equal; f_equal]].
  - rewrite !write_header_counts, length_map.
    rewrite !filter_map_length; [done|..];
      intros fn; by destruct (t_same fn) as (_ & _ & _ & _ & _ & ? & ? & _).
  - apply flat_map_ext. intros category. unfold write_nav.
    destruct (group_keys_spec category_of (map t functions)) as (_ & _ & Hs1).
    destruct (group_keys_spec category_of functions) as (_ & _ & Hs2).
    unfold build_categoryMap. rewrite Hs1, Hs2.
    by rewrite (with_key_map _ _ _ category_of_same), length_map.
  - apply flat_map_ext. intros category. apply category_section_same.
Qed.

End RenderedFields.

(** Erasing what the document does not show. *)
Definition demo_erase (fn : FunctionInfo) : FunctionInfo :=
  mkFunctionInfo [] [] (RelativePath fn) [] (ClassName fn) (FuncName fn)
    (Comments fn) (Signature fn) (IsUnityEvent fn) (IsCoroutine fn)
    (Attributes fn) (take 8 (Keywords fn)).

Lemma markdown_text_rendered_fields_witness :
  markdown_text demo_caseLower (map demo_erase demo_records)
  = markdown_text demo_caseLower demo_records.
Proof.
  apply (markdown_text_rendered_fields demo_caseLower demo_erase).
  intros fn. unfold same_rendering, demo_erase.
  cbn [RelativePath ClassName FuncName Comments Signature IsUnityEvent IsCoroutine
       Attributes Keywords].
  repeat split. rewrite take_take. f_equal.
Defined.

(** ** The declaration pattern and comment lines *)

(** A property of bytes that holds of all 256 of them. *)
Lemma ascii_forall (P : ascii → bool) :
  forallb (λ n, P (byte_of (Z.of_nat n))) (seq 0 256) = true → ∀ c, P c = true.
Proof.
  intros H c. rewrite forallb_forall in H.
  rewrite <- (byte_of_byte_val c). pose proof (byte_val_range c) as Hc.
  specialize (H (Z.to_nat (byte_val c))). rewrite Z2Nat.id in H by lia.
  apply H, in_seq. lia.
Qed.

(** The expressions all of whose characters and classes are within [P]. *)
Fixpoint chars_in (P : ascii → bool) (re : regexp.Regexp) : Prop :=
  match re with
  | regexp.Char c => P c = true
  | regexp.Class p => ∀ c, implb (p c) (P c) = true
  | regexp.Cat a b | regexp.Alt a b => chars_in P a ∧ chars_in P b
  | regexp.Star a | regexp.Group _ a => chars_in P a
  | _ => True
  end.

Lemma lang_chars (P : ascii → bool) (re : regexp.Regexp) :
  chars_in P re → ∀ w, lang re w → Forall (λ c, P c = true) w.
Proof.
  induction re as [|c|p|a IHa b IHb|a IHa b IHb|a IHa|i a IHa|];
    cbn [chars_in lang]; intros Hin w.
  - intros ->. constructor.
  - intros ->. by constructor.
  - intros (c & -> & Hc). constructor; [|constructor].
    specialize (Hin c). by rewrite Hc in Hin.
  - destruct Hin as [Ha Hb]. intros (u & v & -> & Hu & Hv).
    apply Forall_app. split; [by apply IHa|by apply IHb].
  - destruct Hin as [Ha Hb]. intros [Hw|Hw]; [by apply IHa|by apply IHb].
  - intros (ws & -> & Hws). induction Hws as [|x ws Hx _ IH]; [constructor|].
    cbn [concat]. apply Forall_app. split; [by apply IHa|done].
  - by apply IHa.
  - intros ->. constructor.
Qed.

Lemma lang_Seq_app (l1 l2 : list regexp.Regexp) (w : gostring) :
  lang (regexp.Seq (l1 ++ l2)) w →
  ∃ u v, w = u ++ v ∧ lang (regexp.Seq l1) u ∧ lang (regexp.Seq l2) v.
Proof.
  revert w. induction l1 as [|a l1 IH]; intros w; cbn [app regexp.Seq fold_right lang].
  - intros Hw. by exists [], w.
  - intros (u & v & -> & Hu & (u' & v' & -> & Hu' & Hv')%IH).
    exists (u ++ u'), v'. split; [by rewrite app_assoc|]. split; [|done].
    by exists u, u'.
Qed.

(** What the declaration pattern reads before the opening parenthesis:
    white space, annotations, modifiers, the return type and the name. *)
Definition declaration_byte (c : ascii) : bool :=
  regexp.perl_w c || regexp.perl_s c || regexp.one_of "[],()=.<>" c.

Definition function_re_head : list regexp.Regexp :=
  [regexp.BeginLine; regexp.Star s_;
   regexp.Star (regexp.Seq
     [regexp.Char "[";
      regexp.Plus (regexp.Class
        (fun c => regexp.perl_w c || regexp.perl_s c || regexp.one_of ",()=." c));
      regexp.Char "]"; regexp.Star s_]);
   regexp.Plus (regexp.Group 1
     (regexp.Alts [regexp.Lit "public"; regexp.Lit "private"; regexp.Lit "protected";
                   regexp.Lit "internal"; regexp.Lit "static"; s_]));
   regexp.Group 2 (regexp.Plus (regexp.Class
     (fun c => regexp.perl_w c || regexp.one_of "<>[]" c)));
   regexp.Plus s_;
   regexp.Group 3 (regexp.Plus w_);
   regexp.Star s_].

Lemma function_re_split :
  function_re
  = regexp.Seq (function_re_head
                ++ [regexp.Char "(";
                    regexp.Group 4 (regexp.Star (regexp.Class (regexp.none_of (bytes ")"))));
                    regexp.Char ")"]).
Proof. reflexivity. Qed.

Lemma function_re_head_chars : chars_in declaration_byte (regexp.Seq function_re_head).
Proof.
  cbv [function_re_head regexp.Seq regexp.Plus regexp.Alts regexp.Lit fold_right fold_left
       map bytes list_ascii_of_string chars_in s_ w_].
  repeat split; try reflexivity; apply ascii_forall; vm_compute; reflexivity.
Qed.

(** A text the declaration pattern matches: bytes of the kinds above, then
    an opening parenthesis. *)
Lemma function_re_lang (w : gostring) :
  lang function_re w →
  ∃ head rest, w = head ++ "("%char :: rest
               ∧ Forall (λ c, declaration_byte c = true) head.
Proof.
  rewrite function_re_split.
  intros (head & tail & -> & Hhead & Htail)%lang_Seq_app.
  cbn [regexp.Seq fold_right lang] in Htail.
  destruct Htail as (u & v & -> & -> & _).
  exists head, v. split; [done|].
  by apply (lang_chars declaration_byte _ function_re_head_chars).
Qed.

(** A pattern that starts with the beginning of a line matches a text
    without line feed at its first byte only. *)
Lemma search_BeginLine (r : regexp.Regexp) (s before : gostring) :
  regexp.newline ∉ s →
  regexp.search (regexp.Cat regexp.BeginLine r) false before s = None.
Proof.
  revert before. induction s as [|c s IH]; intros before Hnl; [reflexivity|].
  cbn [regexp.search regexp.match_at regexp.run].
  replace (byte_eqb c regexp.newline) with false.
  - apply IH. set_solver.
  - symmetry. apply not_true_is_false. intros ->%byte_eqb_eq. set_solver.
Qed.

Lemma slash_not_declaration_byte : declaration_byte "/"%char = false.
Proof. reflexivity. Qed.

(** The declaration pattern does not match a line without line feed
    whose trimmed text starts with [//]: before its opening parenthesis a
    match reads no slash. *)
Lemma function_re_comment_line (line : gostring) :
  regexp.newline ∉ line → is_comment_line line = true →
  regexp.FindStringSubmatch function_re line = None.
Proof.
  intros Hnl Hc. unfold regexp.FindStringSubmatch.
  destruct (regexp.search function_re true [] line) as [m|] eqn:Hs; [exfalso|done].
  assert (∃ w s', line = w ++ s' ∧ lang function_re w) as (w & s' & Hline & Hw).
  { destruct line as [|c line]; cbn [regexp.search] in Hs.
    - destruct (regexp.match_at function_re true [] []) eqn:E; [|done].
      apply run_sound in E as (w & s' & _ & _ & ? & ? & _). by exists w, s'.
    - destruct (regexp.match_at function_re true [] (c :: line)) eqn:E.
      + apply run_sound in E as (w & s' & _ & _ & ? & ? & _). by exists w, s'.
      + rewrite function_re_split in Hs.
        replace (byte_eqb c regexp.newline) with false in Hs.
        * cbn [function_re_head app regexp.Seq fold_right] in Hs.
          rewrite search_BeginLine in Hs; [done|set_solver].
        * symmetry. apply not_true_is_false. intros ->%byte_eqb_eq. set_solver. }
  apply function_re_lang in Hw as (head & rest & -> & Hhead).
  unfold is_comment_line in Hc. apply HasPrefix_spec in Hc as [t Ht].
  destruct (TrimSpace_split line) as (a & b & Hl & Ha & _).
  rewrite Ht in Hl. rewrite Hl in Hline. cbn [bytes list_ascii_of_string app] in Hline.
  rewrite <- !app_assoc in Hline. cbn [app] in Hline.
  rewrite Forall_forall in Ha, Hhead.
  apply app_eq_inv in Hline as [(k & Hk1 & Hk2)|(k & Hk1 & Hk2)].
  - destruct k as [|x k]; cbn [app] in Hk2; injection Hk2 as Hx _.
    + discriminate Hx.
    + subst x a. apply space_byte_not_paren, Ha, elem_of_app. right. by left.
  - destruct k as [|x k]; cbn [app] in Hk2; injection Hk2 as Hx _.
    + discriminate Hx.
    + subst x head.
      assert (declaration_byte "/"%char = true) as Hbad
        by (apply Hhead, elem_of_app; right; by left).
      discriminate Hbad.
Qed.

Lemma Split_from_pieces (s : gostring) (sep : ascii) :
  ∀ (cur piece : gostring),
  sep ∉ cur → piece ∈ strings.Split_from cur s sep → sep ∉ piece.
Proof.
  induction s as [|x s IH]; intros cur piece Hcur; cbn [strings.Split_from].
  - by intros ->%list_elem_of_singleton.
  - destruct (byte_eqb x sep) eqn:E.
    + intros [->|Hp]%elem_of_cons; [done|]. apply (IH []); [apply not_elem_of_nil|done].
    + apply IH. intros [?|Hx%list_elem_of_singleton]%elem_of_app; [done|].
      subst x. by rewrite byte_eqb_refl in E.
Qed.

(** X18: No comment line of a file is taken for a declaration: on the lines of
    a file, the declaration pattern of [NewUnityParser] matches no line
    whose trimmed text starts with [//], so a line gives a record exactly
    when it is not an annotation line and the pattern matches it. *)
Theorem ParseFile_comment_lines (w : World) (filePath line : gostring) :
  line ∈ file_lines w filePath →
  (is_comment_line line = true → matches_declaration NewUnityParser line = false)
  ∧ emits_record NewUnityParser line
    = negb (is_annotation_line line) && matches_declaration NewUnityParser line.
Proof.
  intros Hline.
  assert (is_comment_line line = true → matches_declaration NewUnityParser line = false)
    as Hcomment.
  { intros Hc. unfold matches_declaration. cbn [functionRegex NewUnityParser].
    rewrite function_re_comment_line; [by apply bool_decide_eq_false_2, is_Some_None|..|done].
    eapply (Split_from_pieces _ _ []); [apply not_elem_of_nil|exact Hline]. }
  split; [done|]. unfold emits_record.
  destruct (is_comment_line line); [|by rewrite andb_true_r].
  rewrite Hcomment by done. by rewrite !andb_false_r.
Qed.

Lemma ParseFile_comment_lines_witness :
  (is_comment_line (bytes "  // public void Old() { }") = true →
   matches_declaration NewUnityParser (bytes "  // public void Old() { }") = false)
  ∧ emits_record NewUnityParser (bytes "  // public void Old() { }")
    = negb (is_annotation_line (bytes "  // public void Old() { }"))
      && matches_declaration NewUnityParser (bytes "  // public void Old() { }").
Proof.
  apply (ParseFile_comment_lines
           (demo_world [("p/Assets/o.cs", Some "  // public void Old() { }
  public void New() { }")]%string NotDir [])
           (bytes "p/Assets/o.cs")).
  vm_compute. left.
Defined.

(** ** cleanXMLTags *)

Lemma lang_Lit_bytes (l : gostring) (w : gostring) :
  lang (regexp.Seq (map regexp.Char l)) w → w = l.
Proof.
  revert w. induction l as [|c l IH]; intros w; cbn [map regexp.Seq fold_right lang].
  - done.
  - intros (u & v & -> & -> & Hv). cbn [app]. f_equal. by apply IH.
Qed.

(** The literal an expression starts with. *)
Definition starts_with (re : regexp.Regexp) (l : gostring) : Prop :=
  ∀ w, lang re w → ∃ v, w = l ++ v.

Lemma starts_with_Lit (s : string) (rest : list regexp.Regexp) :
  starts_with (regexp.Seq (regexp.Lit s :: rest)) (bytes s).
Proof.
  intros w. cbn [regexp.Seq fold_right lang].
  intros (u & v & -> & Hu & _). apply lang_Lit_bytes in Hu as ->. by exists v.
Qed.

Lemma summaryOpen_re_starts : starts_with summaryOpen_re (bytes "<summary>").
Proof. intros w ->%lang_Lit_bytes. exists []. by rewrite app_nil_r. Qed.

Lemma summaryClose_re_starts : starts_with summaryClose_re (bytes "</summary>").
Proof. intros w ->%lang_Lit_bytes. exists []. by rewrite app_nil_r. Qed.

Lemma param_re_starts : starts_with param_re (bytes "<param name=").
Proof. apply starts_with_Lit. Qed.

Lemma returns_re_starts : starts_with returns_re (bytes "<returns>").
Proof. apply starts_with_Lit. Qed.

(** No match where the literal does not occur. *)
Lemma search_none (re : regexp.Regexp) (l s : gostring) (bol : bool) (before : gostring) :
  starts_with re l → strings.Contains s l = false →
  regexp.search re bol before s = None.
Proof.
  intros Hre Hno. destruct (regexp.search re bol before s) as [m|] eqn:E; [|done].
  apply search_sound in E as (pre & w & post & -> & (v & ->)%Hre).
  assert (strings.Contains (pre ++ (l ++ v) ++ post) l = true) as Hyes.
  { apply Contains_spec. exists pre, (v ++ post). by rewrite <- app_assoc. }
  congruence.
Qed.

Lemma Contains_skip (pre s sub : gostring) (c : ascii) :
  c ∉ pre → strings.Contains (pre ++ s) (c :: sub) = strings.Contains s (c :: sub).
Proof.
  induction pre as [|x pre IH]; intros Hc; [done|].
  cbn [app strings.Contains strings.HasPrefix].
  replace (byte_eqb x c) with false.
  - cbn [andb orb]. apply IH. set_solver.
  - symmetry. apply not_true_is_false. intros ->%byte_eqb_eq. set_solver.
Qed.

Lemma Contains_absent (s sub : gostring) (c : ascii) :
  c ∉ s → strings.Contains s (c :: sub) = false.
Proof.
  intros Hc. rewrite <- (app_nil_r s), Contains_skip by done. reflexivity.
Qed.

Lemma replace_from_none (re : regexp.Regexp) (fuel : nat) (bol : bool)
    (src repl : gostring) :
  regexp.search re bol [] src = None → regexp.replace_from fuel re bol src repl = src.
Proof. intros H. destruct fuel; cbn [regexp.replace_from]; [done|by rewrite H]. Qed.

Lemma ReplaceAllString_absent (re : regexp.Regexp) (l src repl : gostring) :
  starts_with re l → strings.Contains src l = false →
  regexp.ReplaceAllString re src repl = src.
Proof.
  intros Hre Hno. apply replace_from_none. by apply (search_none re l).
Qed.

(** X19: A comment without the character [<] is only trimmed. *)
Theorem cleanXMLTags_no_tag (s : gostring) :
  "<"%char ∉ s → cleanXMLTags s = strings.TrimSpace s.
Proof.
  intros Hs. unfold cleanXMLTags.
  rewrite (ReplaceAllString_absent _ _ _ _ summaryOpen_re_starts)
    by (by apply Contains_absent).
  rewrite (ReplaceAllString_absent _ _ _ _ summaryClose_re_starts)
    by (by apply Contains_absent).
  rewrite (ReplaceAllString_absent _ _ _ _ param_re_starts)
    by (by apply Contains_absent).
  rewrite (ReplaceAllString_absent _ _ _ _ returns_re_starts)
    by (by apply Contains_absent).
  done.
Qed.

Lemma cleanXMLTags_no_tag_witness :
  cleanXMLTags (bytes "Moves the player. ") = strings.TrimSpace (bytes "Moves the player. ").
Proof.
  apply (cleanXMLTags_no_tag (bytes "Moves the player. ")).
  vm_compute. intros H. repeat (apply elem_of_cons in H as [H|H]; [discriminate H|]).
  by apply elem_of_nil in H.
Defined.

(** *** Elements *)

(** Whether the position after the bytes of [l] is at the beginning of a
    line. *)
Definition bol_after (bol : bool) (l : gostring) : bool :=
  fold_left (λ _ c, byte_eqb c regexp.newline) l bol.

Lemma run_Lit_bytes {R : Type} (l : gostring) :
  ∀ (bol : bool) (post : gostring) (cs : regexp.captures)
    (k : bool → gostring → regexp.captures → option R),
  regexp.run (regexp.Seq (map regexp.Char l)) bol (l ++ post) cs k
  = k (bol_after bol l) post cs.
Proof.
  induction l as [|c l IH]; intros bol post cs k; [reflexivity|].
  cbn [map regexp.Seq fold_right app]. rewrite run_Cat. cbn [regexp.run].
  rewrite byte_eqb_refl. apply IH.
Qed.

Lemma run_Group {R : Type} (i : nat) (a : regexp.Regexp) (bol : bool) (s : gostring)
    (cs : regexp.captures) (k : bool → gostring → regexp.captures → option R) :
  regexp.run (regexp.Group i a) bol s cs k
  = regexp.run a bol s cs (fun bol' s' cs' =>
      k bol' s' ((i, take (length s - length s')%nat s) :: cs')).
Proof. reflexivity. Qed.

Lemma take_length_diff {A : Type} (l post : list A) :
  take (length (l ++ post) - length post) (l ++ post) = l.
Proof. by rewrite length_app, Nat.add_sub, take_app_length. Qed.

(** A greedy class repetition that reads the whole run, in front of a
    continuation that succeeds there. *)
Lemma star_class_all {R : Type} (p : ascii → bool)
    (k : bool → gostring → regexp.captures → option R)
    (cs : regexp.captures) (post : gostring) (res : R) (body : gostring) :
  Forall (λ c, p c = true) body →
  match post with [] => True | y :: _ => p y = false end →
  ∀ fuel bol, (length (body ++ post) ≤ fuel)%nat →
    k (bol_after bol body) post cs = Some res →
    star_loop (regexp.Class p) k fuel bol (body ++ post) cs = Some res.
Proof.
  intros Hbody Hpost. induction Hbody as [|w ws Hw _ IH]; intros fuel bol Hfuel Hk.
  - cbn [app bol_after fold_left] in *.
    destruct fuel as [|n]; cbn [star_loop regexp.run]; [done|].
    destruct post as [|y post]; [done|]. by rewrite Hpost.
  - destruct fuel as [|n]; [cbn in Hfuel; lia|].
    cbn [app star_loop regexp.run]. rewrite Hw.
    replace (length (ws ++ post) <? length (w :: ws ++ post))%nat with true
      by (symmetry; apply Nat.ltb_lt; cbn; lia).
    rewrite (IH n); [done|cbn in Hfuel; lia|done].
Qed.

Lemma search_skip (re : regexp.Regexp) (c : ascii) (l pre : gostring) :
  starts_with re (c :: l) → c ∉ pre →
  ∀ (bol : bool) (before s : gostring),
    regexp.search re bol before (pre ++ s)
    = regexp.search re (bol_after bol pre) (before ++ pre) s.
Proof.
  intros Hre. induction pre as [|x pre IH]; intros Hc bol before s.
  { by rewrite app_nil_r. }
  cbn [app regexp.search].
  destruct (regexp.match_at re bol before (x :: pre ++ s)) as [m|] eqn:E.
  { apply run_sound in E as (w & s' & _ & _ & Hs & (v & ->)%Hre & _).
    injection Hs as -> _. set_solver. }
  rewrite IH by set_solver. cbn [bol_after fold_left].
  by rewrite <- app_assoc.
Qed.

(** One match, and none in what follows it. *)
Lemma replace_from_once (re : regexp.Regexp) (fuel : nat) (bol : bool)
    (src repl : gostring) (m : regexp.Match) :
  regexp.search re bol [] src = Some m →
  regexp.search re (regexp.m_bol m) [] (regexp.m_after m) = None →
  regexp.replace_from (S fuel) re bol src repl
  = regexp.m_before m ++ regexp.expand (S (length repl)) repl m ++ regexp.m_after m.
Proof.
  intros Hm Hnone. cbn [regexp.replace_from]. rewrite Hm.
  destruct (length (regexp.m_after m) <? length src)%nat; [|done].
  by rewrite replace_from_none.
Qed.

Lemma match_at_Lit (l : gostring) (bol : bool) (before post : gostring) :
  regexp.match_at (regexp.Seq (map regexp.Char l)) bol before (l ++ post)
  = Some (regexp.mkMatch before l [] post (bol_after bol l)).
Proof.
  unfold regexp.match_at. rewrite run_Lit_bytes. by rewrite take_length_diff.
Qed.

Definition not_lt : ascii → bool := regexp.none_of (bytes "<").

Lemma not_lt_spec (body : gostring) :
  "<"%char ∉ body → Forall (λ c, not_lt c = true) body.
Proof.
  intros H. apply Forall_forall. intros c Hc. unfold not_lt, regexp.none_of.
  cbn [bytes list_ascii_of_string existsb]. rewrite orb_false_r.
  apply negb_true_iff, not_true_is_false. intros ->%byte_eqb_eq. done.
Qed.

Lemma run_Char {R : Type} (c : ascii) (bol : bool) (s : gostring)
    (cs : regexp.captures) (k : bool → gostring → regexp.captures → option R) :
  regexp.run (regexp.Char c) bol (c :: s) cs k = k (byte_eqb c regexp.newline) s cs.
Proof. cbn [regexp.run]. by rewrite byte_eqb_refl. Qed.

Lemma run_Class {R : Type} (p : ascii → bool) (x : ascii) (bol : bool) (s : gostring)
    (cs : regexp.captures) (k : bool → gostring → regexp.captures → option R) :
  p x = true →
  regexp.run (regexp.Class p) bol (x :: s) cs k = k (byte_eqb x regexp.newline) s cs.
Proof. intros Hp. cbn [regexp.run]. by rewrite Hp. Qed.

Lemma run_Empty {R : Type} (bol : bool) (s : gostring)
    (cs : regexp.captures) (k : bool → gostring → regexp.captures → option R) :
  regexp.run regexp.Empty bol s cs k = k bol s cs.
Proof. reflexivity. Qed.

(** The [returns] pattern on a [returns] element whose body has no [<]. *)
Lemma run_returns {R : Type} (body post : gostring) (bol : bool)
    (cs : regexp.captures) (k : bool → gostring → regexp.captures → option R) (res : R) :
  "<"%char ∉ body →
  k false post ((1%nat, body) :: cs) = Some res →
  regexp.run returns_re bol (bytes "<returns>" ++ body ++ bytes "</returns>" ++ post) cs k
  = Some res.
Proof.
  intros Hbody Hk. unfold returns_re.
  cbn [regexp.Seq fold_right]. unfold regexp.Lit.
  rewrite run_Cat, run_Lit_bytes, run_Cat, run_Group, run_Star.
  apply star_class_all with (post := bytes "</returns>" ++ post);
    [by apply not_lt_spec|reflexivity|lia|].
  rewrite take_length_diff, run_Cat, run_Lit_bytes, run_Empty. exact Hk.
Qed.

Definition not_dquote : ascii → bool := regexp.none_of [dquote].

(** The [param] pattern on a [param] element with a non-empty name
    without double quote and a body without [<]. *)
Lemma run_param {R : Type} (name body post : gostring) (bol : bool)
    (cs : regexp.captures) (k : bool → gostring → regexp.captures → option R) (res : R) :
  name ≠ [] → dquote ∉ name → "<"%char ∉ body →
  k false post ((1%nat, body) :: cs) = Some res →
  regexp.run param_re bol
    (bytes "<param name=" ++ dquote :: name ++ dquote :: bytes ">" ++ body
     ++ bytes "</param>" ++ post) cs k
  = Some res.
Proof.
  intros Hne Hname Hbody Hk. unfold param_re.
  cbn [regexp.Seq fold_right]. unfold regexp.Lit, regexp.Plus.
  destruct name as [|n0 name]; [done|].
  assert (Forall (λ c, not_dquote c = true) (n0 :: name)) as Hnd.
  { apply Forall_forall. intros c Hc. unfold not_dquote, regexp.none_of.
    cbn [existsb]. rewrite orb_false_r.
    apply negb_true_iff, not_true_is_false. intros ->%byte_eqb_eq. done. }
  apply Forall_cons in Hnd as [Hn0 Hnd]. fold not_dquote.
  rewrite run_Cat, run_Lit_bytes, run_Cat, run_Char, !run_Cat.
  cbn [app]. rewrite (run_Class not_dquote n0) by done. rewrite run_Star.
  apply star_class_all
    with (post := dquote :: bytes ">" ++ body ++ bytes "</param>" ++ post);
    [done|reflexivity|lia|].
  rewrite run_Cat, run_Char, run_Cat, run_Lit_bytes, run_Cat, run_Group, run_Star.
  apply star_class_all with (post := bytes "</param>" ++ post);
    [by apply not_lt_spec|reflexivity|lia|].
  rewrite take_length_diff, run_Cat, run_Lit_bytes, run_Empty. exact Hk.
Qed.

Ltac absent_byte :=
  rewrite <- Contains_byte; vm_compute; discriminate.

Lemma Contains_element (first mid last sub : gostring) :
  "<"%char ∉ first → "<"%char ∉ mid →
  strings.HasPrefix ("<"%char :: first ++ mid ++ last) ("<"%char :: sub) = false →
  strings.Contains last ("<"%char :: sub) = false →
  strings.Contains ("<"%char :: first ++ mid ++ last) ("<"%char :: sub) = false.
Proof.
  intros Hfirst Hmid Hprefix Hlast. cbn [strings.Contains]. rewrite Hprefix.
  cbn [orb]. rewrite app_assoc, Contains_skip; [done|].
  intros [?|?]%elem_of_app; done.
Qed.

Lemma search_nil (re : regexp.Regexp) (c : ascii) (l : gostring) (bol : bool) :
  starts_with re (c :: l) → regexp.search re bol [] [] = None.
Proof. intros Hre. by apply (search_none re (c :: l)). Qed.

(** X20: The documentation elements, when their text has no [<]: the tags of
    a [summary] element are removed; a [returns] element and a [param]
    element (with a quoted, non-empty name) are replaced by a label and
    their text; the result is trimmed. *)
Theorem cleanXMLTags_elements :
  (∀ body, "<"%char ∉ body →
     cleanXMLTags (bytes "<summary>" ++ body ++ bytes "</summary>")
     = strings.TrimSpace body)
  ∧ (∀ body, "<"%char ∉ body →
       cleanXMLTags (bytes "<returns>" ++ body ++ bytes "</returns>")
       = strings.TrimSpace (bytes "返回: " ++ body))
  ∧ (∀ name body,
       name ≠ [] → dquote ∉ name → "<"%char ∉ name → "<"%char ∉ body →
       cleanXMLTags (bytes "<param name=" ++ dquote :: name ++ dquote :: bytes ">"
                     ++ body ++ bytes "</param>")
       = strings.TrimSpace (bytes "参数: " ++ body)).
Proof.
  split; [|split].
  - intros body Hbody. unfold cleanXMLTags.
    assert (regexp.ReplaceAllString summaryOpen_re
              (bytes "<summary>" ++ body ++ bytes "</summary>") (bytes "")
            = body ++ bytes "</summary>") as ->.
    { unfold regexp.ReplaceAllString.
      rewrite (replace_from_once _ _ _ _ _
                 (regexp.mkMatch [] (bytes "<summary>") [] (body ++ bytes "</summary>")
                    (bol_after true (bytes "<summary>")))).
      - reflexivity.
      - apply search_match_at. apply (match_at_Lit (bytes "<summary>")).
      - apply (search_none _ _ _ _ _ summaryOpen_re_starts).
        etrans; [apply (Contains_skip body _ (bytes "summary>") "<"%char Hbody)|].
        reflexivity. }
    assert (regexp.ReplaceAllString summaryClose_re (body ++ bytes "</summary>") (bytes "")
            = body) as ->.
    { unfold regexp.ReplaceAllString.
      rewrite (replace_from_once _ _ _ _ _
                 (regexp.mkMatch ([] ++ body) (bytes "</summary>") [] []
                    (bol_after (bol_after true body) (bytes "</summary>")))).
      - cbn [regexp.m_before regexp.m_after regexp.expand app]. by rewrite app_nil_r.
      - rewrite (search_skip _ _ _ body summaryClose_re_starts Hbody).
        apply search_match_at.
        rewrite <- (app_nil_r (bytes "</summary>")) at 1.
        apply (match_at_Lit (bytes "</summary>")).
      - apply (search_nil _ _ _ _ summaryClose_re_starts). }
    rewrite (ReplaceAllString_absent _ _ _ _ param_re_starts)
      by (by apply Contains_absent).
    rewrite (ReplaceAllString_absent _ _ _ _ returns_re_starts)
      by (by apply Contains_absent).
    done.
  - intros body Hbody. unfold cleanXMLTags.
    rewrite (ReplaceAllString_absent _ _ _ _ summaryOpen_re_starts)
      by (apply (Contains_element (bytes "returns>") body (bytes "</returns>"));
          [absent_byte|done|reflexivity|reflexivity]).
    rewrite (ReplaceAllString_absent _ _ _ _ summaryClose_re_starts)
      by (apply (Contains_element (bytes "returns>") body (bytes "</returns>"));
          [absent_byte|done|reflexivity|reflexivity]).
    rewrite (ReplaceAllString_absent _ _ _ _ param_re_starts)
      by (apply (Contains_element (bytes "returns>") body (bytes "</returns>"));
          [absent_byte|done|reflexivity|reflexivity]).
    f_equal. unfold regexp.ReplaceAllString.
    rewrite (replace_from_once _ _ _ _ _
               (regexp.mkMatch [] (bytes "<returns>" ++ body ++ bytes "</returns>")
                  [(1%nat, body)] [] false)).
    + cbn [regexp.m_before regexp.m_after app]. rewrite app_nil_r.
      change (regexp.expand _ _ _) with (bytes "返回: " ++ body ++ []).
      by rewrite app_nil_r.
    + apply search_match_at. unfold regexp.match_at.
      rewrite <- (app_nil_r (bytes "</returns>")) at 1.
      apply run_returns; [done|].
      change (length (@nil ascii)) with 0%nat. by rewrite Nat.sub_0_r, firstn_all.
    + apply (search_nil _ _ _ _ returns_re_starts).
  - intros name body Hne Hdq Hname Hbody. unfold cleanXMLTags.
    assert ("<"%char ∉ dquote :: name ++ dquote :: bytes ">" ++ body) as Hmid.
    { intros [H|[H|[H|H]%elem_of_cons]%elem_of_app]%elem_of_cons; try done.
      apply elem_of_app in H as [H|H]; [|done]. revert H. absent_byte. }
    assert (bytes "<param name=" ++ dquote :: name ++ dquote :: bytes ">"
              ++ body ++ bytes "</param>"
            = "<"%char :: bytes "param name="
                ++ (dquote :: name ++ dquote :: bytes ">" ++ body) ++ bytes "</param>")
      as Hshape.
    { repeat first [rewrite <- app_assoc
                   | progress cbn [app bytes list_ascii_of_string]].
      reflexivity. }
    rewrite (ReplaceAllString_absent _ _ _ _ summaryOpen_re_starts)
      by (rewrite Hshape; apply Contains_element;
          [absent_byte|done|reflexivity|reflexivity]).
    rewrite (ReplaceAllString_absent _ _ _ _ summaryClose_re_starts)
      by (rewrite Hshape; apply Contains_element;
          [absent_byte|done|reflexivity|reflexivity]).
    assert (regexp.ReplaceAllString param_re
              (bytes "<param name=" ++ dquote :: name ++ dquote :: bytes ">"
               ++ body ++ bytes "</param>") (bytes "参数: $1")
            = bytes "参数: " ++ body) as ->.
    { unfold regexp.ReplaceAllString.
      rewrite (replace_from_once _ _ _ _ _
                 (regexp.mkMatch []
                    (bytes "<param name=" ++ dquote :: name ++ dquote :: bytes ">"
                     ++ body ++ bytes "</param>")
                    [(1%nat, body)] [] false)).
      - cbn [regexp.m_before regexp.m_after app]. rewrite app_nil_r.
        change (regexp.expand _ _ _) with (bytes "参数: " ++ body ++ []).
        by rewrite app_nil_r.
      - apply search_match_at. unfold regexp.match_at.
        rewrite <- (app_nil_r (bytes "</param>")) at 1.
        apply run_param; [done..|].
        change (length (@nil ascii)) with 0%nat. by rewrite Nat.sub_0_r, firstn_all.
      - apply (search_nil _ _ _ _ param_re_starts). }
    rewrite (ReplaceAllString_absent _ _ _ _ returns_re_starts); [done|].
    apply Contains_absent. intros [H|H]%elem_of_app; [|done]. revert H. absent_byte.
Qed.

Example cleanXMLTags_examples :
  cleanXMLTags (bytes "<summary>") = []
  ∧ cleanXMLTags (bytes "</summary>") = []
  ∧ cleanXMLTags (bytes "<summary>Moves the player.</summary>") = bytes "Moves the player."
  ∧ cleanXMLTags (bytes "<returns>The speed.</returns>") = bytes "返回: The speed."
  ∧ cleanXMLTags (bytes "<param name=" ++ dquote :: bytes "dt" ++ dquote
                  :: bytes ">Elapsed time.</param>") = bytes "参数: Elapsed time.".
Proof. vm_compute. repeat split; reflexivity. Qed.

(** ** ParseFile: which lines a declaration takes its comments from *)

(** The lines at which the loop empties the accumulators without a
    record: statements, that is lines that are neither annotation lines,
    nor comment lines, nor declarations, nor blank, that do not start
    with [[] and hold no brace. *)
Definition resets_accumulators (p : UnityParser) (line : gostring) : bool :=
  let trimmed := strings.TrimSpace line in
  negb (is_annotation_line line) && negb (is_comment_line line)
  && negb (matches_declaration p line)
  && negb (gostring_eqb trimmed [])
  && negb (strings.HasPrefix trimmed (bytes "["))
  && negb (strings.Contains trimmed (bytes "{"))
  && negb (strings.Contains trimmed (bytes "}")).

(** The name the declaration pattern captures on a line. *)
Definition declared_name (p : UnityParser) (line : gostring) : gostring :=
  match regexp.FindStringSubmatch (functionRegex p) line with
  | Some match_ => submatch match_ 3
  | None => []
  end.

Section Attachment.
Variable caseLower : Z → Z.
Variable filepath_Rel : gostring → gostring → gostring.
Variable filepath_Base : gostring → gostring.

Local Abbreviation ParseFile_line' := (ParseFile_line caseLower filepath_Base).
Local Abbreviation ParseFile_lines' := (ParseFile_lines caseLower filepath_Base).
Local Abbreviation ParseFile' := (ParseFile caseLower filepath_Rel filepath_Base).

(** A line that is neither a declaration nor a statement only adds to
    the accumulators. *)
Lemma ParseFile_line_keeps (p : UnityParser) (ctx : FileContext) (st : ParseState)
    (line : gostring) :
  emits_record p line = false → resets_accumulators p line = false →
  ParseFile_line' p ctx st line
  = mkParseState (functions st) (currentComments st ++ line_comment line)
                 (currentAttributes st ++ line_attribute p line).
Proof.
  unfold ParseFile_line, emits_record, resets_accumulators, line_comment, line_attribute,
    is_annotation_line, is_comment_line, matches_declaration.
  destruct st as [fs cc ca]. cbn [functions currentComments currentAttributes].
  set (trimmed := strings.TrimSpace line).
  destruct (strings.HasPrefix trimmed (bytes "[") && strings.HasSuffix trimmed (bytes "]")) eqn:Ha.
  { intros _ _. destruct (regexp.FindStringSubmatch (attributeRegex p) trimmed);
      by rewrite ?app_nil_r. }
  destruct (strings.HasPrefix trimmed (bytes "///")) eqn:H3.
  { intros _ _. destruct (negb (gostring_eqb _ [])); by rewrite ?app_nil_r. }
  destruct (strings.HasPrefix trimmed (bytes "//")) eqn:H2.
  { intros _ _.
    destruct (negb (gostring_eqb _ []) && negb (strings.HasPrefix _ (bytes "/")));
      by rewrite ?app_nil_r. }
  cbn [negb andb].
  destruct (regexp.FindStringSubmatch (functionRegex p) line) as [match_|] eqn:Hm.
  { rewrite bool_decide_eq_true_2 by eauto. discriminate. }
  rewrite bool_decide_eq_false_2 by (by intros [? ?]). cbn [negb andb].
  intros _ Hreset. rewrite !app_nil_r.
  destruct (negb (gostring_eqb trimmed [])); cbn [andb] in *; [|done].
  destruct (negb (strings.HasPrefix trimmed (bytes "["))); cbn [andb] in *; [|done].
  by rewrite Hreset.
Qed.

(** After a declaration or a statement both accumulators are empty. *)
Lemma ParseFile_line_barrier (p : UnityParser) (ctx : FileContext) (st : ParseState)
    (line : gostring) :
  emits_record p line || resets_accumulators p line = true →
  currentComments (ParseFile_line' p ctx st line) = []
  ∧ currentAttributes (ParseFile_line' p ctx st line) = [].
Proof.
  intros [He|Hr]%orb_true_iff.
  - pose proof (ParseFile_line_step caseLower filepath_Base p ctx st line) as Hstep.
    rewrite He in Hstep. destruct Hstep as (m & fn & _ & -> & _). done.
  - revert Hr.
    unfold ParseFile_line, resets_accumulators, is_annotation_line, is_comment_line,
      matches_declaration.
    set (trimmed := strings.TrimSpace line).
    intros Hr. repeat (apply andb_true_iff in Hr as [Hr ?]).
    repeat match goal with H : negb _ = true |- _ => apply negb_true_iff in H end.
    rewrite Hr.
    assert (strings.HasPrefix trimmed (bytes "///") = false) as ->.
    { destruct (strings.HasPrefix trimmed (bytes "///")) eqn:E; [|done].
      apply HasPrefix_slashes in E. congruence. }
    match goal with H : strings.HasPrefix trimmed (bytes "//") = false |- _ => rewrite H end.
    destruct (regexp.FindStringSubmatch (functionRegex p) line) as [m|] eqn:Hm.
    { match goal with H : bool_decide _ = false |- _ =>
        apply bool_decide_eq_false in H; destruct H; eauto end. }
    repeat match goal with H : _ = false |- _ => rewrite H end. done.
Qed.

Lemma ParseFile_fold_keeps (p : UnityParser) (ctx : FileContext) (block : list gostring) :
  Forall (λ line, emits_record p line = false ∧ resets_accumulators p line = false) block →
  ∀ st, fold_left (ParseFile_line' p ctx) block st
        = mkParseState (functions st)
            (currentComments st ++ flat_map line_comment block)
            (currentAttributes st ++ flat_map (line_attribute p) block).
Proof.
  induction 1 as [|line block [He Hr] _ IH]; intros st; cbn [fold_left flat_map].
  - rewrite !app_nil_r. by destruct st.
  - rewrite IH, (ParseFile_line_keeps p ctx st line He Hr).
    cbn [functions currentComments currentAttributes]. by rewrite <- !app_assoc.
Qed.

(** X21: A declaration gets the comments and annotations of the lines since
    the last declaration or statement (or since the beginning of the
    file), all of them and nothing else. *)
Theorem ParseFile_lines_attachment (p : UnityParser) (ctx : FileContext)
    (pre block : list gostring) (decl : gostring) :
  (pre = [] ∨ ∃ pre' barrier,
     pre = pre' ++ [barrier]
     ∧ emits_record p barrier || resets_accumulators p barrier = true) →
  Forall (λ line, emits_record p line = false ∧ resets_accumulators p line = false) block →
  emits_record p decl = true →
  ∃ fn,
    functions (ParseFile_lines' p ctx (pre ++ block ++ [decl]))
    = functions (ParseFile_lines' p ctx pre) ++ [fn]
    ∧ FuncName fn = declared_name p decl
    ∧ Comments fn = flat_map line_comment block
    ∧ Attributes fn = flat_map (line_attribute p) block.
Proof.
  intros Hpre Hblock Hdecl. unfold ParseFile_lines.
  rewrite !fold_left_app. cbn [fold_left].
  set (st := fold_left (ParseFile_line' p ctx) pre (mkParseState [] [] [])).
  assert (currentComments st = [] ∧ currentAttributes st = []) as [Hcc Hca].
  { destruct Hpre as [->|(pre' & barrier & -> & Hb)]; [done|].
    unfold st. rewrite fold_left_app. cbn [fold_left].
    by apply ParseFile_line_barrier. }
  rewrite (ParseFile_fold_keeps p ctx block Hblock st), Hcc, Hca. cbn [app].
  pose proof (ParseFile_line_step caseLower filepath_Base p ctx
                (mkParseState (functions st) (flat_map line_comment block)
                   (flat_map (line_attribute p) block)) decl) as Hstep.
  rewrite Hdecl in Hstep.
  destruct Hstep as (m & fn & Hm & -> & _ & _ & _ & _ & _ & _ & _ & Hn & _ & Hc & Ha & _).
  exists fn. cbn [functions currentComments currentAttributes] in *.
  split; [done|]. split; [|done]. unfold declared_name. by rewrite Hm.
Qed.

(** X22: The records of a file come in the order of its lines, one for each
    line the loop takes for a declaration, with the name the pattern
    captures on that line and the trimmed line as signature. *)
Theorem ParseFile_records_in_line_order (w : World) (p : UnityParser)
    (filePath rootPath : gostring) :
  (os_ReadFile w filePath).2 = None →
  map (λ r, (FuncName r, Signature r)) (ParseFile' w p filePath rootPath).1
  = map (λ line, (declared_name p line, strings.TrimSpace line))
      (List.filter (emits_record p) (file_lines w filePath)).
Proof.
  unfold ParseFile, file_lines.
  destruct (os_ReadFile w filePath) as [content [e|]]; [done|]. intros _.
  cbn [fst snd]. unfold ParseFile_lines.
  set (ctx := mkFileContext _ _ _ _).
  assert (∀ lines st,
    map (λ r, (FuncName r, Signature r))
      (functions (fold_left (ParseFile_line' p ctx) lines st))
    = map (λ r, (FuncName r, Signature r)) (functions st)
      ++ map (λ line, (declared_name p line, strings.TrimSpace line))
           (List.filter (emits_record p) lines)) as Hfold.
  { induction lines as [|line lines IH]; intros st; cbn [fold_left List.filter].
    - by rewrite app_nil_r.
    - rewrite IH.
      pose proof (ParseFile_line_step caseLower filepath_Base p ctx st line) as Hstep.
      destruct (emits_record p line).
      + destruct Hstep as (m & fn & Hm & -> & _ & _ & _ & _ & _ & _ & _ & Hn & Hs & _).
        cbn [functions map]. rewrite map_app, <- app_assoc. cbn [map app].
        unfold declared_name. by rewrite Hm, Hn, Hs.
      + destruct Hstep as [-> _]. done. }
  by rewrite Hfold.
Qed.

End Attachment.

Lemma ParseFile_lines_attachment_witness :
  ∃ fn,
    functions (ParseFile_lines demo_caseLower demo_Base NewUnityParser
                 (mkFileContext [] [] [] [])
                 ([bytes "int hits;"]
                  ++ [bytes "/// Sets up."; bytes "[ContextMenu]"; bytes ""]
                  ++ [bytes "  void Setup() { }"]))
    = functions (ParseFile_lines demo_caseLower demo_Base NewUnityParser
                   (mkFileContext [] [] [] []) [bytes "int hits;"]) ++ [fn]
    ∧ FuncName fn = declared_name NewUnityParser (bytes "  void Setup() { }")
    ∧ Comments fn
      = flat_map line_comment [bytes "/// Sets up."; bytes "[ContextMenu]"; bytes ""]
    ∧ Attributes fn
      = flat_map (line_attribute NewUnityParser)
          [bytes "/// Sets up."; bytes "[ContextMenu]"; bytes ""].
Proof.
  apply (ParseFile_lines_attachment demo_caseLower demo_Base NewUnityParser
           (mkFileContext [] [] [] []) [bytes "int hits;"]
           [bytes "/// Sets up."; bytes "[ContextMenu]"; bytes ""]
           (bytes "  void Setup() { }")).
  - right. exists [], (bytes "int hits;"). split; [reflexivity|]. vm_compute. reflexivity.
  - repeat constructor; vm_compute; reflexivity.
  - vm_compute. reflexivity.
Defined.

Lemma ParseFile_records_in_line_order_witness :
  map (λ r, (FuncName r, Signature r))
    (ParseFile demo_caseLower demo_Rel demo_Base demo_update_attack NewUnityParser
       (bytes "p/Assets/b.cs") (bytes "p")).1
  = map (λ line, (declared_name NewUnityParser line, strings.TrimSpace line))
      (List.filter (emits_record NewUnityParser)
         (file_lines demo_update_attack (bytes "p/Assets/b.cs"))).
Proof.
  apply (ParseFile_records_in_line_order demo_caseLower demo_Rel demo_Base
           demo_update_attack NewUnityParser (bytes "p/Assets/b.cs") (bytes "p")).
  vm_compute. reflexivity.
Defined.

(** *** The section of a record *)

Lemma flat_map_elem_split {A B : Type} (f : A → list B) (l : list A) (x : A) :
  x ∈ l → ∃ a b, flat_map f l = a ++ f x ++ b.
Proof.
  intros (l1 & l2 & ->)%list_elem_of_split.
  exists (flat_map f l1), (flat_map f l2). by rewrite flat_map_app.
Qed.

Lemma occurs_app_l {A : Type} (x l l' : list A) :
  (∃ a b, l = a ++ x ++ b) → ∃ a b, l ++ l' = a ++ x ++ b.
Proof. intros (a & b & ->). exists a, (b ++ l'). by rewrite <- !app_assoc. Qed.

Lemma occurs_app_r {A : Type} (x l l' : list A) :
  (∃ a b, l = a ++ x ++ b) → ∃ a b, l' ++ l = a ++ x ++ b.
Proof. intros (a & b & ->). exists (l' ++ a), b. by rewrite <- !app_assoc. Qed.

Lemma occurs_flat_map {A B : Type} (f : A → list B) (l : list A) (x : A)
    (y : list B) :
  x ∈ l → (∃ a b, f x = a ++ y ++ b) → ∃ a b, flat_map f l = a ++ y ++ b.
Proof.
  intros (a & b & ->)%(flat_map_elem_split f) H.
  by apply occurs_app_r, occurs_app_l.
Qed.

(** The parts of the section of a record, after its name: the marks of
    the two flags; the line of its attributes, each in brackets and back
    quotes, separated by commas; its comments, one quoted line for each
    comment that is not blank; its first eight keywords in back quotes,
    separated by spaces. A part is empty when the record has no
    attribute, comment or keyword. *)
Definition function_marks (fn : FunctionInfo) : gostring :=
  (if IsUnityEvent fn then gs " 🎯Unity事件" else [])
  ++ (if IsCoroutine fn then gs " ⏱️协程" else []).

Definition function_attributes (fn : FunctionInfo) : gostring :=
  if (0 <? length (Attributes fn))%nat then
    gs "**特性**: "
    ++ strings.Join (map (λ attr, gs "`[" ++ attr ++ gs "]`") (Attributes fn)) (gs ", ")
    ++ gs "\n\n"
  else [].

Definition function_comments (fn : FunctionInfo) : gostring :=
  if (0 <? length (Comments fn))%nat then
    gs "**📝 说明**:\n"
    ++ flat_map (λ comment,
         if negb (gostring_eqb (strings.TrimSpace comment) [])
         then gs "> " ++ comment ++ gs "\n" else []) (Comments fn)
    ++ gs "\n"
  else [].

Definition function_keywords (fn : FunctionInfo) : gostring :=
  if (0 <? length (Keywords fn))%nat then
    gs "**🔑 关键词**: "
    ++ gs "`" ++ strings.Join (take 8 (Keywords fn)) (gs "` `") ++ gs "`"
    ++ gs "\n\n"
  else [].

(** The section of a record. *)
Definition function_section (fn : FunctionInfo) : gostring :=
  gs "#### `" ++ FuncName fn ++ gs "`" ++ function_marks fn ++ gs "\n\n"
  ++ function_attributes fn
  ++ gs "```csharp\n" ++ Signature fn ++ gs "\n```\n\n"
  ++ function_comments fn
  ++ function_keywords fn
  ++ gs "---\n\n".

Lemma Join_cons (e : gostring) (rest : list gostring) (sep : gostring) :
  strings.Join (e :: rest) sep = e ++ flat_map (λ x, sep ++ x) rest.
Proof.
  revert e. induction rest as [|e' rest IH]; intros e.
  - cbn. by rewrite app_nil_r.
  - change (strings.Join (e :: e' :: rest) sep)
      with (e ++ sep ++ strings.Join (e' :: rest) sep).
    rewrite IH. cbn [flat_map]. by rewrite <- !app_assoc.
Qed.

(** The loop over the attributes writes them joined by commas. *)
Lemma attributes_loop (f : gostring → gostring) (sep : gostring)
    (l : list gostring) :
  fold_left (λ (sb : gostring) (ia : nat * gostring),
      let '(i, attr) := ia in
      (if (0 <? i)%nat then sb ++ sep else sb) ++ f attr)
    (zip (seq 0 (length l)) l) []
  = strings.Join (map f l) sep.
Proof.
  assert (∀ l k sb, (0 < k)%nat →
    fold_left (λ (sb : gostring) (ia : nat * gostring),
        let '(i, attr) := ia in
        (if (0 <? i)%nat then sb ++ sep else sb) ++ f attr)
      (zip (seq k (length l)) l) sb
    = sb ++ flat_map (λ x, sep ++ x) (map f l)) as Hrest.
  { clear l. induction l as [|a l IH]; intros k sb Hk; cbn [length seq zip zip_with fold_left map flat_map].
    - by rewrite app_nil_r.
    - rewrite IH by lia. destruct k; [lia|]. cbn [Nat.ltb Nat.leb].
      by rewrite <- !app_assoc. }
  destruct l as [|a l]; [done|].
  cbn [length seq zip zip_with fold_left map]. rewrite Hrest by lia.
  cbn [Nat.ltb Nat.leb app]. by rewrite Join_cons.
Qed.

(** What [write_function] writes for a record. *)
Lemma write_function_section (fn : FunctionInfo) :
  write_function [] fn = function_section fn.
Proof.
  assert (∀ name marks,
    fmt.Sprintf (gs "#### `%s`%s\n\n") [fmt.Str name; fmt.Str marks]
    = gs "#### `" ++ name ++ gs "`" ++ marks ++ gs "\n\n") as Hheading
    by (intros; vm_compute; reflexivity).
  assert ((if (0 <? length
                 (if IsCoroutine fn
                  then (if IsUnityEvent fn then [] ++ [gs "🎯Unity事件"] else [])
                       ++ [gs "⏱️协程"]
                  else if IsUnityEvent fn then [] ++ [gs "🎯Unity事件"] else []))%nat
           then gs " "
                ++ strings.Join
                     (if IsCoroutine fn
                      then (if IsUnityEvent fn then [] ++ [gs "🎯Unity事件"] else [])
                           ++ [gs "⏱️协程"]
                      else if IsUnityEvent fn then [] ++ [gs "🎯Unity事件"] else [])
                     (gs " ")
           else [])
          = function_marks fn) as Hmarks.
  { unfold function_marks.
    destruct (IsUnityEvent fn), (IsCoroutine fn); vm_compute; reflexivity. }
  assert ((if (8 <? length (Keywords fn))%nat then take 8 (Keywords fn) else Keywords fn)
          = take 8 (Keywords fn)) as Hdisplay.
  { destruct (8 <? length (Keywords fn))%nat eqn:E; [done|].
    apply Nat.ltb_ge in E. by rewrite take_ge. }
  unfold function_section, function_attributes, function_comments, function_keywords.
  unfold write_function, WriteString. rewrite Hheading, Hmarks, Hdisplay. cbn [app].
  set (attrs := fold_left _ (zip _ _)).
  set (comments := fold_left _ (Comments fn)).
  assert (∀ sb, attrs sb = sb ++ attrs []) as Hattrs.
  { intros sb'. unfold attrs. rewrite fold_left_appends.
    - symmetry. rewrite fold_left_appends; [done|].
      intros sb0 [i attr]. destruct (0 <? i)%nat; cbn [app]; by rewrite <- ?app_assoc.
    - intros sb0 [i attr]. destruct (0 <? i)%nat; cbn [app]; by rewrite <- ?app_assoc. }
  assert (attrs []
          = strings.Join (map (λ attr, gs "`[" ++ attr ++ gs "]`") (Attributes fn))
              (gs ", ")) as Hattrs0.
  { unfold attrs.
    rewrite (attributes_loop (λ attr, fmt.Sprintf (gs "`[%s]`") [fmt.Str attr]) (gs ", ")).
    reflexivity. }
  assert (∀ sb, comments sb
          = sb ++ flat_map (λ comment,
                    if negb (gostring_eqb (strings.TrimSpace comment) [])
                    then gs "> " ++ comment ++ gs "\n" else []) (Comments fn))
    as Hcomments.
  { intros sb'. unfold comments. rewrite fold_left_appends.
    - reflexivity.
    - intros sb0 c. destruct (negb _); cbn [app]; by rewrite ?app_nil_r. }
  clearbody attrs comments.
  destruct (0 <? length (Attributes fn))%nat, (0 <? length (Comments fn))%nat,
    (0 <? length (Keywords fn))%nat; cbn [app];
    rewrite ?(Hattrs (_ ++ _)), ?Hcomments, ?Hattrs0;
    rewrite <- ?app_assoc; cbn [app]; rewrite ?app_nil_r; reflexivity.
Qed.

Section RecordSections.
Variable caseLower : Z → Z.

(** X23: Every record of the input has its section in the document: the
    heading with its name and the marks of its flags, the line of its
    attributes, its signature in a code block, its comments, its first
    eight keywords, and a rule, one after the other. *)
Theorem markdown_lists_every_function (functions : list FunctionInfo)
    (fn : FunctionInfo) :
  fn ∈ functions →
  ∃ before after,
    markdown_text caseLower functions
    = before
      ++ (gs "#### `" ++ FuncName fn ++ gs "`" ++ function_marks fn ++ gs "\n\n"
          ++ function_attributes fn
          ++ gs "```csharp\n" ++ Signature fn ++ gs "\n```\n\n"
          ++ function_comments fn
          ++ function_keywords fn
          ++ gs "---\n\n")
      ++ after.
Proof.
  intros Hfn. fold (function_section fn). rewrite <- write_function_section.
  rewrite markdown_text_sections.
  do 3 apply occurs_app_r. apply occurs_app_l.
  apply (occurs_flat_map _ _ (category_of fn)).
  { apply (group_keys_spec category_of functions). by exists fn. }
  unfold category_section. apply occurs_app_r.
  apply (occurs_flat_map _ _ (className_of fn)).
  { apply (group_keys_spec className_of). exists fn.
    split; [by apply with_key_elem|done]. }
  unfold class_section. apply occurs_app_r.
  apply flat_map_elem_split. apply with_key_elem.
  split; [by apply with_key_elem|done].
Qed.

End RecordSections.

(** A coroutine with two attributes, two comments, one of them blank, and
    nine keywords. *)
Definition demo_fade : FunctionInfo :=
  mkFunctionInfo (bytes "c.cs") (bytes "p/Assets/Scripts/c.cs") (bytes "Scripts/c.cs")
    [] (bytes "Fader") (bytes "Fade") [bytes "Fades out."; bytes " "]
    (bytes "private IEnumerator Fade(float t) { }") false true
    [bytes "Obsolete"; bytes "ContextMenu"]
    (map bytes ["fade"; "out"; "k3"; "k4"; "k5"; "k6"; "k7"; "k8"; "k9"]%string).

Example function_section_demo :
  function_section demo_fade
  = gs "#### `Fade` ⏱️协程\n\n**特性**: `[Obsolete]`, `[ContextMenu]`\n\n```csharp\nprivate IEnumerator Fade(float t) { }\n```\n\n**📝 说明**:\n> Fades out.\n\n**🔑 关键词**: `fade` `out` `k3` `k4` `k5` `k6` `k7` `k8`\n\n---\n\n".
Proof. vm_compute. reflexivity. Qed.

Lemma markdown_lists_every_function_witness :
  ∃ before after,
    markdown_text demo_caseLower (demo_records ++ [demo_fade])
    = before
      ++ (gs "#### `" ++ FuncName demo_fade ++ gs "`" ++ function_marks demo_fade
          ++ gs "\n\n"
          ++ function_attributes demo_fade
          ++ gs "```csharp\n" ++ Signature demo_fade ++ gs "\n```\n\n"
          ++ function_comments demo_fade
          ++ function_keywords demo_fade
          ++ gs "---\n\n")
      ++ after.
Proof.
  apply (markdown_lists_every_function demo_caseLower (demo_records ++ [demo_fade])
           demo_fade).
  apply elem_of_app. right. apply list_elem_of_singleton. reflexivity.
Defined.

(** *** The words of the name come first *)

Lemma first_occurrences_prefix (seen l1 l2 : list gostring) :
  first_occurrences seen l1 `prefix_of` first_occurrences seen (l1 ++ l2).
Proof.
  revert seen. induction l1 as [|k l1 IH]; intros seen; cbn [first_occurrences app].
  - apply prefix_nil.
  - destruct (_ || _); [apply IH|]. apply prefix_cons, IH.
Qed.

(** X24: The keywords start with the keywords of the name alone: the comments
    only add keywords after them, and neither remove nor reorder a keyword
    that comes from the name. *)
Theorem extractKeywords_name_words_first (caseLower : Z → Z)
    (funcName : gostring) (comments : list gostring) :
  extractKeywords caseLower funcName [] `prefix_of`
    extractKeywords caseLower funcName comments
  ∧ extractKeywords caseLower funcName []
    = first_occurrences [] (splitCamelCase caseLower funcName).
Proof.
  rewrite !extractKeywords_first_occurrences. unfold keyword_candidates.
  assert (strings.Fields (strings.Join [] (bytes " ")) = []) as -> by reflexivity.
  cbn [List.filter map]. rewrite app_nil_r.
  split; [apply first_occurrences_prefix|done].
Qed.
